(** * The HLS playlist loader of flv.js (m3u8-playlist-loader)

    A shallow embedding of [updateSegments], [updateMaster] and the methods of
    [M3U8PlaylistLoader], over an explicit store of JavaScript objects and
    arrays.  Objects are finite maps from property names to values, held in a
    store indexed by object identity, so that the in-place updates performed by
    [Object.assign] and by property assignment are visible through every alias,
    as they are in the program. *)

From stdpp Require Import base gmap strings list fin_maps.
From Stdlib Require Import ZArith Lia.

(** ** Values and the store *)

Definition loc := positive.
Bind Scope positive_scope with loc.

(** The values the loader manipulates.  Numbers are restricted to the
    integers, on which the arithmetic used by the loader ([+], [-], [* 1000],
    and [/ 2] of a multiple of 1000) is exact; [VNaN] is the result of
    arithmetic on [undefined]. *)
Inductive val :=
| VUndef
| VNull
| VBool (b : bool)
| VNum (n : Z)
| VNaN
| VStr (s : string)
| VObj (l : loc)
| VArr (l : loc).

#[global] Instance val_eq_dec : EqDecision val.
Proof. solve_decision. Defined.

#[global] Instance val_inhabited : Inhabited val := populate VUndef.

(** An array has its indexed elements and, as [master.playlists] does, may
    carry extra properties keyed by name. *)
Record array := Array { elems : list val; keyed : gmap string val }.

#[global] Instance array_inhabited : Inhabited array := populate (Array [] ∅).

Inductive LoaderState := HAVE_NOTHING | HAVE_MASTER | HAVE_METADATA | SWITCHING_MEDIA.

#[global] Instance LoaderState_eq_dec : EqDecision LoaderState.
Proof. solve_decision. Defined.

(** The [error] object built by [onPlaylistRequestError]. *)
Record ErrorInfo := {
  err_playlist : val;
  err_status : val;
  err_message : val;
  err_responseText : val;
  err_code : val
}.

(** The fields of [this] in [M3U8PlaylistLoader]. *)
Record Loader := {
  state : LoaderState;
  _media : val;
  _xhr : val;
  master : val;
  bandwidth : val;
  refreshDelay : val;
  targetDuration : val;
  mediaUpdateTimeout : val;
  expired_ : val;
  trackExpiredTime_ : val;
  error : option ErrorInfo
}.

(** What the loader asks of its host: events, requests, aborts.  The class as
    it is written gets as far as [Abort] only: see [trigger] and [hls_xhr]. *)
Inductive effect :=
| Trigger (name : string)
| Fetch (uri : val) (handle : loc)
| Abort (handle : val).

(** The whole mutable world: the store of objects and arrays, the loader, the
    pending timers ([window.setTimeout] handle to delay), the clock read by
    [Date.now()] and the trace of effects. *)
Record world := World {
  objs : gmap loc (gmap string val);
  arrs : gmap loc array;
  this : Loader;
  timers : gmap Z val;
  clock : Z;
  trace : list effect
}.

Definition obj_at (w : world) (l : loc) : gmap string val := default ∅ (objs w !! l).
Definition arr_at (w : world) (l : loc) : array := default (Array [] ∅) (arrs w !! l).

Definition set_objs (f : gmap loc (gmap string val) → gmap loc (gmap string val)) (w : world) : world :=
  World (f (objs w)) (arrs w) (this w) (timers w) (clock w) (trace w).
Definition set_arrs (f : gmap loc array → gmap loc array) (w : world) : world :=
  World (objs w) (f (arrs w)) (this w) (timers w) (clock w) (trace w).
Definition set_this (f : Loader → Loader) (w : world) : world :=
  World (objs w) (arrs w) (f (this w)) (timers w) (clock w) (trace w).
Definition set_timers (f : gmap Z val → gmap Z val) (w : world) : world :=
  World (objs w) (arrs w) (this w) (f (timers w)) (clock w) (trace w).
Definition emit (e : effect) (w : world) : world :=
  World (objs w) (arrs w) (this w) (timers w) (clock w) (trace w ++ [e]).

(** ** Computations: state plus exceptions *)

(** [TypeError] is the JavaScript exception; [Unmodelled] marks a coercion
    (a string or an object used as a number, a boxed primitive) that this
    embedding does not cover. *)
Inductive exn := TypeError | Unmodelled.

Inductive res (A : Type) :=
| Ret (a : A)
| Throw (e : exn).
Arguments Ret {A} a.
Arguments Throw {A} e.

Definition M (A : Type) : Type := world → res A * world.

Definition ret {A} (a : A) : M A := λ w, (Ret a, w).
Definition throw {A} (e : exn) : M A := λ w, (Throw e, w).
Definition bind {A B} (m : M A) (k : A → M B) : M B :=
  λ w, match m w with
       | (Ret a, w') => k a w'
       | (Throw e, w') => (Throw e, w')
       end.
Definition modify (f : world → world) : M unit := λ w, (Ret tt, f w).
Definition gets {A} (f : world → A) : M A := λ w, (Ret (f w), w).

Notation "'do' x <- m ; k" := (bind m (λ x, k))
  (at level 10, x name, m at level 100, k at level 200,
   format "'[v' 'do'  x  <-  m ; '/' k ']'").
Notation "m ;; k" := (bind m (λ _, k))
  (at level 100, k at level 200, right associativity,
   format "'[v' m ;; '/' k ']'").

Definition when (b : bool) (m : M unit) : M unit := if b then m else ret tt.

(** ** Primitive operations *)

(** ToBoolean. *)
Definition truthy (v : val) : bool :=
  match v with
  | VUndef | VNull | VNaN => false
  | VBool b => b
  | VNum n => negb (n =? 0)%Z
  | VStr s => negb (String.eqb s "")
  | VObj _ | VArr _ => true
  end.

(** [a || b] and [!a]. *)
Definition js_or (a b : val) : val := if truthy a then a else b.
Definition js_not (a : val) : bool := negb (truthy a).

(** [a === b]: NaN differs from itself, references compare by identity. *)
Definition strict_eq (a b : val) : bool :=
  match a, b with
  | VNaN, _ | _, VNaN => false
  | _, _ => bool_decide (a = b)
  end.

(** [typeof v === 'undefined'] and [typeof v === 'string']. *)
Definition is_undefined (v : val) : bool :=
  match v with VUndef => true | _ => false end.
Definition is_string (v : val) : bool :=
  match v with VStr _ => true | _ => false end.

(** ToNumber: [None] is NaN. *)
Definition to_number (v : val) : M (option Z) :=
  match v with
  | VUndef | VNaN => ret None
  | VNull => ret (Some 0%Z)
  | VBool b => ret (Some (if b then 1 else 0)%Z)
  | VNum n => ret (Some n)
  | VStr _ | VObj _ | VArr _ => throw Unmodelled
  end.

Definition of_number (n : option Z) : val :=
  match n with Some z => VNum z | None => VNaN end.

Definition arith (f : Z → Z → Z) (a b : val) : M val :=
  do x <- to_number a;
  do y <- to_number b;
  ret (of_number (match x, y with Some x, Some y => Some (f x y) | _, _ => None end)).

Definition compare (f : Z → Z → bool) (a b : val) : M bool :=
  do x <- to_number a;
  do y <- to_number b;
  ret (match x, y with Some x, Some y => f x y | _, _ => false end).

(** [a - b], [a + b] on numbers, [a * b], [Math.min(a, b)], [a <= b],
    [a >= b], [a < b]. *)
Definition js_sub := arith Z.sub.
Definition js_add := arith Z.add.
Definition js_mul := arith Z.mul.
Definition Math_min := arith Z.min.
Definition js_le := compare Z.leb.
Definition js_ge := compare Z.geb.
Definition js_lt := compare Z.ltb.

(** [v.k].  Reading a property of [undefined] or [null] throws; arrays answer
    [length] and their keyed properties; prototype members are not modelled,
    and a key is taken not to spell an index (see [plain_key]). *)
Definition get (v : val) (k : string) : M val :=
  match v with
  | VUndef | VNull => throw TypeError
  | VObj l => gets (λ w, default VUndef (obj_at w l !! k))
  | VArr l =>
      gets (λ w, if String.eqb k "length"
                 then VNum (Z.of_nat (length (elems (arr_at w l))))
                 else default VUndef (keyed (arr_at w l) !! k))
  | VStr s => ret (if String.eqb k "length" then VNum (Z.of_nat (String.length s)) else VUndef)
  | VBool _ | VNum _ | VNaN => ret VUndef
  end.

(** [v.k = x].  The module is strict-mode code: assigning on a primitive
    throws. *)
Definition set (v : val) (k : string) (x : val) : M unit :=
  match v with
  | VObj l => modify (λ w, set_objs <[l := <[k := x]> (obj_at w l)]> w)
  | VArr l =>
      if String.eqb k "length" then throw Unmodelled
      else modify (λ w, set_arrs <[l := Array (elems (arr_at w l)) (<[k := x]> (keyed (arr_at w l)))]> w)
  | _ => throw TypeError
  end.

(** An array is an object too: a key that spells an index (["0"], ["17"])
    names an element, and a key such as ["length"], ["filter"] or
    ["constructor"] names a member that every array has.  [get] and [set]
    cover neither.  An index is made of digits and the name of such a member
    of letters, digits, [_] and [$]; a key with any other character, as the
    uri of a playlist has (["low.m3u8"], ["http://h/a"]), is a plain key: it
    names a property of the array's own and nothing else. *)
Definition ident_char (c : Ascii.ascii) : bool :=
  let n := Ascii.nat_of_ascii c in
  ((48 <=? n) && (n <=? 57) || (65 <=? n) && (n <=? 90) || (97 <=? n) && (n <=? 122)
   || (n =? 95) || (n =? 36))%nat.

Definition plain_key (k : string) : bool :=
  negb (forallb ident_char (String.list_ascii_of_string k)).

(** [v[i]] for a number [i]: outside the bounds of an array the element is
    [undefined]. *)
Definition get_idx (v : val) (i : Z) : M val :=
  match v with
  | VUndef | VNull => throw TypeError
  | VArr l =>
      gets (λ w, if (0 <=? i)%Z then default VUndef (elems (arr_at w l) !! Z.to_nat i) else VUndef)
  | VObj _ | VStr _ => throw Unmodelled
  | VBool _ | VNum _ | VNaN => ret VUndef
  end.

(** [v[i] = x] for a number [i]; writing past the end grows the array. *)
Definition set_idx (v : val) (i : Z) (x : val) : M unit :=
  match v with
  | VArr l =>
      if (0 <=? i)%Z then
        modify (λ w,
          let a := arr_at w l in
          let n := Z.to_nat i in
          let es := if decide (n < length (elems a))%nat
                    then <[n := x]> (elems a)
                    else elems a ++ replicate (n - length (elems a)) VUndef ++ [x] in
          set_arrs <[l := Array es (keyed a)]> w)
      else throw Unmodelled
  | VObj _ => throw Unmodelled
  | _ => throw TypeError
  end.

(** [v[k]] and [v[k] = x] where [k] is a value used as a property name. *)
Definition get_by (v k : val) : M val :=
  match k with
  | VStr s => get v s
  | VUndef => get v "undefined"
  | VNum i => get_idx v i
  | _ => throw Unmodelled
  end.

Definition set_by (v k x : val) : M unit :=
  match k with
  | VStr s => set v s x
  | VUndef => set v "undefined" x
  | VNum i => set_idx v i x
  | _ => throw Unmodelled
  end.

(** [v.slice()]: a new array with the same elements. *)
Definition slice (v : val) : M val :=
  match v with
  | VArr l =>
      λ w, let r := fresh (dom (arrs w)) in
           (Ret (VArr r), set_arrs <[r := Array (elems (arr_at w l)) ∅]> w)
  | VStr s => ret (VStr s)
  | _ => throw TypeError
  end.

(** [Object.assign(target, source)]: every own property of [source] is
    written on [target], in place, and [target] is returned. *)
Definition Object_assign (target source : val) : M val :=
  match target with
  | VUndef | VNull => throw TypeError
  | VObj t =>
      match source with
      | VObj s =>
          modify (λ w, set_objs <[t := obj_at w s ∪ obj_at w t]> w);;
          ret target
      | VUndef | VNull | VBool _ | VNum _ | VNaN => ret target
      | VStr _ | VArr _ => throw Unmodelled
      end
  | _ => throw Unmodelled
  end.

(** [for (i = lo; i < hi; i++) body(i)], by recursion on the number of
    iterations left. *)
Fixpoint for_up (n : nat) (i : Z) (body : Z → M unit) : M unit :=
  match n with
  | O => ret tt
  | S n' => body i;; for_up n' (i + 1)%Z body
  end.

(** ** The segment reconciler *)

(** [merge_at] is the body of the loop of [updateSegments].
<<
const updateSegments = function (original, update, offset) {
    let result = update.slice();
    offset = offset || 0;
    length = Math.min(original.length, update.length + offset);
    for (i = offset; i < length; i++) {
        result[i - offset] = Object.assign(original[i], result[i - offset]);
    }
    return result;
};
>> *)
Definition merge_at (original result : val) (offset i : Z) : M unit :=
  do o <- get_idx original i;
  do r <- get_idx result (i - offset);
  do m <- Object_assign o r;
  set_idx result (i - offset) m.

Definition updateSegments (original update offset : val) : M val :=
  do result <- slice update;
  let offset := js_or offset (VNum 0) in
  do ol <- get original "length";
  do ul <- get update "length";
  do s <- js_add ul offset;
  do length <- Math_min ol s;
  do lo <- to_number offset;
  do hi <- to_number length;
  match lo, hi with
  | Some lo, Some hi =>
      for_up (Z.to_nat (hi - lo)) lo (merge_at original result lo);;
      ret result
  | _, _ => ret result
  end.

(** [while (i--) body(i)]: [i] runs from [n - 1] down to [0]. *)
Fixpoint while_down {A} (n : nat) (body : Z → A → M A) (a : A) : M A :=
  match n with
  | O => ret a
  | S n' => do a' <- body (Z.of_nat n') a; while_down n' body a'
  end.

(** The number of iterations of [while (v--)]: none when [v] is NaN or zero;
    from a negative number the loop would not stop. *)
Definition count_down (v : val) : M nat :=
  do n <- to_number v;
  match n with
  | None => ret O
  | Some z => if (0 <=? z)%Z then ret (Z.to_nat z) else throw Unmodelled
  end.

(** [{}]: a new object without properties. *)
Definition new_object (o : gmap string val) : M val :=
  λ w, let l := fresh (dom (objs w)) in (Ret (VObj l), set_objs <[l := o]> w).

Definition new_array (es : list val) : M val :=
  λ w, let l := fresh (dom (arrs w)) in (Ret (VArr l), set_arrs <[l := Array es ∅]> w).

Section Loader.

(** Collaborators that are imported by the module and are not part of it:
    [resolveURL] from [../utils/resolve-url], and the parser of [m3u8-parser]:
    [m3u8_Parser text] stands for [new m3u8.Parser()], [push(text)] and
    [end()], and yields the parser object. *)
Variable resolveURL : val → val → val.
Variable m3u8_Parser : val → M val.

(**
<<
    while (j--) {
        segment = result.playlists[i].segments[j];
        if (!segment.resolvedUri) {
            segment.resolvedUri = resolveURL(playlist.resolvedUri, segment.uri);
        }
        if (segment.key && !segment.key.resolvedUri) {
            segment.key.resolvedUri = resolveURL(playlist.resolvedUri, segment.key.uri);
        }
        if (segment.map && !segment.map.resolvedUri) {
            segment.map.resolvedUri = resolveURL(playlist.resolvedUri, segment.map.uri);
        }
    }
>> *)
Definition resolve_part (playlist segment : val) (part : string) : M unit :=
  do k <- get segment part;
  do missing <- (if truthy k
                 then do r <- get k "resolvedUri"; ret (js_not r)
                 else ret false);
  when missing (
    do k <- get segment part;
    do base <- get playlist "resolvedUri";
    do u <- get k "uri";
    set k "resolvedUri" (resolveURL base u)).

Definition resolve_segment (result playlist : val) (i j : Z) : M unit :=
  do pls <- get result "playlists";
  do p <- get_idx pls i;
  do segs <- get p "segments";
  do segment <- get_idx segs j;
  do r <- get segment "resolvedUri";
  when (js_not r) (
    do base <- get playlist "resolvedUri";
    do u <- get segment "uri";
    set segment "resolvedUri" (resolveURL base u));;
  resolve_part playlist segment "key";;
  resolve_part playlist segment "map".

(** The test that makes [updateMaster] skip a playlist:
<<
    playlist.segments && media.segments &&
    playlist.segments.length === media.segments.length &&
    playlist.mediaSequence === media.mediaSequence
>> *)
Definition unchanged (playlist media : val) : M bool :=
  do ps <- get playlist "segments";
  if truthy ps then
    do ms <- get media "segments";
    if truthy ms then
      do pl <- get ps "length";
      do ml <- get ms "length";
      if strict_eq pl ml then
        do pq <- get playlist "mediaSequence";
        do mq <- get media "mediaSequence";
        ret (strict_eq pq mq)
      else ret false
    else ret false
  else ret false.

(** One turn of the loop of [updateMaster]; the result is the new value of
    [changed]. *)
Definition updateMaster_step (result media : val) (i : Z) (changed : bool) : M bool :=
  do pls <- get result "playlists";
  do playlist <- get_idx pls i;
  do pu <- get playlist "uri";
  do mu <- get media "uri";
  if strict_eq pu mu then
    do same <- unchanged playlist media;
    if same then ret changed
    else
      (* result.playlists[i] = Object.assign(playlist, media); *)
      do pls <- get result "playlists";
      do merged <- Object_assign playlist media;
      set_idx pls i merged;;
      (* result.playlists[media.uri] = result.playlists[i]; *)
      do pls <- get result "playlists";
      do mu <- get media "uri";
      do pls' <- get result "playlists";
      do p <- get_idx pls' i;
      set_by pls mu p;;
      (* if (playlist.segments) { result.playlists[i].segments = updateSegments(...) } *)
      do ps <- get playlist "segments";
      when (truthy ps) (
        do pls <- get result "playlists";
        do p <- get_idx pls i;
        do ps <- get playlist "segments";
        do ms <- get media "segments";
        do mq <- get media "mediaSequence";
        do pq <- get playlist "mediaSequence";
        do offset <- js_sub mq pq;
        do merged <- updateSegments ps ms offset;
        set p "segments" merged);;
      (* j = 0; if (result.playlists[i].segments) j = ...length; while (j--) ... *)
      do pls <- get result "playlists";
      do p <- get_idx pls i;
      do segs <- get p "segments";
      do j <- (if truthy segs then get segs "length" else ret (VNum 0));
      do n <- count_down j;
      while_down n (λ j _, resolve_segment result playlist i j) tt;;
      ret true
  else ret changed.

(**
<<
const updateMaster = function (master, media) {
    let changed = false;
    let result = Object.assign(master, {});
    let i = master.playlists.length;
    while (i--) { ... }
    return changed ? result : null;
};
>> *)
Definition updateMaster (master media : val) : M val :=
  do empty <- new_object ∅;
  do result <- Object_assign master empty;
  do pls <- get master "playlists";
  do i <- get pls "length";
  do n <- count_down i;
  do changed <- while_down n (updateMaster_step result media) false;
  ret (if changed : bool then result else VNull).

(** ** The loader *)

Definition with_state (s : LoaderState) (L : Loader) : Loader :=
  Build_Loader s (_media L) (_xhr L) (master L) (bandwidth L) (refreshDelay L)
    (targetDuration L) (mediaUpdateTimeout L) (expired_ L) (trackExpiredTime_ L) (error L).
Definition with_media (v : val) (L : Loader) : Loader :=
  Build_Loader (state L) v (_xhr L) (master L) (bandwidth L) (refreshDelay L)
    (targetDuration L) (mediaUpdateTimeout L) (expired_ L) (trackExpiredTime_ L) (error L).
Definition with_xhr (v : val) (L : Loader) : Loader :=
  Build_Loader (state L) (_media L) v (master L) (bandwidth L) (refreshDelay L)
    (targetDuration L) (mediaUpdateTimeout L) (expired_ L) (trackExpiredTime_ L) (error L).
Definition with_master (v : val) (L : Loader) : Loader :=
  Build_Loader (state L) (_media L) (_xhr L) v (bandwidth L) (refreshDelay L)
    (targetDuration L) (mediaUpdateTimeout L) (expired_ L) (trackExpiredTime_ L) (error L).
Definition with_bandwidth (v : val) (L : Loader) : Loader :=
  Build_Loader (state L) (_media L) (_xhr L) (master L) v (refreshDelay L)
    (targetDuration L) (mediaUpdateTimeout L) (expired_ L) (trackExpiredTime_ L) (error L).
Definition with_refreshDelay (v : val) (L : Loader) : Loader :=
  Build_Loader (state L) (_media L) (_xhr L) (master L) (bandwidth L) v
    (targetDuration L) (mediaUpdateTimeout L) (expired_ L) (trackExpiredTime_ L) (error L).
Definition with_targetDuration (v : val) (L : Loader) : Loader :=
  Build_Loader (state L) (_media L) (_xhr L) (master L) (bandwidth L) (refreshDelay L)
    v (mediaUpdateTimeout L) (expired_ L) (trackExpiredTime_ L) (error L).
Definition with_mediaUpdateTimeout (v : val) (L : Loader) : Loader :=
  Build_Loader (state L) (_media L) (_xhr L) (master L) (bandwidth L) (refreshDelay L)
    (targetDuration L) v (expired_ L) (trackExpiredTime_ L) (error L).
Definition with_expired (v : val) (L : Loader) : Loader :=
  Build_Loader (state L) (_media L) (_xhr L) (master L) (bandwidth L) (refreshDelay L)
    (targetDuration L) (mediaUpdateTimeout L) v (trackExpiredTime_ L) (error L).
Definition with_error (e : ErrorInfo) (L : Loader) : Loader :=
  Build_Loader (state L) (_media L) (_xhr L) (master L) (bandwidth L) (refreshDelay L)
    (targetDuration L) (mediaUpdateTimeout L) (expired_ L) (trackExpiredTime_ L) (Some e).

Definition read {A} (f : Loader → A) : M A := gets (λ w, f (this w)).
Definition write (f : Loader → Loader) : M unit := modify (set_this f).

(** Host services: [Date.now()], [window.clearTimeout], [window.setTimeout]
    and the [abort()] of a request. *)
Definition Date_now : M val := gets (λ w, VNum (clock w)).

Definition clearTimeout (h : val) : M unit :=
  match h with
  | VNum id => modify (set_timers (delete id))
  | _ => ret tt
  end.

Definition setTimeout (delay : val) : M val :=
  λ w, let id := fresh (dom (timers w)) in
       (Ret (VNum id), set_timers <[id := delay]> w).

Definition abort (handle : val) : M unit := modify (emit (Abort handle)).

(** [this.trigger(name)] and [this.hls_.xhr(options, callback)].  The class
    extends nothing, declares no [trigger] and never assigns [this.hls_]:
    the first calls [undefined], the second reads a property of [undefined]
    before any argument is evaluated, and both throw a TypeError. *)
Definition trigger (name : string) : M unit := throw TypeError.
Definition hls_xhr (uri : val) : M val := throw TypeError.

(**
<<
    stopRequest() {
        if (this._xhr) {
            let oldXhr = this._xhr;
            this._xhr = null;
            oldXhr.onreadystatechange = null;
            oldXhr.abort();
        }
    }
>> *)
Definition stopRequest : M unit :=
  do x <- read _xhr;
  when (truthy x) (
    do oldXhr <- read _xhr;
    write (with_xhr VNull);;
    set oldXhr "onreadystatechange" VNull;;
    abort oldXhr).

(**
<<
    destroy() {
        this.stopRequest();
        window.clearTimeout(this.mediaUpdateTimeout);
    }
>> *)
Definition destroy : M unit :=
  stopRequest;;
  do t <- read mediaUpdateTimeout;
  clearTimeout t.

(**
<<
    pause() {
        this.stopRequest();
        window.clearTimeout(this.mediaUpdateTimeout);
    }
>> *)
Definition pause : M unit :=
  stopRequest;;
  do t <- read mediaUpdateTimeout;
  clearTimeout t.

(** [Array.prototype.filter], with a callback that may throw. *)
Fixpoint filter_elems (f : val → M bool) (l : list val) : M (list val) :=
  match l with
  | [] => ret []
  | x :: l' =>
      do b <- f x;
      do r <- filter_elems f l';
      ret (if b : bool then x :: r else r)
  end.

Definition Array_filter (v : val) (f : val → M bool) : M val :=
  match v with
  | VArr l =>
      do es <- gets (λ w, elems (arr_at w l));
      do kept <- filter_elems f es;
      new_array kept
  | _ => throw TypeError
  end.

(**
<<
    enabledPlaylists() {
        return this.master.playlists.filter((element) => {
            return !element.excludeUntil || element.excludeUntil <= Date.now();
        }).length;
    }
>> *)
Definition enabledPlaylists : M val :=
  do m <- read master;
  do pls <- get m "playlists";
  do kept <- Array_filter pls (λ element,
    do ex <- get element "excludeUntil";
    if js_not ex then ret true
    else
      do ex <- get element "excludeUntil";
      do now <- Date_now;
      js_le ex now);
  get kept "length".

(**
<<
    media(playlist) {
        let startingState = this.state;
        if (!playlist) { return this._media; }
        if (this.state === 'HAVE_NOTHING') { Log.e(...); }
        if (typeof playlist === 'string') {
            if (!this.master.playlists[playlist]) { Log.e(...); }
            playlist = this.master.playlists[playlist];
        }
        mediaChange = !this._media || playlist.uri !== this._media.uri;
        if (this.master.playlists[playlist.uri].endList) { ... return; }
        if (!mediaChange) { return; }
        this.state = 'SWITCHING_MEDIA';
        if (this._xhr) { ... }
        if (this._media) { this.trigger('mediachanging'); }
        this._xhr = this.hls_.xhr({ uri: ..., withCredentials: ... }, function (error, req) { ... });
    }
>>
    [Log.e] writes to the console only.  The response callback is handed to
    the host with the request and is not run by [media]. *)
Definition media (playlist : val) : M val :=
  if js_not playlist then read _media
  else
    do playlist <-
      (if is_string playlist then
         do m <- read master;
         do pls <- get m "playlists";
         do known <- get_by pls playlist;
         do m <- read master;
         do pls <- get m "playlists";
         get_by pls playlist
       else ret playlist);
    do cur <- read _media;
    do mediaChange <-
      (if js_not cur then ret true
       else
         do pu <- get playlist "uri";
         do cur <- read _media;
         do cu <- get cur "uri";
         ret (negb (strict_eq pu cu)));
    do m <- read master;
    do pls <- get m "playlists";
    do pu <- get playlist "uri";
    do target <- get_by pls pu;
    do endList <- get target "endList";
    if truthy endList then
      do x <- read _xhr;
      when (truthy x) (
        do x <- read _xhr;
        set x "onreadystatechange" VNull;;
        do x <- read _xhr;
        abort x;;
        write (with_xhr VNull));;
      write (with_state HAVE_METADATA);;
      write (with_media playlist);;
      when mediaChange (trigger "mediachanging";; trigger "mediachange");;
      ret VUndef
    else if negb mediaChange then ret VUndef
    else
      write (with_state SWITCHING_MEDIA);;
      do x <- read _xhr;
      do again <-
        (if truthy x then
           do m <- read master;
           do mu <- get m "uri";
           do pu <- get playlist "uri";
           do x <- read _xhr;
           do xu <- get x "url";
           if strict_eq (resolveURL mu pu) xu then ret true
           else
             do x <- read _xhr;
             set x "onreadystatechange" VNull;;
             do x <- read _xhr;
             abort x;;
             write (with_xhr VNull);;
             ret false
         else ret false);
      if again : bool then ret VUndef
      else
        do cur <- read _media;
        when (truthy cur) (trigger "mediachanging");;
        do m <- read master;
        do mu <- get m "uri";
        do pu <- get playlist "uri";
        do h <- hls_xhr (resolveURL mu pu);
        write (with_xhr h);;
        ret VUndef.

(** The walk of [updateMediaPlaylist_] over the outdated playlist:
<<
    for (; i >= 0; i--) {
        segment = outdated.segments[i];
        if (!segment) { this.expired_ += outdated.targetDuration || 10; continue; }
        if (typeof segment.end !== 'undefined') { this.expired_ = segment.end; return; }
        if (typeof segment.start !== 'undefined') {
            this.expired_ = segment.start + segment.duration; return;
        }
        this.expired_ += segment.duration;
    }
>>
    [walk_outdated n] runs it from [i = n - 1]. *)
Fixpoint walk_outdated (n : nat) (outdated : val) : M unit :=
  match n with
  | O => ret tt
  | S i =>
      do segs <- get outdated "segments";
      do segment <- get_idx segs (Z.of_nat i);
      if js_not segment then
        do e <- read expired_;
        do td <- get outdated "targetDuration";
        do e' <- js_add e (js_or td (VNum 10));
        write (with_expired e');;
        walk_outdated i outdated
      else
        do en <- get segment "end";
        if negb (is_undefined en) then
          do en <- get segment "end";
          write (with_expired en)
        else
          do st <- get segment "start";
          if negb (is_undefined st) then
            do st <- get segment "start";
            do d <- get segment "duration";
            do e' <- js_add st d;
            write (with_expired e')
          else
            do e <- read expired_;
            do d <- get segment "duration";
            do e' <- js_add e d;
            write (with_expired e');;
            walk_outdated i outdated
  end.

(**
<<
    updateMediaPlaylist_(update) {
        outdated = this._media;
        this._media = this.master.playlists[update.uri];
        if (!outdated) { return; }
        if (!this.trackExpiredTime_) { return; }
        if (update.uri !== outdated.uri) { return; }
        if (update.segments.length) {
            if (typeof update.segments[0].start !== 'undefined') {
                this.expired_ = update.segments[0].start; return;
            } else if (typeof update.segments[0].end !== 'undefined') {
                this.expired_ = update.segments[0].end - update.segments[0].duration; return;
            }
        }
        i = update.mediaSequence - outdated.mediaSequence - 1;
        for (; i >= 0; i--) { ... }
    }
>> *)
Definition updateMediaPlaylist_ (update : val) : M unit :=
  do outdated <- read _media;
  do m <- read master;
  do pls <- get m "playlists";
  do uu <- get update "uri";
  do p <- get_by pls uu;
  write (with_media p);;
  if js_not outdated then ret tt
  else
    do track <- read trackExpiredTime_;
    if js_not track then ret tt
    else
      do uu <- get update "uri";
      do ou <- get outdated "uri";
      if negb (strict_eq uu ou) then ret tt
      else
        do segs <- get update "segments";
        do len <- get segs "length";
        do settled <-
          (if truthy len then
             do first <- get_idx segs 0;
             do st <- get first "start";
             if negb (is_undefined st) then
               write (with_expired st);; ret true
             else
               do en <- get first "end";
               if negb (is_undefined en) then
                 do d <- get first "duration";
                 do e' <- js_sub en d;
                 write (with_expired e');; ret true
               else ret false
           else ret false);
        if settled : bool then ret tt
        else
          do uq <- get update "mediaSequence";
          do oq <- get outdated "mediaSequence";
          do d <- js_sub uq oq;
          do i <- js_sub d (VNum 1);
          do i <- to_number i;
          match i with
          | Some i => walk_outdated (Z.to_nat (i + 1)) outdated
          | None => ret tt
          end.

(** [setBandwidth(xhr) { this.bandwidth = xhr.bandwidth; }] *)
Definition setBandwidth (xhr : val) : M unit :=
  do b <- get xhr "bandwidth";
  write (with_bandwidth b).

(** [x / 2] on the integers: the quotient when it is exact. *)
Definition js_half (v : val) : M val :=
  do n <- to_number v;
  match n with
  | None => ret VNaN
  | Some z => if (z mod 2 =? 0)%Z then ret (VNum (z / 2)) else throw Unmodelled
  end.

(**
<<
    haveMetadata(xhr, url) {
        const parser = new m3u8.Parser();
        this.setBandwidth(xhr);
        this.state = 'HAVE_METADATA';
        parser.push(xhr.responseText);
        parser.end();
        parser.mainfest.uri = url;
        let update = updateMaster(this.master, parser.manifest);
        this.refreshDelay = (parser.manifest.targetDuration || 10) * 1000;
        this.targetDuration = parser.manifest.targetDuration;
        if (update) {
            this.master = update;
            this.updateMediaPlaylist_(parser.manifest);
        } else {
            this.refreshDelay /= 2;
        }
        if (!this.media().endList) {
            window.clearTimeout(this.mediaUpdateTimeout);
            this.mediaUpdateTimeout = window.setTimeout(function () { }, this.refreshDelay);
        }
    }
>> *)
Definition haveMetadata (xhr url : val) : M unit :=
  setBandwidth xhr;;
  write (with_state HAVE_METADATA);;
  do text <- get xhr "responseText";
  do parser <- m3u8_Parser text;
  do mainfest <- get parser "mainfest";
  set mainfest "uri" url;;
  do m <- read master;
  do manifest <- get parser "manifest";
  do update <- updateMaster m manifest;
  do manifest <- get parser "manifest";
  do td <- get manifest "targetDuration";
  do delay <- js_mul (js_or td (VNum 10)) (VNum 1000);
  write (with_refreshDelay delay);;
  do manifest <- get parser "manifest";
  do td <- get manifest "targetDuration";
  write (with_targetDuration td);;
  (if truthy update then
     write (with_master update);;
     do manifest <- get parser "manifest";
     updateMediaPlaylist_ manifest
   else
     do delay <- read refreshDelay;
     do half <- js_half delay;
     write (with_refreshDelay half));;
  do active <- media VUndef;
  do endList <- get active "endList";
  when (js_not endList) (
    do old <- read mediaUpdateTimeout;
    clearTimeout old;;
    do delay <- read refreshDelay;
    do id <- setTimeout delay;
    write (with_mediaUpdateTimeout id)).

(**
<<
    isLowestEnabledRendition_() {
        let media = this.media();
        if (!media || !media.attributes) { return false; }
        let currentBandwidth = this.media().attributes.BANDWIDTH || 0;
        return !(this.master.playlists.filter((playlist) => {
            let enabled = typeof playlist.excludeUntil === 'undefined' ||
                playlist.excludeUntil <= Date.now();
            if (!enabled) { return false; }
            let bandwidth = 0;
            if (playlist && playlist.attributes) {
                bandwidth = playlist.attributes.BANDWIDTH;
            }
            return bandwidth <= currentBandwidth;
        }).length > 1);
    }
>> *)
Definition lower_or_equal (currentBandwidth playlist : val) : M bool :=
  do ex <- get playlist "excludeUntil";
  do enabled <-
    (if is_undefined ex then ret true
     else
       do ex <- get playlist "excludeUntil";
       do now <- Date_now;
       js_le ex now);
  if negb enabled then ret false
  else
    do bandwidth <-
      (if truthy playlist then
         do attrs <- get playlist "attributes";
         if truthy attrs then
           do attrs <- get playlist "attributes";
           get attrs "BANDWIDTH"
         else ret (VNum 0)
       else ret (VNum 0));
    js_le bandwidth currentBandwidth.

Definition isLowestEnabledRendition_ : M bool :=
  do active <- media VUndef;
  do known <-
    (if js_not active then ret false
     else do attrs <- get active "attributes"; ret (truthy attrs));
  if negb known then ret false
  else
    do active <- media VUndef;
    do attrs <- get active "attributes";
    do bw <- get attrs "BANDWIDTH";
    let currentBandwidth := js_or bw (VNum 0) in
    do m <- read master;
    do pls <- get m "playlists";
    do kept <- Array_filter pls (lower_or_equal currentBandwidth);
    do n <- get kept "length";
    do more <- js_lt (VNum 1) n;
    ret (negb more).

(** ['HLS playlist request error at URL: ' + url] *)
Definition js_concat (s : string) (v : val) : M val :=
  match v with
  | VStr u => ret (VStr (s +:+ u))
  | VUndef => ret (VStr (s +:+ "undefined"))
  | VNull => ret (VStr (s +:+ "null"))
  | _ => throw Unmodelled
  end.

(**
<<
    onPlaylistRequestError(xhr, url, startingState) {
        this.setBandwidth(this._xhr || xhr);
        this._xhr = null;
        if (startingState) { this.state = startingState; }
        this.error = {
            playlist: this.master.playlists[url],
            status: xhr.status,
            message: 'HLS playlist request error at URL: ' + url,
            responseText: xhr.responseText,
            code: (xhr.status >= 500) ? 4 : 2
        };
    }
>> *)
Definition onPlaylistRequestError (xhr url : val) (startingState : option LoaderState) : M unit :=
  do x <- read _xhr;
  setBandwidth (js_or x xhr);;
  write (with_xhr VNull);;
  match startingState with
  | Some s => write (with_state s)
  | None => ret tt
  end;;
  do m <- read master;
  do pls <- get m "playlists";
  do playlist <- get_by pls url;
  do status <- get xhr "status";
  do message <- js_concat "HLS playlist request error at URL: " url;
  do responseText <- get xhr "responseText";
  do status' <- get xhr "status";
  do fatal <- js_ge status' (VNum 500);
  write (with_error {| err_playlist := playlist;
                       err_status := status;
                       err_message := message;
                       err_responseText := responseText;
                       err_code := VNum (if fatal : bool then 4 else 2) |}).

End Loader.

(** ** Specification-side definitions *)

(** [field w l k] is the value read by [l.k]. *)
Definition field (w : world) (l : loc) (k : string) : val :=
  default VUndef (obj_at w l !! k).

(** The number of positions on which the two lists overlap. *)
Definition overlap (os us : list val) (off : nat) : nat :=
  (Nat.min (length os) (length us + off) - off)%nat.

(** The segments of the overlap window are objects, each original of the
    window occurs once in it, and an original of the window occurs in the
    update, if at all, only at its own position. *)
Definition window_ok (os us : list val) (off : nat) : Prop :=
  (∀ i, (i < overlap os us off)%nat → ∃ l, os !! (off + i)%nat = Some (VObj l)) ∧
  (∀ i, (i < overlap os us off)%nat → ∃ u, us !! i = Some (VObj u)) ∧
  (∀ i i' l, (i < overlap os us off)%nat → (i' < overlap os us off)%nat →
     os !! (off + i)%nat = Some (VObj l) → os !! (off + i')%nat = Some (VObj l) → i = i') ∧
  (∀ i j l, (i < overlap os us off)%nat →
     os !! (off + i)%nat = Some (VObj l) → us !! j = Some (VObj l) → j = i).

(** [window_ok], as a check that computes. *)
Definition window_okb (os us : list val) (off : nat) : bool :=
  let n := overlap os us off in
  forallb (λ i,
    match os !! (off + i)%nat, us !! i with
    | Some (VObj l), Some (VObj _) =>
        forallb (λ i', implb (bool_decide (os !! (off + i')%nat = Some (VObj l))) (i =? i')%nat)
          (seq 0 n)
        && forallb (λ j, implb (bool_decide (us !! j = Some (VObj l))) (j =? i)%nat)
             (seq 0 (length us))
    | _, _ => false
    end) (seq 0 n).

(** The store after [k] turns of the loop of [updateSegments] on the original
    elements [os], the update elements [us] and the offset [off], starting
    from [w], with [r] the array returned: the first [k] positions of [r]
    hold the originals of the window, each overlaid in place with its update
    segment, and nothing else has changed. *)
Definition merged_upto (w : world) (os us : list val) (off k : nat) (r : loc)
    (w' : world) : Prop :=
  arrs w' = <[r := Array (take k (drop off os) ++ drop k us) ∅]> (arrs w) ∧
  (∀ i l u, (i < k)%nat → os !! (off + i)%nat = Some (VObj l) → us !! i = Some (VObj u) →
     obj_at w' l = obj_at w u ∪ obj_at w l) ∧
  (∀ l, (∀ i, (i < k)%nat → os !! (off + i)%nat ≠ Some (VObj l)) → obj_at w' l = obj_at w l) ∧
  this w' = this w ∧ timers w' = timers w ∧ clock w' = clock w ∧ trace w' = trace w.

Definition same_uri (w : world) (p m : loc) : bool :=
  strict_eq (field w p "uri") (field w m "uri").

Definition segment_count (w : world) (l : loc) : option nat :=
  match field w l "segments" with
  | VArr a => Some (length (elems (arr_at w a)))
  | _ => None
  end.

(** An update [m] of the playlist [p] is a no-op when the segment count and
    the media sequence are both unchanged. *)
Definition no_op (w : world) (p m : loc) : bool :=
  match segment_count w p, segment_count w m with
  | Some n, Some n' =>
      (n =? n')%nat && strict_eq (field w p "mediaSequence") (field w m "mediaSequence")
  | _, _ => false
  end.

(** The shape of a master playlist and of the update of a media playlist:
    the playlists are distinct records, none of them the master, the update
    or a segment of the update; the segments of the update are distinct
    records; the [segments] of a playlist, if any, is an array of the store;
    the [key] and [map] of a segment, if any, are objects. *)
Definition ref_okb (w : world) (p : loc) : bool :=
  match field w p "segments" with
  | VUndef => true
  | VArr a => bool_decide (is_Some (arrs w !! a))
  | _ => false
  end.

Definition key_okb (v : val) : bool :=
  match v with VUndef | VObj _ => true | _ => false end.

Definition segment_okb (w : world) (pls : list loc) (s : loc) : bool :=
  bool_decide (s ∉ pls) && key_okb (field w s "key") && key_okb (field w s "map").

Definition refresh_okb (w : world) (lm ld : loc) (pls segs : list loc) : bool :=
  bool_decide (NoDup pls) && bool_decide (NoDup segs)
  && bool_decide (lm ∉ pls) && bool_decide (ld ∉ pls)
  && forallb (ref_okb w) pls && forallb (segment_okb w pls) segs.

(** [w'] differs from [w] in [resolvedUri] properties only. *)
Definition resolved_only (w w' : world) : Prop :=
  arrs w' = arrs w ∧
  ∀ l k, k ≠ "resolvedUri" → obj_at w' l !! k = obj_at w l !! k.

(** What the loop that resolves the segments of [result.playlists[i]] reads:
    the playlist [p] at index [i], its segments [segs] in the array [r], and
    their [key] and [map]. *)
Definition resolve_ready (w : world) (lm lp : loc) (i : nat) (p r : loc)
    (segs : list loc) : Prop :=
  field w lm "playlists" = VArr lp ∧
  elems (arr_at w lp) !! i = Some (VObj p) ∧
  field w p "segments" = VArr r ∧
  elems (arr_at w r) = VObj <$> segs ∧
  ∀ s, s ∈ segs → key_okb (field w s "key") = true ∧ key_okb (field w s "map") = true.

(** [w'] holds every array of [w], with the same elements, and outside the
    objects [merged] it differs from [w] in [resolvedUri] properties only. *)
Definition agrees_except (merged : list loc) (w w' : world) : Prop :=
  (∀ l a, arrs w !! l = Some a → ∃ a', arrs w' !! l = Some a' ∧ elems a' = elems a) ∧
  (∀ l k, l ∉ merged → k ≠ "resolvedUri" → obj_at w' l !! k = obj_at w l !! k).

(** What one turn of the loop of [updateMaster] does, from [w1] to [w2], at
    the playlist [p].  A turn that merges the update [ld] gives [p] a new
    array with the segments of the update and the properties of the update on
    top of its own, and changes nothing else but [resolvedUri] properties and
    the array [lp] of the playlists; any other turn changes nothing. *)
Definition turn_effect (merges : bool) (w1 w2 : world) (lp ld p : loc)
    (segs : list loc) : Prop :=
  if merges then
    (∃ r, arrs w1 !! r = None ∧ field w2 p "segments" = VArr r ∧
          arrs w2 !! r = Some (Array (VObj <$> segs) ∅)) ∧
    (∀ k, k ≠ "segments" → k ≠ "resolvedUri" →
          obj_at w2 p !! k = (obj_at w1 ld ∪ obj_at w1 p) !! k) ∧
    (∀ l k, l ≠ p → k ≠ "resolvedUri" → obj_at w2 l !! k = obj_at w1 l !! k) ∧
    (∀ l a, l ≠ lp → arrs w1 !! l = Some a → arrs w2 !! l = Some a)
  else w2 = w1.




(** The two values of [error.code]: 4 is the fatal severity, 2 the
    recoverable one. *)
Definition fatal (e : ErrorInfo) : Prop := err_code e = VNum 4.
Definition recoverable (e : ErrorInfo) : Prop := err_code e = VNum 2.

(** A rendition is eligible when its [excludeUntil] is absent or not after the
    current time. *)
Definition eligible (w : world) (p : loc) : bool :=
  match field w p "excludeUntil" with
  | VUndef => true
  | VNum t => (t <=? clock w)%Z
  | _ => false
  end.

(** The bandwidth the selector compares: 0 for a rendition without
    attributes, none for attributes without [BANDWIDTH]. *)
Definition bandwidth_of (w : world) (p : loc) : option Z :=
  match field w p "attributes" with
  | VObj a => match field w a "BANDWIDTH" with VNum b => Some b | _ => None end
  | _ => Some 0%Z
  end.

(** An eligible rendition whose bandwidth is at most [cur]. *)
Definition not_above (w : world) (cur : Z) (p : loc) : bool :=
  eligible w p && match bandwidth_of w p with Some b => (b <=? cur)%Z | None => false end.

Definition lowest_eligible (w : world) (pls : list loc) : bool :=
  match _media (this w) with
  | VObj a =>
      match field w a "attributes" with
      | VObj attrs =>
          let cur := match field w attrs "BANDWIDTH" with VNum b => b | _ => 0%Z end in
          (length (List.filter (not_above w cur) pls) <=? 1)%nat
      | _ => false
      end
  | _ => false
  end.

(** The shape of a rendition: [excludeUntil] a number or absent, [attributes]
    an object or absent, its [BANDWIDTH] a number or absent. *)
Definition rendition_okb (w : world) (p : loc) : bool :=
  match field w p "excludeUntil" with VUndef | VNum _ => true | _ => false end
  && match field w p "attributes" with
     | VUndef => true
     | VObj a => match field w a "BANDWIDTH" with VUndef | VNum _ => true | _ => false end
     | _ => false
     end.

Definition active_okb (w : world) : bool :=
  match _media (this w) with
  | VNull | VUndef => true
  | VObj a => rendition_okb w a
  | _ => false
  end.

(** The timing of a segment: its precise [start] and [end], when it has them,
    and its [duration]. *)
Record timing := { t_start : option Z; t_end : option Z; t_duration : Z }.

Definition num_field (w : world) (l : loc) (k : string) : option Z :=
  match field w l k with VNum n => Some n | _ => None end.

Definition timing_of (w : world) (l : loc) : timing :=
  {| t_start := num_field w l "start";
     t_end := num_field w l "end";
     t_duration := default 0%Z (num_field w l "duration") |}.

(** The target duration used for a missing segment: 10 when the playlist has
    none (or has 0). *)
Definition target_or_default (w : world) (old : loc) : Z :=
  match field w old "targetDuration" with
  | VNum n => if (n =? 0)%Z then 10%Z else n
  | _ => 10%Z
  end.

(** Walk backward from index [n - 1] down to 0 over the old segments: a
    missing segment adds the target duration, a segment with a precise end
    settles the total at that end, one with a precise start at start plus
    duration, and any other segment adds its duration. *)
Fixpoint expired_walk (old : list timing) (td : Z) (n : nat) (acc : Z) : Z :=
  match n with
  | O => acc
  | S i =>
      match old !! i with
      | None => expired_walk old td i (acc + td)
      | Some t =>
          match t_end t with
          | Some e => e
          | None =>
              match t_start t with
              | Some s => (s + t_duration t)%Z
              | None => expired_walk old td i (acc + t_duration t)
              end
          end
      end
  end.

(** The expired time after an accepted update whose first segment, if any, has
    timing [first], from the expired time [acc]. *)
Definition expired_after (first : option timing) (old : list timing) (td : Z)
    (newSeq oldSeq acc : Z) : Z :=
  let walk := expired_walk old td (Z.to_nat (newSeq - oldSeq)) acc in
  match first with
  | Some t =>
      match t_start t with
      | Some s => s
      | None =>
          match t_end t with
          | Some e => (e - t_duration t)%Z
          | None => walk
          end
      end
  | None => walk
  end.

(** The shape of a segment for the tracker: [start] and [end] numbers or
    absent, [duration] a number. *)
Definition timing_okb (w : world) (l : loc) : bool :=
  match field w l "start" with VUndef | VNum _ => true | _ => false end
  && match field w l "end" with VUndef | VNum _ => true | _ => false end
  && match field w l "duration" with VNum _ => true | _ => false end.

(** The test of [enabledPlaylists]: [excludeUntil] is falsy or not after the
    current time. *)
Definition enabled (w : world) (p : loc) : bool :=
  negb (truthy (field w p "excludeUntil"))
  || match field w p "excludeUntil" with VNum t => (t <=? clock w)%Z | _ => false end.

(** [excludeUntil] is a number or a falsy value. *)
Definition exclusion_okb (w : world) (p : loc) : bool :=
  negb (truthy (field w p "excludeUntil"))
  || match field w p "excludeUntil" with VNum _ => true | _ => false end.

(** A reference held by the loader ([_media], [_xhr]): an object, or none. *)
Definition ref_or_none (v : val) : bool :=
  match v with VNull | VUndef | VObj _ => true | _ => false end.

(** Whether a switch to the uri [pu] changes the active playlist:
    [!this._media || playlist.uri !== this._media.uri]. *)
Definition media_change (w : world) (pu : string) : bool :=
  match _media (this w) with
  | VObj a => negb (strict_eq (VStr pu) (field w a "uri"))
  | _ => true
  end.

(** The [resolvedUri] of the object [o] after lazy resolution against [base]:
    the one it has, when it has one, and else its [uri] resolved against
    [base]. *)
Definition resolved_against (resolveURL : val → val → val) (base : val) (w : world)
    (o : loc) : val :=
  if truthy (field w o "resolvedUri") then field w o "resolvedUri"
  else resolveURL base (field w o "uri").

(** [w'] differs from [w] in [resolvedUri] properties only, each of them
    either kept or resolved against [base]. *)
Definition resolved_from (resolveURL : val → val → val) (base : val) (w w' : world) : Prop :=
  arrs w' = arrs w ∧
  (∀ l k, k ≠ "resolvedUri" → obj_at w' l !! k = obj_at w l !! k) ∧
  (∀ l, field w' l "resolvedUri" = field w l "resolvedUri" ∨
        field w' l "resolvedUri" = resolved_against resolveURL base w l).

(** The store and the loader once [updateMaster] has overlaid the update
    [ld] on the playlist [p] of the master, registered [p] under the uri [u]
    and replaced the segments of [p] by the new array [r], before any uri is
    resolved. *)
Definition overlaid (w : world) (lp ld p : loc) (pls segs : list loc) (u : string)
    (r : loc) (w6 : world) : Prop :=
  arrs w !! r = None ∧
  arrs w6 = <[r := Array (VObj <$> segs) ∅]>
              (<[lp := Array (VObj <$> pls) (<[u := VObj p]> (keyed (arr_at w lp)))]>
                 (arrs w)) ∧
  (∀ l, obj_at w6 l = if decide (l = p)
                      then <["segments" := VArr r]> (obj_at w ld ∪ obj_at w p)
                      else obj_at w l) ∧
  this w6 = this w ∧ timers w6 = timers w ∧ clock w6 = clock w ∧ trace w6 = trace w.

(** A computation that acts on the store of objects and arrays only: it
    leaves the loader, the timers, the clock and the trace of effects as they
    are, whether it returns or throws. *)
Definition keeps_host {A} (m : M A) : Prop :=
  ∀ w, this (snd (m w)) = this w ∧ timers (snd (m w)) = timers w ∧
       clock (snd (m w)) = clock w ∧ trace (snd (m w)) = trace w.

(** The loader holds the handle of every pending timer: at most one timer is
    pending, the one of [mediaUpdateTimeout]. *)
Definition one_timer (w : world) : Prop :=
  ∀ id d, timers w !! id = Some d → mediaUpdateTimeout (this w) = VNum id.

(** A computation that leaves the pending timers and the handle held by the
    loader as they are, and one that keeps [one_timer]. *)
Definition keeps_timers {A} (m : M A) : Prop :=
  ∀ w, timers (snd (m w)) = timers w ∧
       mediaUpdateTimeout (this (snd (m w))) = mediaUpdateTimeout (this w).

Definition keeps_one_timer {A} (m : M A) : Prop :=
  ∀ w, one_timer w → one_timer (snd (m w)).

(** A computation that leaves the state of the loader as it is or moves it
    to one of the states [S], whether it returns or throws. *)
Definition moves_to (S : list LoaderState) {A} (m : M A) : Prop :=
  ∀ w, state (this (snd (m w))) = state (this w) ∨ state (this (snd (m w))) ∈ S.

(** The world at the time [t]. *)
Definition at_time (t : Z) (w : world) : world :=
  World (objs w) (arrs w) (this w) (timers w) t (trace w).

(** ** Stores used in examples *)

(** The loader as its constructor leaves it. *)
Definition constructed : Loader :=
  {| state := HAVE_NOTHING; _media := VNull; _xhr := VNull; master := VUndef;
     bandwidth := VNull; refreshDelay := VNull; targetDuration := VUndef;
     mediaUpdateTimeout := VNull; expired_ := VNum 0; trackExpiredTime_ := VUndef;
     error := None |}.

Definition object (fields : list (string * val)) : gmap string val := list_to_map fields.

Definition store (os : list (loc * gmap string val)) (as_ : list (loc * array))
    (L : Loader) (now : Z) : world :=
  World (list_to_map os) (list_to_map as_) L ∅ now [].

(** A stand-in for [resolveURL] in examples. *)
Definition join_url (base rel : val) : val :=
  match base, rel with
  | VStr b, VStr r => VStr (b +:+ "/" +:+ r)
  | _, _ => VUndef
  end.

(** The parser of [m3u8-parser] holds what it parsed in its [manifest]
    property: [parsed manifest] is a parser whose result is the object
    [manifest] of the store. *)
Definition parsed (manifest : loc) (text : val) : M val :=
  new_object {["manifest" := VObj manifest]}.

(** A parser that would answer to the misspelt name [mainfest] as well. *)
Definition parsed_under_both_names (manifest : loc) (text : val) : M val :=
  new_object (<["mainfest" := VObj manifest]> {["manifest" := VObj manifest]}).

(** Five retained segments of an old snapshot (array 1) and two segments of a
    new one (array 2). *)
Definition segments_store : world :=
  store
    [(1%positive, object [("uri", VStr "s10.ts"); ("duration", VNum 4)]);
     (2%positive, object [("uri", VStr "s11.ts"); ("duration", VNum 4)]);
     (3%positive, object [("uri", VStr "s12.ts"); ("duration", VNum 4)]);
     (4%positive, object [("uri", VStr "s13.ts"); ("duration", VNum 5);
                          ("resolvedUri", VStr "http://h/s13.ts"); ("end", VNum 17)]);
     (5%positive, object [("uri", VStr "s14.ts"); ("duration", VNum 4)]);
     (6%positive, object [("uri", VStr "s13.ts"); ("duration", VNum 4)]);
     (7%positive, object [("uri", VStr "s14.ts"); ("duration", VNum 4)])]
    [(1%positive, Array [VObj 1; VObj 2; VObj 3; VObj 4; VObj 5]%positive ∅);
     (2%positive, Array [VObj 6; VObj 7]%positive ∅)]
    constructed 0.

(** A live refresh: the rendition [a.m3u8] was loaded at sequence 10 with the
    segments 10, 11 and 12, of which segment 11 has its resolved uri and its
    timing established; object 6 is the refreshed playlist, at sequence 11,
    with the segments 11, 12 and 13 as the parser yields them. *)
Definition refresh_store : world :=
  store
    [(1%positive, object [("uri", VStr "http://h"); ("playlists", VArr 1)]);
     (2%positive, object [("uri", VStr "a.m3u8"); ("resolvedUri", VStr "http://h/a");
                          ("mediaSequence", VNum 10); ("targetDuration", VNum 4);
                          ("segments", VArr 2)]);
     (3%positive, object [("uri", VStr "s10.ts"); ("duration", VNum 4)]);
     (4%positive, object [("uri", VStr "s11.ts"); ("duration", VNum 4);
                          ("resolvedUri", VStr "http://cdn/s11.ts");
                          ("start", VNum 4); ("end", VNum 8)]);
     (5%positive, object [("uri", VStr "s12.ts"); ("duration", VNum 4)]);
     (6%positive, object [("uri", VStr "a.m3u8"); ("mediaSequence", VNum 11);
                          ("targetDuration", VNum 4); ("segments", VArr 3)]);
     (7%positive, object [("uri", VStr "s11.ts"); ("duration", VNum 4)]);
     (8%positive, object [("uri", VStr "s12.ts"); ("duration", VNum 4)]);
     (9%positive, object [("uri", VStr "s13.ts"); ("duration", VNum 4)])]
    [(1%positive, Array [VObj 2] (object [("a.m3u8", VObj 2)]));
     (2%positive, Array [VObj 3; VObj 4; VObj 5] ∅);
     (3%positive, Array [VObj 7; VObj 8; VObj 9] ∅)]
    {| state := HAVE_METADATA; _media := VObj 2; _xhr := VNull; master := VObj 1;
       bandwidth := VNull; refreshDelay := VNum 4000; targetDuration := VNum 4;
       mediaUpdateTimeout := VNull; expired_ := VNum 20; trackExpiredTime_ := VBool true;
       error := None |}
    0.

(** The old snapshot of [a.m3u8] is active, at sequence 10 with three
    segments of duration 4; 20 seconds have expired so far; object 6 is the
    new snapshot, at sequence 12. *)
Definition window_store : world :=
  store
    [(1%positive, object [("uri", VStr "http://h"); ("playlists", VArr 1)]);
     (2%positive, object [("uri", VStr "a.m3u8"); ("mediaSequence", VNum 10);
                          ("targetDuration", VNum 4); ("segments", VArr 2)]);
     (3%positive, object [("uri", VStr "s10.ts"); ("duration", VNum 4)]);
     (4%positive, object [("uri", VStr "s11.ts"); ("duration", VNum 4)]);
     (5%positive, object [("uri", VStr "s12.ts"); ("duration", VNum 4)]);
     (6%positive, object [("uri", VStr "a.m3u8"); ("mediaSequence", VNum 12);
                          ("targetDuration", VNum 4); ("segments", VArr 3)]);
     (7%positive, object [("uri", VStr "s12.ts"); ("duration", VNum 4)]);
     (8%positive, object [("uri", VStr "s13.ts"); ("duration", VNum 4)]);
     (9%positive, object [("uri", VStr "s14.ts"); ("duration", VNum 4)])]
    [(1%positive, Array [VObj 2] (object [("a.m3u8", VObj 2)]));
     (2%positive, Array [VObj 3; VObj 4; VObj 5] ∅);
     (3%positive, Array [VObj 7; VObj 8; VObj 9] ∅)]
    {| state := HAVE_METADATA; _media := VObj 2; _xhr := VNull; master := VObj 1;
       bandwidth := VNull; refreshDelay := VNum 4000; targetDuration := VNum 4;
       mediaUpdateTimeout := VNull; expired_ := VNum 20; trackExpiredTime_ := VBool true;
       error := None |}
    0.

(** The live rendition [a.m3u8] is active, at sequence 5, target duration 6,
    with three segments; expired time is tracked and stands at 30 seconds; the
    last refresh was a no-op, which left the delay at 3000 ms.  Object 6 is a refreshed playlist at sequence 6, object 11 one
    that is still at sequence 5 with three segments, object 10 the response
    that carried it. *)
Definition response_store : world :=
  store
    [(1%positive, object [("uri", VStr "http://h"); ("playlists", VArr 1)]);
     (2%positive, object [("uri", VStr "a.m3u8"); ("resolvedUri", VStr "http://h/a");
                          ("mediaSequence", VNum 5); ("targetDuration", VNum 6);
                          ("segments", VArr 2)]);
     (3%positive, object [("uri", VStr "s5.ts"); ("duration", VNum 6)]);
     (4%positive, object [("uri", VStr "s6.ts"); ("duration", VNum 6)]);
     (5%positive, object [("uri", VStr "s7.ts"); ("duration", VNum 6)]);
     (6%positive, object [("mediaSequence", VNum 6); ("targetDuration", VNum 6);
                          ("segments", VArr 3)]);
     (7%positive, object [("uri", VStr "s6.ts"); ("duration", VNum 6)]);
     (8%positive, object [("uri", VStr "s7.ts"); ("duration", VNum 6)]);
     (9%positive, object [("uri", VStr "s8.ts"); ("duration", VNum 6)]);
     (10%positive, object [("responseText", VStr "#EXTM3U"); ("bandwidth", VNum 5000000)]);
     (11%positive, object [("mediaSequence", VNum 5); ("targetDuration", VNum 6);
                           ("segments", VArr 4)]);
     (12%positive, object [("uri", VStr "s5.ts"); ("duration", VNum 6)]);
     (13%positive, object [("uri", VStr "s6.ts"); ("duration", VNum 6)]);
     (14%positive, object [("uri", VStr "s7.ts"); ("duration", VNum 6)])]
    [(1%positive, Array [VObj 2] (object [("a.m3u8", VObj 2)]));
     (2%positive, Array [VObj 3; VObj 4; VObj 5] ∅);
     (3%positive, Array [VObj 7; VObj 8; VObj 9] ∅);
     (4%positive, Array [VObj 12; VObj 13; VObj 14] ∅)]
    {| state := HAVE_METADATA; _media := VObj 2; _xhr := VObj 10; master := VObj 1;
       bandwidth := VNull; refreshDelay := VNum 3000; targetDuration := VNum 6;
       mediaUpdateTimeout := VNull; expired_ := VNum 30; trackExpiredTime_ := VBool true;
       error := None |}
    0.


(** A master playlist with one rendition and a request for it that failed
    below HTTP, without any status. *)
Definition failed_store : world :=
  store
    [(1%positive, object [("uri", VStr "master.m3u8"); ("playlists", VArr 1)]);
     (2%positive, object [("uri", VStr "a.m3u8")]);
     (3%positive, object [("url", VStr "a.m3u8"); ("responseText", VStr "")])]
    [(1%positive, Array [VObj 2] (object [("a.m3u8", VObj 2)]))]
    {| state := SWITCHING_MEDIA; _media := VNull; _xhr := VObj 3; master := VObj 1;
       bandwidth := VNull; refreshDelay := VNull; targetDuration := VUndef;
       mediaUpdateTimeout := VNull; expired_ := VNum 0; trackExpiredTime_ := VUndef;
       error := None |}
    0.

(** Rendition [a.m3u8] is complete ([endList]) and active; a switch to
    [b.m3u8] is under way, its request (object 4) outstanding. *)
Definition switching_store : world :=
  store
    [(1%positive, object [("uri", VStr "http://h"); ("playlists", VArr 1)]);
     (2%positive, object [("uri", VStr "a.m3u8"); ("endList", VBool true);
                          ("segments", VArr 2)]);
     (3%positive, object [("uri", VStr "b.m3u8")]);
     (4%positive, object [("url", VStr "http://h/b.m3u8")])]
    [(1%positive, Array [VObj 2; VObj 3]
                    (object [("a.m3u8", VObj 2); ("b.m3u8", VObj 3)]));
     (2%positive, Array [] ∅)]
    {| state := SWITCHING_MEDIA; _media := VObj 2; _xhr := VObj 4; master := VObj 1;
       bandwidth := VNull; refreshDelay := VNull; targetDuration := VUndef;
       mediaUpdateTimeout := VNull; expired_ := VNum 0; trackExpiredTime_ := VUndef;
       error := None |}
    0.

(** The same loader, settled on the live rendition [b.m3u8]. *)
Definition live_store : world :=
  store
    [(1%positive, object [("uri", VStr "http://h"); ("playlists", VArr 1)]);
     (2%positive, object [("uri", VStr "a.m3u8"); ("endList", VBool true);
                          ("segments", VArr 2)]);
     (3%positive, object [("uri", VStr "b.m3u8"); ("segments", VArr 2)])]
    [(1%positive, Array [VObj 2; VObj 3]
                    (object [("a.m3u8", VObj 2); ("b.m3u8", VObj 3)]));
     (2%positive, Array [] ∅)]
    {| state := HAVE_METADATA; _media := VObj 3; _xhr := VNull; master := VObj 1;
       bandwidth := VNull; refreshDelay := VNull; targetDuration := VUndef;
       mediaUpdateTimeout := VNull; expired_ := VNum 0; trackExpiredTime_ := VUndef;
       error := None |}
    0.

(** Renditions of 500k (excluded until time 2000), 800k, 800k and 1200k, at
    time 1000, with the first 800k rendition active. *)
Definition renditions_store : world :=
  store
    [(1%positive, object [("uri", VStr "http://h"); ("playlists", VArr 1)]);
     (2%positive, object [("uri", VStr "r500.m3u8"); ("excludeUntil", VNum 2000);
                          ("attributes", VObj 6)]);
     (3%positive, object [("uri", VStr "r800a.m3u8"); ("attributes", VObj 7)]);
     (4%positive, object [("uri", VStr "r800b.m3u8"); ("attributes", VObj 8)]);
     (5%positive, object [("uri", VStr "r1200.m3u8"); ("attributes", VObj 9)]);
     (6%positive, object [("BANDWIDTH", VNum 500000)]);
     (7%positive, object [("BANDWIDTH", VNum 800000)]);
     (8%positive, object [("BANDWIDTH", VNum 800000)]);
     (9%positive, object [("BANDWIDTH", VNum 1200000)])]
    [(1%positive, Array [VObj 2; VObj 3; VObj 4; VObj 5] ∅)]
    {| state := HAVE_METADATA; _media := VObj 3; _xhr := VNull; master := VObj 1;
       bandwidth := VNull; refreshDelay := VNull; targetDuration := VUndef;
       mediaUpdateTimeout := VNull; expired_ := VNum 0; trackExpiredTime_ := VUndef;
       error := None |}
    1000.

(** A single active rendition whose attributes carry no [BANDWIDTH]. *)
Definition unrated_store : world :=
  store
    [(1%positive, object [("uri", VStr "http://h"); ("playlists", VArr 1)]);
     (2%positive, object [("uri", VStr "only.m3u8"); ("attributes", VObj 3)]);
     (3%positive, object [("CODECS", VStr "avc1")])]
    [(1%positive, Array [VObj 2] ∅)]
    {| state := HAVE_METADATA; _media := VObj 2; _xhr := VNull; master := VObj 1;
       bandwidth := VNull; refreshDelay := VNull; targetDuration := VUndef;
       mediaUpdateTimeout := VNull; expired_ := VNum 0; trackExpiredTime_ := VUndef;
       error := None |}
    1000.

(** The store of [response_store] once the refreshed playlist that changes
    nothing (object 11) has been given the uri it was requested under. *)
Definition stale_store : world :=
  set_objs <[11%positive := <["uri" := VStr "a.m3u8"]> (obj_at response_store 11)]>
    response_store.

(** The loader of [switching_store] before the switch: settled on the
    complete rendition [a.m3u8], no request outstanding. *)
Definition settled_store : world :=
  set_this (with_xhr VNull) (set_this (with_state HAVE_METADATA) switching_store).

(** The loader of [switching_store] with a refresh timer pending, whose
    handle it holds. *)
Definition waiting_store : world :=
  set_timers <[7%Z := VNum 6000]>
    (set_this (with_mediaUpdateTimeout (VNum 7)) switching_store).

(** * exp-golomb.js: the Exp-Golomb bit reader *)

Module ExpGolomb.

Local Open Scope Z_scope.

(** ** Numbers and the 32-bit operators *)

(** The numbers the reader handles are integers far below 2^53, so they are
    modelled as [Z].  The bit operators of JavaScript convert their operands
    to 32 bits first: [ToInt32] and [ToUint32] are these conversions, and a
    shift count is taken modulo 32. *)
Definition ToUint32 (x : Z) : Z := x mod 2 ^ 32.
Definition ToInt32 (x : Z) : Z :=
  let u := x mod 2 ^ 32 in if u <? 2 ^ 31 then u else u - 2 ^ 32.

(** [x << n], [x >> n], [x >>> n], [x & y] and [x | y]. *)
Definition shl (x n : Z) : Z := ToInt32 (Z.shiftl (ToInt32 x) (ToUint32 n mod 32)).
Definition sar (x n : Z) : Z := Z.shiftr (ToInt32 x) (ToUint32 n mod 32).
Definition shr (x n : Z) : Z := Z.shiftr (ToUint32 x) (ToUint32 n mod 32).
Definition and32 (x y : Z) : Z := ToInt32 (Z.land (ToInt32 x) (ToInt32 y)).
Definition or32 (x y : Z) : Z := ToInt32 (Z.lor (ToInt32 x) (ToInt32 y)).

(** ** Typed arrays *)

(** A [Uint8Array] is a list of bytes. *)
Definition byte_value (b : Byte.byte) : Z := Z.of_N (Byte.to_N b).

(** [a.subarray(begin, end)]: a negative index counts from the end, and both
    are clamped to the array. *)
Definition subarray (a : list Byte.byte) (begin end_ : Z) : list Byte.byte :=
  let len := Z.of_nat (length a) in
  let clamp i := if i <? 0 then Z.max (len + i) 0 else Z.min i len in
  take (Z.to_nat (clamp end_ - clamp begin)) (drop (Z.to_nat (clamp begin)) a).

(** The bytes of a list read as one big-endian number. *)
Definition big_endian (l : list Byte.byte) : Z :=
  fold_left (λ acc b, acc * 256 + byte_value b) l 0.

(** [new DataView(word.buffer).getUint32(0, false)]. *)
Definition getUint32 (word : list Byte.byte) : Z := big_endian (take 4 word).

(** ** The reader and its computations *)

Record reader := Reader {
  TAG : string;
  _buffer : option (list Byte.byte);
  _buffer_index : Z;
  _total_bytes : Z;
  _total_bits : Z;
  _current_word : Z;
  _current_word_bits_left : Z
}.

Definition set_buffer (b : option (list Byte.byte)) (this : reader) : reader :=
  Reader (TAG this) b (_buffer_index this) (_total_bytes this) (_total_bits this)
    (_current_word this) (_current_word_bits_left this).
Definition set_buffer_index (i : Z) (this : reader) : reader :=
  Reader (TAG this) (_buffer this) i (_total_bytes this) (_total_bits this)
    (_current_word this) (_current_word_bits_left this).
Definition set_current_word (x : Z) (this : reader) : reader :=
  Reader (TAG this) (_buffer this) (_buffer_index this) (_total_bytes this)
    (_total_bits this) x (_current_word_bits_left this).
Definition set_bits_left (n : Z) (this : reader) : reader :=
  Reader (TAG this) (_buffer this) (_buffer_index this) (_total_bytes this)
    (_total_bits this) (_current_word this) n.

(** [RangeError] is what [TypedArray.prototype.set] throws on a source that
    does not fit, [TypeError] what a property access on [null] throws. *)
Inductive exception :=
| IllegalStateException (msg : string)
| InvalidArgumentException (msg : string)
| TypeError
| RangeError.

(** [OutOfFuel] is the outcome of a recursion that was cut short; no method of
    the reader has it. *)
Inductive outcome (A : Type) :=
| Ret (a : A)
| Throw (e : exception)
| OutOfFuel.
Arguments Ret {A} a.
Arguments Throw {A} e.
Arguments OutOfFuel {A}.

Definition R (A : Type) : Type := reader → outcome A * reader.

Definition ret {A} (a : A) : R A := λ this, (Ret a, this).
Definition throw {A} (e : exception) : R A := λ this, (Throw e, this).
Definition bind {A B} (m : R A) (k : A → R B) : R B :=
  λ this, match m this with
          | (Ret a, this') => k a this'
          | (Throw e, this') => (Throw e, this')
          | (OutOfFuel, this') => (OutOfFuel, this')
          end.
Definition gets {A} (f : reader → A) : R A := λ this, (Ret (f this), this).
Definition modify (f : reader → reader) : R unit := λ this, (Ret tt, f this).

Declare Scope reader_scope.
Notation "'do' x <- m ; k" := (bind m (λ x, k))
  (at level 10, x name, m at level 100, k at level 200, only parsing) : reader_scope.
Notation "m ;; k" := (bind m (λ _, k))
  (at level 100, k at level 200, right associativity, only parsing) : reader_scope.
Local Open Scope reader_scope.

(** [word.set(source)] on a typed array [word]. *)
Definition typed_set (word source : list Byte.byte) : R (list Byte.byte) :=
  if (length word <? length source)%nat then throw RangeError
  else ret (source ++ drop (length source) word).

(** ** The methods *)

Definition constructor (uint8array : list Byte.byte) : reader :=
  {| TAG := "ExpGolomb";
     _buffer := Some uint8array;
     _buffer_index := 0;
     _total_bytes := Z.of_nat (length uint8array);
     _total_bits := Z.of_nat (length uint8array) * 8;
     _current_word := 0;
     _current_word_bits_left := 0 |}.

Definition destroy : R unit := modify (set_buffer None).

Definition _fillCurrentWord : R unit :=
  do total <- gets _total_bytes;
  do index <- gets _buffer_index;
  let buffer_bytes_left := total - index in
  if buffer_bytes_left <=? 0 then
    throw (IllegalStateException "ExpGolomb: _fillCurrentWord() but no bytes available")
  else
    let bytes_read := Z.min 4 buffer_bytes_left in
    let word := replicate 4 Byte.x00 in
    do buffer <- gets _buffer;
    match buffer with
    | None => throw TypeError
    | Some buffer =>
      do index <- gets _buffer_index;
      do word <- typed_set word (subarray buffer index (index + bytes_read));
      modify (set_current_word (getUint32 word));;
      do index <- gets _buffer_index;
      modify (set_buffer_index (index + bytes_read));;
      modify (set_bits_left (bytes_read * 8))
    end.

Definition skipBits (count : Z) : R unit :=
  do left <- gets _current_word_bits_left;
  if left >? count then
    do word <- gets _current_word;
    modify (set_current_word (shl word count));;
    do left <- gets _current_word_bits_left;
    modify (set_bits_left (left - count))
  else
    do left <- gets _current_word_bits_left;
    let count := count - left in
    let skipBytes := sar count 3 in
    let count := count - sar skipBytes 3 in
    do index <- gets _buffer_index;
    modify (set_buffer_index (index + skipBytes));;
    _fillCurrentWord;;
    do word <- gets _current_word;
    modify (set_current_word (shl word count));;
    do left <- gets _current_word_bits_left;
    modify (set_bits_left (left - count)).

Definition readBits (bits : Z) : R Z :=
  if bits >? 32 then
    throw (InvalidArgumentException "ExpGolomb: readBits() bits exceeded max 32bits!")
  else
    do left <- gets _current_word_bits_left;
    if bits <=? left then
      do word <- gets _current_word;
      let result := shr word (32 - bits) in
      modify (set_current_word (shl word bits));;
      do left <- gets _current_word_bits_left;
      modify (set_bits_left (left - bits));;
      ret result
    else
      do left <- gets _current_word_bits_left;
      do word <- gets _current_word;
      let result := if left =? 0 then 0 else word in
      let result := shr result (32 - left) in
      let bits_need_left := bits - left in
      _fillCurrentWord;;
      do left <- gets _current_word_bits_left;
      let bits_read_next := Z.min bits_need_left left in
      do word <- gets _current_word;
      let result2 := shr word (32 - bits_read_next) in
      modify (set_current_word (shl word bits_read_next));;
      do left <- gets _current_word_bits_left;
      modify (set_bits_left (left - bits_read_next));;
      let result := or32 (shl result bits_read_next) result2 in
      ret result.

Definition readBool : R bool := do b <- readBits 1; ret (b =? 1).
Definition readByte : R Z := readBits 8.
Definition readShort : R Z := readBits 16.
Definition readInt : R Z := readBits 32.

(** The [for] loop of [_skipLeadingZero] over the current word, [n]
    iterations from [zero_count] on: [inl] is the count at which the loop
    found a set bit, [inr] the count after the last iteration. *)
Fixpoint leading_zero_loop (n : nat) (zero_count word : Z) : Z + Z :=
  match n with
  | O => inr zero_count
  | S n =>
    if negb (and32 word (shr 2147483648 zero_count) =? 0) then inl zero_count
    else leading_zero_loop n (zero_count + 1) word
  end.

(** [_skipLeadingZero] calls itself after every refill of the word;
    [fuel] bounds the depth of these calls. *)
Fixpoint skipLeadingZero_rec (fuel : nat) : R Z :=
  match fuel with
  | O => λ this, (OutOfFuel, this)
  | S fuel =>
    do left <- gets _current_word_bits_left;
    do word <- gets _current_word;
    match leading_zero_loop (Z.to_nat left) 0 word with
    | inl zero_count =>
      modify (set_current_word (shl word zero_count));;
      do left <- gets _current_word_bits_left;
      modify (set_bits_left (left - zero_count));;
      ret zero_count
    | inr zero_count =>
      _fillCurrentWord;;
      do rest <- skipLeadingZero_rec fuel;
      ret (zero_count + rest)
    end
  end.

(** A refill takes at least one byte, so the calls are at most one more than
    the bytes that remain. *)
Definition _skipLeadingZero : R Z :=
  do total <- gets _total_bytes;
  do index <- gets _buffer_index;
  skipLeadingZero_rec (S (Z.to_nat (total - index))).

Definition skipUEG : R unit := do zeros <- _skipLeadingZero; skipBits (1 + zeros).
Definition skipEG : R unit := do zeros <- _skipLeadingZero; skipBits (1 + zeros).

Definition readUEG : R Z :=
  do leading_zeros <- _skipLeadingZero;
  do bits <- readBits (leading_zeros + 1);
  ret (bits - 1).

(** [-1 * 0] is the negative zero, which [Z] does not tell from zero. *)
Definition readSEG : R Z :=
  do value <- readUEG;
  if negb (and32 value 1 =? 0) then ret (shr (value + 1) 1)
  else ret (-1 * shr value 1).

Definition readEG : R Z :=
  do valu <- readUEG;
  if negb (and32 1 valu =? 0) then ret (shr (1 + valu) 1)
  else ret (-1 * shr valu 1).

(** ** The stream the reader stands for *)

(** The [n] bits of the buffer from bit [pos] on, most significant first, as
    a number. *)
Definition bits_at (buf : list Byte.byte) (pos n : Z) : Z :=
  (big_endian buf / 2 ^ (8 * Z.of_nat (length buf) - pos - n)) mod 2 ^ n.

(** The bit of the buffer the reader stands at: the bytes taken from the
    buffer less the bits still in the word. *)
Definition position (this : reader) : Z :=
  8 * _buffer_index this - _current_word_bits_left this.

(** A reader in step with the buffer [buf]: the bits left in the word are
    the bits of [buf] from [position] on, at the top of the word, with zeros
    below them. *)
Definition synced (buf : list Byte.byte) (this : reader) : Prop :=
  _buffer this = Some buf ∧
  _total_bytes this = Z.of_nat (length buf) ∧
  0 ≤ _buffer_index this ≤ _total_bytes this ∧
  0 ≤ _current_word_bits_left this ≤ 32 ∧
  0 ≤ position this ∧
  (0 < _current_word_bits_left this →
   ToUint32 (_current_word this)
   = bits_at buf (position this) (_current_word_bits_left this)
     * 2 ^ (32 - _current_word_bits_left this)).

(** ** Buffers and readers used in examples *)

(** The bits 0100 0111 0100 0000 0000 1111 1111 1111 1000 0000 0000 0001. *)
Definition sample : list Byte.byte :=
  [Byte.x47; Byte.x40; Byte.x0f; Byte.xff; Byte.x80; Byte.x01].

(** 39 zero bits before the first set bit. *)
Definition late_one : list Byte.byte :=
  [Byte.x00; Byte.x00; Byte.x00; Byte.x00; Byte.x01; Byte.x23].

Definition all_zero : list Byte.byte := replicate 6 Byte.x00.

(** The reader of [sample] after its first word has been read: two bytes
    are left in the buffer and none in the word. *)
Definition second_word : reader := snd (readBits 32 (constructor sample)).

End ExpGolomb.

(** * Properties *)

(** ** The store *)

Lemma obj_at_insert w l l' o :
  obj_at (set_objs <[l := o]> w) l' = if decide (l = l') then o else obj_at w l'.
Proof.
  unfold obj_at, set_objs; simpl. rewrite lookup_insert. by case_decide.
Qed.

Lemma arr_at_insert w l l' a :
  arr_at (set_arrs <[l := a]> w) l' = if decide (l = l') then a else arr_at w l'.
Proof.
  unfold arr_at, set_arrs; simpl. rewrite lookup_insert. by case_decide.
Qed.

Lemma obj_at_set_arrs w f l : obj_at (set_arrs f w) l = obj_at w l.
Proof. done. Qed.

Lemma arr_at_set_objs w f l : arr_at (set_objs f w) l = arr_at w l.
Proof. done. Qed.

Lemma obj_at_set_this w f l : obj_at (set_this f w) l = obj_at w l.
Proof. done. Qed.

Lemma arr_at_set_this w f l : arr_at (set_this f w) l = arr_at w l.
Proof. done. Qed.

Lemma obj_at_set_timers w f l : obj_at (set_timers f w) l = obj_at w l.
Proof. done. Qed.

Lemma arr_at_set_timers w f l : arr_at (set_timers f w) l = arr_at w l.
Proof. done. Qed.

Lemma obj_at_emit w e l : obj_at (emit e w) l = obj_at w l.
Proof. done. Qed.

Lemma arr_at_emit w e l : arr_at (emit e w) l = arr_at w l.
Proof. done. Qed.

Lemma this_set_objs w f : this (set_objs f w) = this w.
Proof. done. Qed.

Lemma this_set_arrs w f : this (set_arrs f w) = this w.
Proof. done. Qed.

Lemma this_set_this w f : this (set_this f w) = f (this w).
Proof. done. Qed.

Lemma this_set_timers w f : this (set_timers f w) = this w.
Proof. done. Qed.

Lemma this_emit w e : this (emit e w) = this w.
Proof. done. Qed.

Lemma field_set_this w f l k : field (set_this f w) l k = field w l k.
Proof. done. Qed.

Lemma field_set_arrs w f l k : field (set_arrs f w) l k = field w l k.
Proof. done. Qed.

Lemma field_set_timers w f l k : field (set_timers f w) l k = field w l k.
Proof. done. Qed.

Lemma field_emit w e l k : field (emit e w) l k = field w l k.
Proof. done. Qed.

Create Rewrite HintDb store.
#[export] Hint Rewrite obj_at_set_arrs arr_at_set_objs obj_at_set_this arr_at_set_this
  obj_at_set_timers arr_at_set_timers obj_at_emit arr_at_emit
  this_set_objs this_set_arrs this_set_this this_set_timers this_emit
  field_set_this field_set_arrs field_set_timers field_emit : store.

Lemma arr_at_Some w l a : arrs w !! l = Some a → arr_at w l = a.
Proof. unfold arr_at. by intros ->. Qed.

Lemma fresh_arr w l a : arrs w !! l = Some a → fresh (dom (arrs w)) ≠ l.
Proof.
  intros H E. apply (is_fresh (dom (arrs w))). rewrite E.
  apply elem_of_dom. eauto.
Qed.

Lemma fresh_arr_None w : arrs w !! fresh (dom (arrs w)) = None.
Proof. apply not_elem_of_dom, is_fresh. Qed.

(** ** Running computations *)

Lemma bind_Ret {A B} (m : M A) (k : A → M B) w a w' :
  m w = (Ret a, w') → bind m k w = k a w'.
Proof. unfold bind. by intros ->. Qed.

Lemma bind_assoc {A B C} (m : M A) (f : A → M B) (g : B → M C) w :
  bind (bind m f) g w = bind m (λ x, bind (f x) g) w.
Proof. unfold bind. by destruct (m w) as [[a|e] w']. Qed.

Lemma bind_ret_l {A B} (a : A) (k : A → M B) w : bind (ret a) k w = k a w.
Proof. done. Qed.

Lemma bind_gets {A B} (f : world → A) (k : A → M B) w : bind (gets f) k w = k (f w) w.
Proof. done. Qed.

Lemma bind_modify {B} (f : world → world) (k : unit → M B) w :
  bind (modify f) k w = k tt (f w).
Proof. done. Qed.

Lemma bind_get_obj {B} l key (k : val → M B) w :
  bind (get (VObj l) key) k w = k (field w l key) w.
Proof. done. Qed.

Lemma get_obj w l k : get (VObj l) k w = (Ret (field w l k), w).
Proof. done. Qed.

Lemma bind_arith_num {B} f a b (k : val → M B) w :
  bind (arith f (VNum a) (VNum b)) k w = k (VNum (f a b)) w.
Proof. done. Qed.

Lemma bind_to_number_num {B} a (k : option Z → M B) w :
  bind (to_number (VNum a)) k w = k (Some a) w.
Proof. done. Qed.

(** Runs the reads at the head of a computation. *)
Ltac mrun :=
  repeat first
    [ rewrite bind_assoc | rewrite bind_ret_l | rewrite bind_gets
    | rewrite bind_modify | rewrite bind_get_obj
    | rewrite bind_arith_num | rewrite bind_to_number_num ].

(** Runs the reads at the head of a computation, rewriting with [tac] the
    values they yield. *)
Ltac mrun_using tac := repeat (progress (mrun; autorewrite with store; tac)).

Lemma get_idx_arr w l (i : nat) :
  get_idx (VArr l) (Z.of_nat i) w = (Ret (default VUndef (elems (arr_at w l) !! i)), w).
Proof.
  unfold get_idx, gets. destruct (Z.leb_spec 0 (Z.of_nat i)); [|lia].
  by rewrite Nat2Z.id.
Qed.

Lemma set_idx_arr w l (i : nat) x :
  (i < length (elems (arr_at w l)))%nat →
  set_idx (VArr l) (Z.of_nat i) x w =
    (Ret tt, set_arrs <[l := Array (<[i := x]> (elems (arr_at w l))) (keyed (arr_at w l))]> w).
Proof.
  intros Hi. unfold set_idx, modify.
  destruct (Z.leb_spec 0 (Z.of_nat i)); [|lia].
  rewrite Nat2Z.id. by rewrite decide_True.
Qed.

(** ** [updateSegments] *)

(** One turn of the loop, at index [offset + k], when both elements are
    objects: the original segment receives the fields of the update segment,
    in place, and takes its position in the result. *)
Lemma merge_at_run w lo r (off k : nat) l u :
  elems (arr_at w lo) !! (off + k)%nat = Some (VObj l) →
  elems (arr_at w r) !! k = Some (VObj u) →
  merge_at (VArr lo) (VArr r) (Z.of_nat off) (Z.of_nat off + Z.of_nat k) w =
    (Ret tt,
     set_arrs <[r := Array (<[k := VObj l]> (elems (arr_at w r))) (keyed (arr_at w r))]>
       (set_objs <[l := obj_at w u ∪ obj_at w l]> w)).
Proof.
  intros Ho Hr. unfold merge_at.
  rewrite <- Nat2Z.inj_add.
  erewrite bind_Ret by apply get_idx_arr. rewrite Ho. simpl default.
  replace (Z.of_nat (off + k) - Z.of_nat off)%Z with (Z.of_nat k) by lia.
  erewrite bind_Ret by apply get_idx_arr. rewrite Hr. simpl default.
  erewrite bind_Ret by reflexivity.
  rewrite set_idx_arr; [done|].
  apply lookup_lt_Some in Hr. done.
Qed.

Lemma js_or_num z : js_or (VNum z) (VNum 0) = VNum z.
Proof.
  unfold js_or; simpl. destruct (Z.eqb_spec z 0) as [->|]; done.
Qed.

Lemma merged_upto_arr w os us off k r w' l a :
  merged_upto w os us off k r w' → arrs w !! l = Some a → r ≠ l → arr_at w' l = a.
Proof.
  intros (Ha & _) Hl Hr. unfold arr_at. rewrite Ha, lookup_insert_ne by done.
  by rewrite Hl.
Qed.

Lemma merged_upto_result w os us off k r w' :
  merged_upto w os us off k r w' →
  arr_at w' r = Array (take k (drop off os) ++ drop k us) ∅.
Proof.
  intros (Ha & _). unfold arr_at. by rewrite Ha, lookup_insert_eq.
Qed.

Lemma merge_loop w os us off r lo orig n : ∀ k w',
  arrs w !! lo = Some orig → elems orig = os → r ≠ lo →
  window_ok os us off →
  (k + n ≤ overlap os us off)%nat →
  merged_upto w os us off k r w' →
  ∃ w'', for_up n (Z.of_nat off + Z.of_nat k) (merge_at (VArr lo) (VArr r) (Z.of_nat off)) w'
           = (Ret tt, w'') ∧
         merged_upto w os us off (k + n) r w''.
Proof.
  induction n as [|n IH]; intros k w' Hlo Hos Hr Hwin Hkn Hinv.
  { exists w'. rewrite Nat.add_0_r. done. }
  destruct Hwin as (Hobj_o & Hobj_u & Hnodup & Hsep).
  destruct (Hobj_o k) as [l Hl]; [lia|].
  destruct (Hobj_u k) as [u Hu]; [lia|].
  assert (Hlen_o : (off + k < length os)%nat) by (by apply lookup_lt_Some in Hl).
  assert (Hlen_u : (k < length us)%nat) by (by apply lookup_lt_Some in Hu).
  assert (Htk : length (take k (drop off os)) = k).
  { rewrite length_take, length_drop. lia. }
  assert (Hres : elems (arr_at w' r) !! k = Some (VObj u)).
  { rewrite (merged_upto_result _ _ _ _ _ _ _ Hinv); simpl.
    rewrite lookup_app_r by lia. rewrite Htk, Nat.sub_diag, lookup_drop.
    by rewrite Nat.add_0_r. }
  assert (Horig : elems (arr_at w' lo) !! (off + k)%nat = Some (VObj l)).
  { rewrite (merged_upto_arr _ _ _ _ _ _ _ _ _ Hinv Hlo Hr). by rewrite Hos. }
  simpl. erewrite bind_Ret by (by apply merge_at_run).
  replace (Z.of_nat off + Z.of_nat k + 1)%Z with (Z.of_nat off + Z.of_nat (S k))%Z by lia.
  replace (k + S n)%nat with (S k + n)%nat by lia.
  apply IH; try done; [lia|].
  destruct Hinv as (Ha & Hin & Hout & Hthis & Htm & Hck & Htr).
  assert (Hu_old : obj_at w' u = obj_at w u).
  { apply Hout. intros i Hi Hi'. pose proof (Hsep i k u ltac:(lia) Hi' Hu). lia. }
  assert (Hl_old : obj_at w' l = obj_at w l).
  { apply Hout. intros i Hi Hi'. pose proof (Hnodup i k l ltac:(lia) ltac:(lia) Hi' Hl). lia. }
  split; [|split; [|split]].
  - simpl. rewrite Ha, insert_insert_eq. f_equal.
    rewrite (merged_upto_result w os us off k r w') by (by repeat split).
    simpl. f_equal. rewrite insert_app_r_alt by lia. rewrite Htk, Nat.sub_diag.
    rewrite (drop_S us (VObj u) k Hu). simpl.
    rewrite (take_S_r (drop off os) k (VObj l)) by (by rewrite lookup_drop).
    by rewrite <- app_assoc.
  - intros i l' u' Hi Hl' Hu'.
    rewrite obj_at_set_arrs, obj_at_insert. case_decide as E.
    + subst l'. assert (i = k) by (apply (Hnodup i k l); [lia|lia|done|done]).
      subst i. rewrite Hu in Hu'. injection Hu' as ->. by rewrite Hu_old, Hl_old.
    + apply (Hin i); try done.
      destruct (decide (i = k)) as [->|]; [|lia]. congruence.
  - intros l' Hl'. rewrite obj_at_set_arrs, obj_at_insert. case_decide as E.
    + subst l'. exfalso. apply (Hl' k); [lia|done].
    + apply Hout. intros i Hi. apply Hl'. lia.
  - done.
Qed.

Lemma get_length_arr w l :
  get (VArr l) "length" w = (Ret (VNum (Z.of_nat (length (elems (arr_at w l))))), w).
Proof. done. Qed.

(** A run of [updateSegments] on two arrays of the store. *)
Lemma updateSegments_run w lo lu orig upd (off : nat) :
  arrs w !! lo = Some orig → arrs w !! lu = Some upd →
  window_ok (elems orig) (elems upd) off →
  ∃ w', updateSegments (VArr lo) (VArr lu) (VNum (Z.of_nat off)) w
          = (Ret (VArr (fresh (dom (arrs w)))), w') ∧
        merged_upto w (elems orig) (elems upd) off
          (overlap (elems orig) (elems upd) off) (fresh (dom (arrs w))) w'.
Proof.
  intros Hlo Hlu Hwin.
  set (r := fresh (dom (arrs w))).
  assert (Hrlo : r ≠ lo) by (by eapply fresh_arr).
  assert (Hrlu : r ≠ lu) by (by eapply fresh_arr).
  set (w1 := set_arrs <[r := Array (elems upd) ∅]> w).
  assert (H0 : merged_upto w (elems orig) (elems upd) off 0 r w1).
  { split; [done|]. split; [intros; lia|]. done. }
  destruct (merge_loop w (elems orig) (elems upd) off r lo orig
              (overlap (elems orig) (elems upd) off) 0 w1) as (w' & Hrun & Hinv);
    try done.
  exists w'. split; [|done].
  unfold updateSegments.
  erewrite bind_Ret; [|unfold slice; rewrite (arr_at_Some _ _ _ Hlu); reflexivity].
  fold r w1. rewrite js_or_num.
  erewrite bind_Ret by apply get_length_arr.
  erewrite bind_Ret by apply get_length_arr.
  rewrite (merged_upto_arr _ _ _ _ _ _ _ _ _ H0 Hlo Hrlo).
  rewrite (merged_upto_arr _ _ _ _ _ _ _ _ _ H0 Hlu Hrlu).
  cbv [js_add Math_min arith bind to_number ret of_number].
  replace (Z.to_nat _) with (overlap (elems orig) (elems upd) off)
    by (unfold overlap; lia).
  rewrite Z.add_0_r in Hrun. by rewrite Hrun.
Qed.

Lemma window_okb_spec os us off : window_okb os us off = true → window_ok os us off.
Proof.
  unfold window_okb. rewrite forallb_forall. intros H.
  assert (Hi : ∀ i, (i < overlap os us off)%nat →
     ∃ l u, os !! (off + i)%nat = Some (VObj l) ∧ us !! i = Some (VObj u) ∧
       (∀ i', (i' < overlap os us off)%nat → os !! (off + i')%nat = Some (VObj l) → i = i') ∧
       (∀ j, us !! j = Some (VObj l) → j = i)).
  { intros i Hlt. specialize (H i). rewrite in_seq in H. specialize (H ltac:(lia)).
    destruct (os !! (off + i)%nat) as [[| | | | | |l|]|]; try done.
    destruct (us !! i) as [[| | | | | |u|]|]; try done.
    apply andb_true_iff in H as [H1 H2]. rewrite forallb_forall in H1, H2.
    exists l, u. repeat split; try done.
    - intros i' Hlt' E. specialize (H1 i'). rewrite in_seq in H1.
      specialize (H1 ltac:(lia)). rewrite bool_decide_eq_true_2 in H1 by done.
      simpl in H1. by apply Nat.eqb_eq in H1.
    - intros j E. specialize (H2 j). rewrite in_seq in H2.
      apply lookup_lt_Some in E as Hj. specialize (H2 ltac:(lia)).
      rewrite bool_decide_eq_true_2 in H2 by done. simpl in H2.
      by apply Nat.eqb_eq in H2. }
  repeat split.
  - intros i Hlt. destruct (Hi i Hlt) as (l & _ & ? & _). eauto.
  - intros i Hlt. destruct (Hi i Hlt) as (_ & u & _ & ? & _). eauto.
  - intros i i' l Hlt Hlt' E E'. destruct (Hi i Hlt) as (l' & _ & El & _ & Hn & _).
    rewrite E in El. injection El as <-. by apply Hn.
  - intros i j l Hlt E E'. destruct (Hi i Hlt) as (l' & _ & El & _ & _ & Hs).
    rewrite E in El. injection El as <-. by apply Hs.
Qed.

(** C1. With [0 ≤ offset ≤ len(original)], [updateSegments] returns a new
    array of exactly [len(update)] segments.  At each index [i] of the
    overlap, [offset ≤ i < min(len(original), len(update) + offset)], the
    result at position [i − offset] (the record [original[i]], overlaid in
    place) carries the update's value for every field the update segment sets
    and the original's value for every field the update segment lacks; every
    position past the overlap holds the update segment, unmodified.  Segments
    are taken to be distinct records ([window_okb]). *)
Theorem updateSegments_overlays w lo lu orig upd (offset : Z) :
  arrs w !! lo = Some orig → arrs w !! lu = Some upd →
  (0 ≤ offset ≤ Z.of_nat (length (elems orig)))%Z →
  window_okb (elems orig) (elems upd) (Z.to_nat offset) = true →
  ∃ r w',
    updateSegments (VArr lo) (VArr lu) (VNum offset) w = (Ret (VArr r), w') ∧
    arrs w !! r = None ∧
    length (elems (arr_at w' r)) = length (elems upd) ∧
    (∀ i : nat,
       (offset ≤ Z.of_nat i <
          Z.min (Z.of_nat (length (elems orig))) (Z.of_nat (length (elems upd)) + offset))%Z →
       ∃ o u,
         elems orig !! i = Some (VObj o) ∧
         elems upd !! (i - Z.to_nat offset)%nat = Some (VObj u) ∧
         elems (arr_at w' r) !! (i - Z.to_nat offset)%nat = Some (VObj o) ∧
         (∀ k v, obj_at w u !! k = Some v → obj_at w' o !! k = Some v) ∧
         (∀ k v, obj_at w u !! k = None → obj_at w o !! k = Some v →
                 obj_at w' o !! k = Some v)) ∧
    (∀ j : nat,
       (Z.min (Z.of_nat (length (elems orig))) (Z.of_nat (length (elems upd)) + offset)
          - offset ≤ Z.of_nat j)%Z →
       elems (arr_at w' r) !! j = elems upd !! j ∧
       ∀ u, elems upd !! j = Some (VObj u) → obj_at w' u = obj_at w u).
Proof.
  intros Hlo Hlu Hoff Hwin%window_okb_spec.
  set (off := Z.to_nat offset) in *.
  assert (Eoff : offset = Z.of_nat off) by lia. rewrite Eoff.
  destruct (updateSegments_run w lo lu orig upd off Hlo Hlu Hwin) as (w' & Hrun & Hinv).
  set (os := elems orig) in *. set (us := elems upd) in *.
  set (n := overlap os us off) in *.
  assert (Hn : (n ≤ length us)%nat ∧ (off + n ≤ length os)%nat)
    by (subst n; unfold overlap; lia).
  assert (Htk : length (take n (drop off os)) = n)
    by (rewrite length_take, length_drop; lia).
  pose proof (merged_upto_result _ _ _ _ _ _ _ Hinv) as Hres.
  destruct Hwin as (Hobj_o & Hobj_u & Hnodup & Hsep).
  destruct Hinv as (Ha & Hin & Hout & _).
  exists (fresh (dom (arrs w))), w'. split; [done|].
  split; [apply fresh_arr_None|]. rewrite Hres; simpl.
  split; [rewrite length_app, Htk, length_drop; lia|]. split.
  - intros i Hi.
    assert (Hlt : (i - off < n)%nat) by (subst n; unfold overlap; lia).
    destruct (Hobj_o _ Hlt) as [o Ho]. destruct (Hobj_u _ Hlt) as [u Hu].
    exists o, u. replace (off + (i - off))%nat with i in Ho by lia.
    split; [done|]. split; [done|]. split.
    { rewrite lookup_app_l by lia. rewrite lookup_take_lt by done.
      rewrite lookup_drop. by replace (off + (i - off))%nat with i by lia. }
    rewrite (Hin (i - off)%nat o u Hlt); [|by replace (off + (i - off))%nat with i by lia|done].
    split.
    + intros k v Hk. by apply lookup_union_Some_l.
    + intros k v Hk Hk'. by rewrite lookup_union_r.
  - intros j Hj.
    assert (Hge : (n ≤ j)%nat) by (subst n; unfold overlap; lia).
    split.
    { rewrite lookup_app_r by lia. rewrite Htk, lookup_drop. f_equal. lia. }
    intros u Hu. apply Hout. intros i Hi E.
    pose proof (Hsep i j u Hi E Hu). lia.
Qed.

Lemma updateSegments_overlays_witness :
  ∃ r w',
    updateSegments (VArr 1) (VArr 2) (VNum 3) segments_store = (Ret (VArr r), w') ∧
    length (elems (arr_at w' r)) = 2%nat.
Proof.
  destruct (updateSegments_overlays segments_store 1 2
              (Array [VObj 1; VObj 2; VObj 3; VObj 4; VObj 5]%positive ∅)
              (Array [VObj 6; VObj 7]%positive ∅) 3)
    as (r & w' & Hrun & _ & Hlen & _).
  - reflexivity.
  - reflexivity.
  - simpl. lia.
  - reflexivity.
  - exists r, w'. split; [exact Hrun | exact Hlen].
Defined.

(** C10, as the code has it.  [updateSegments] returns a new array and leaves
    both input arrays and every segment of the update as they were, but it is
    not pure: each original segment of the overlap window is overwritten in
    place with the fields of its update segment.  Every other object of the
    store is left as it was. *)
Theorem updateSegments_frame w lo lu orig upd (off : nat) :
  arrs w !! lo = Some orig → arrs w !! lu = Some upd →
  window_okb (elems orig) (elems upd) off = true →
  ∃ r w',
    updateSegments (VArr lo) (VArr lu) (VNum (Z.of_nat off)) w = (Ret (VArr r), w') ∧
    arrs w !! r = None ∧
    arrs w' !! lo = Some orig ∧ arrs w' !! lu = Some upd ∧
    (∀ j u, elems upd !! j = Some (VObj u) → obj_at w' u = obj_at w u) ∧
    (∀ l, (∀ i, (i < overlap (elems orig) (elems upd) off)%nat →
                elems orig !! (off + i)%nat ≠ Some (VObj l)) →
          obj_at w' l = obj_at w l) ∧
    (∀ i o u, (i < overlap (elems orig) (elems upd) off)%nat →
       elems orig !! (off + i)%nat = Some (VObj o) → elems upd !! i = Some (VObj u) →
       obj_at w' o = obj_at w u ∪ obj_at w o).
Proof.
  intros Hlo Hlu Hwin%window_okb_spec.
  destruct (updateSegments_run w lo lu orig upd off Hlo Hlu Hwin) as (w' & Hrun & Hinv).
  destruct Hwin as (Hobj_o & Hobj_u & Hnodup & Hsep).
  destruct Hinv as (Ha & Hin & Hout & _).
  exists (fresh (dom (arrs w))), w'. split; [done|].
  split; [apply fresh_arr_None|].
  split; [rewrite Ha, lookup_insert_ne; [done | by eapply fresh_arr]|].
  split; [rewrite Ha, lookup_insert_ne; [done | by eapply fresh_arr]|].
  split; [|split; [done|]].
  - intros j u Hu.
    destruct (decide (VObj u ∈ take (overlap (elems orig) (elems upd) off)
                                    (drop off (elems orig)))) as [Y|N].
    + apply list_elem_of_lookup in Y as [i Y].
      apply lookup_take_Some in Y as [E Hi]. rewrite lookup_drop in E.
      pose proof (Hsep i j u Hi E Hu) as ->.
      rewrite (Hin i u u Hi E Hu). apply map_union_idemp.
    + apply Hout. intros i Hi E. apply N.
      apply list_elem_of_lookup. exists i. apply lookup_take_Some.
      by rewrite lookup_drop.
  - intros i o u Hi Ho Hu. by apply (Hin i).
Qed.

Lemma updateSegments_frame_witness :
  ∃ r w',
    updateSegments (VArr 1) (VArr 2) (VNum 3) segments_store = (Ret (VArr r), w') ∧
    obj_at w' 6 = obj_at segments_store 6 ∧
    obj_at w' 4 = obj_at segments_store 6 ∪ obj_at segments_store 4.
Proof.
  destruct (updateSegments_frame segments_store 1 2
              (Array [VObj 1; VObj 2; VObj 3; VObj 4; VObj 5] ∅)
              (Array [VObj 6; VObj 7] ∅) 3)
    as (r & w' & Hrun & _ & _ & _ & Hupd & _ & Hin).
  - reflexivity.
  - reflexivity.
  - reflexivity.
  - exists r, w'. split; [exact Hrun|]. split.
    + apply (Hupd 0%nat). reflexivity.
    + apply (Hin 0%nat); [vm_compute; lia | reflexivity | reflexivity].
Defined.

(** C10 fails as stated: merging with offset 3 changes the [duration] of
    [original[3]] from 5 to the update's 4. *)
Lemma updateSegments_not_pure :
  elems (arr_at segments_store 1) !! 3%nat = Some (VObj 4) ∧
  obj_at segments_store 4 !! "duration" = Some (VNum 5) ∧
  fst (updateSegments (VArr 1) (VArr 2) (VNum 3) segments_store) = Ret (VArr 3) ∧
  obj_at (snd (updateSegments (VArr 1) (VArr 2) (VNum 3) segments_store)) 4 !! "duration"
    = Some (VNum 4).
Proof. by vm_compute. Qed.

(** A negative offset is not clamped: the first turn of the loop reads
    [original[offset]], which is [undefined], and [Object.assign] throws. *)
Lemma updateSegments_negative w lo lu orig upd (offset : Z) :
  arrs w !! lo = Some orig → arrs w !! lu = Some upd →
  (offset < 0)%Z → elems upd ≠ [] →
  fst (updateSegments (VArr lo) (VArr lu) (VNum offset) w) = Throw TypeError.
Proof.
  intros Hlo Hlu Hneg Hne.
  set (r := fresh (dom (arrs w))).
  assert (Hrlo : r ≠ lo) by (by eapply fresh_arr).
  assert (Hrlu : r ≠ lu) by (by eapply fresh_arr).
  unfold updateSegments.
  erewrite bind_Ret; [|unfold slice; rewrite (arr_at_Some _ _ _ Hlu); reflexivity].
  fold r. rewrite js_or_num.
  erewrite bind_Ret by apply get_length_arr.
  erewrite bind_Ret by apply get_length_arr.
  rewrite !arr_at_insert, !decide_False by done.
  rewrite (arr_at_Some _ _ _ Hlo), (arr_at_Some _ _ _ Hlu).
  cbv [js_add Math_min arith bind to_number ret of_number].
  destruct (elems upd) as [|u us] eqn:Eu; [done|].
  set (n := Z.to_nat _).
  assert (n = S (Nat.pred n)) as -> by (subst n; simpl length; lia).
  simpl for_up. unfold bind, merge_at, bind, get_idx, gets.
  destruct (Z.leb_spec 0 offset); [lia|].
  by rewrite Z.sub_diag.
Qed.

(** C4, as the code has it.  When [offset ≥ len(original)] nothing overlaps:
    the merge returns normally, with the update's segments verbatim, and no
    object of the store is touched.  A negative offset is not clamped: with a
    non-empty update the merge throws a TypeError. *)
Theorem updateSegments_no_overlap w lo lu orig upd (offset : Z) :
  arrs w !! lo = Some orig → arrs w !! lu = Some upd →
  ((Z.of_nat (length (elems orig)) ≤ offset →
    ∃ r w',
      updateSegments (VArr lo) (VArr lu) (VNum offset) w = (Ret (VArr r), w') ∧
      arrs w !! r = None ∧
      elems (arr_at w' r) = elems upd ∧
      ∀ l, obj_at w' l = obj_at w l) ∧
   (offset < 0 → elems upd ≠ [] →
    fst (updateSegments (VArr lo) (VArr lu) (VNum offset) w) = Throw TypeError))%Z.
Proof.
  intros Hlo Hlu. split; [|intros; by eapply updateSegments_negative].
  intros Hoff.
  set (off := Z.to_nat offset) in *.
  assert (Eoff : offset = Z.of_nat off) by lia. rewrite Eoff.
  assert (E0 : overlap (elems orig) (elems upd) off = 0%nat) by (unfold overlap; lia).
  assert (Hwin : window_ok (elems orig) (elems upd) off).
  { unfold window_ok. rewrite E0. repeat split; intros; lia. }
  destruct (updateSegments_run w lo lu orig upd off Hlo Hlu Hwin) as (w' & Hrun & Hinv).
  pose proof (merged_upto_result _ _ _ _ _ _ _ Hinv) as Hres.
  destruct Hinv as (Ha & Hin & Hout & _). rewrite E0 in *.
  exists (fresh (dom (arrs w))), w'. split; [done|].
  split; [apply fresh_arr_None|]. split; [by rewrite Hres|].
  intros l. apply Hout. intros; lia.
Qed.

Lemma updateSegments_no_overlap_witness :
  (∃ r w',
     updateSegments (VArr 1) (VArr 2) (VNum 5) segments_store = (Ret (VArr r), w') ∧
     elems (arr_at w' r) = [VObj 6; VObj 7]) ∧
  fst (updateSegments (VArr 1) (VArr 2) (VNum (-1)) segments_store) = Throw TypeError.
Proof.
  destruct (updateSegments_no_overlap segments_store 1 2
              (Array [VObj 1; VObj 2; VObj 3; VObj 4; VObj 5] ∅)
              (Array [VObj 6; VObj 7] ∅) 5 eq_refl eq_refl) as [Hfar _].
  destruct (updateSegments_no_overlap segments_store 1 2
              (Array [VObj 1; VObj 2; VObj 3; VObj 4; VObj 5] ∅)
              (Array [VObj 6; VObj 7] ∅) (-1) eq_refl eq_refl) as [_ Hneg].
  split.
  - destruct Hfar as (r & w' & Hrun & _ & He & _); [simpl; lia|].
    exists r, w'. split; [exact Hrun | exact He].
  - apply Hneg; [lia | discriminate].
Defined.

(** C4 fails as stated.  With five original segments, two update segments and
    offset 3, the offset exceeds the update length, yet the merge returns the
    originals 3 and 4 instead of the update's segments; and with offset −1 it
    does not return at all. *)
Lemma updateSegments_discontinuity_counterexample :
  (3 > Z.of_nat (length (elems (arr_at segments_store 2))))%Z ∧
  elems (arr_at segments_store 2) = [VObj 6; VObj 7] ∧
  fst (updateSegments (VArr 1) (VArr 2) (VNum 3) segments_store) = Ret (VArr 3) ∧
  elems (arr_at (snd (updateSegments (VArr 1) (VArr 2) (VNum 3) segments_store)) 3)
    = [VObj 4; VObj 5] ∧
  fst (updateSegments (VArr 1) (VArr 2) (VNum (-1)) segments_store) = Throw TypeError.
Proof. by vm_compute. Qed.

(** ** [onPlaylistRequestError] *)

Lemma get_truthy v k w : truthy v = true → ∃ x, get v k w = (Ret x, w).
Proof. destruct v; try done; intros _; eexists; reflexivity. Qed.

(** C7, as the code has it.  On a failed request the loader goes back to the
    state it had before the attempt, clears the request handle and records an
    error whose severity is fatal exactly when the HTTP status is a number
    that is at least 500; a missing status, like every status below 500 and so
    every status of [400, 499], is recorded as recoverable. *)
Theorem onPlaylistRequestError_severity w x u s0 lm lp :
  master (this w) = VObj lm → field w lm "playlists" = VArr lp → u ≠ "length" →
  (field w x "status" = VUndef ∨ ∃ n, field w x "status" = VNum n) →
  ∃ w' e,
    onPlaylistRequestError (VObj x) (VStr u) (Some s0) w = (Ret tt, w') ∧
    state (this w') = s0 ∧
    _xhr (this w') = VNull ∧
    error (this w') = Some e ∧
    err_status e = field w x "status" ∧
    (fatal e ↔ ∃ n, field w x "status" = VNum n ∧ (500 ≤ n)%Z) ∧
    (¬ fatal e → recoverable e).
Proof.
  intros Hm Hp Hu Hst.
  assert (Hbw : ∃ b, get (js_or (_xhr (this w)) (VObj x)) "bandwidth" w = (Ret b, w)).
  { unfold js_or. destruct (truthy _) eqn:E; [by apply get_truthy | by eexists]. }
  destruct Hbw as [b Hb].
  unfold onPlaylistRequestError, setBandwidth, read, write.
  erewrite bind_Ret by reflexivity.
  erewrite bind_Ret by (erewrite bind_Ret by exact Hb; reflexivity).
  erewrite bind_Ret by reflexivity.
  erewrite bind_Ret by reflexivity.
  erewrite bind_Ret by reflexivity. simpl master. rewrite Hm.
  erewrite bind_Ret by apply get_obj. unfold field at 1. autorewrite with store.
  fold (field w lm "playlists"). rewrite Hp.
  erewrite bind_Ret.
  2:{ unfold get_by, get, gets. rewrite (proj2 (String.eqb_neq u "length") Hu). reflexivity. }
  erewrite bind_Ret by apply get_obj.
  erewrite bind_Ret by reflexivity.
  erewrite bind_Ret by apply get_obj.
  erewrite bind_Ret by apply get_obj.
  unfold field at 1 2 3. autorewrite with store. fold (field w x "status").
  fold (field w x "responseText").
  destruct Hst as [E | [n E]]; rewrite E.
  - erewrite bind_Ret by reflexivity. eexists _, _. split; [reflexivity|].
    simpl. unfold fatal, recoverable. simpl. repeat split; try done.
    intros (n & ? & _). done.
  - erewrite bind_Ret by reflexivity. eexists _, _. split; [reflexivity|].
    simpl. unfold fatal, recoverable. simpl. repeat split; try done.
    + intros H. exists n. split; [done|]. destruct (Z.geb_spec n 500); [lia|done].
    + intros (n' & [= <-] & Hn). destruct (Z.geb_spec n 500); [done|lia].
    + intros H. destruct (n >=? 500)%Z; [by destruct H | done].
Qed.

Lemma onPlaylistRequestError_severity_witness :
  ∃ w' e,
    onPlaylistRequestError (VObj 3) (VStr "a.m3u8") (Some HAVE_MASTER) failed_store
      = (Ret tt, w') ∧
    state (this w') = HAVE_MASTER ∧ error (this w') = Some e ∧ recoverable e.
Proof.
  destruct (onPlaylistRequestError_severity failed_store 3 "a.m3u8" HAVE_MASTER 1 1)
    as (w' & e & Hrun & Hs & _ & He & _ & Hf & Hr).
  - reflexivity.
  - reflexivity.
  - discriminate.
  - left. reflexivity.
  - exists w', e. split; [exact Hrun|]. split; [exact Hs|]. split; [exact He|].
    apply Hr. intros F. apply Hf in F as (n & F & _). discriminate F.
Defined.

(** C7 fails as stated: a request that failed without any HTTP status is
    recorded with code 2, the recoverable severity, not the fatal one. *)
Lemma missing_status_is_recoverable :
  field failed_store 3 "status" = VUndef ∧
  ∃ e, error (this (snd (onPlaylistRequestError (VObj 3) (VStr "a.m3u8") (Some HAVE_MASTER)
                           failed_store))) = Some e ∧
       recoverable e ∧ ¬ fatal e.
Proof.
  split; [done|]. eexists. split; [by vm_compute|]. split; [done|].
  intros F. discriminate F.
Qed.

(** ** [media] *)

Lemma get_arr_keyed w l k :
  k ≠ "length" → get (VArr l) k w = (Ret (default VUndef (keyed (arr_at w l) !! k)), w).
Proof.
  intros Hk. unfold get, gets. by rewrite (proj2 (String.eqb_neq k "length") Hk).
Qed.

Lemma strict_eq_refl_str s : strict_eq (VStr s) (VStr s) = true.
Proof. unfold strict_eq. by rewrite bool_decide_eq_true_2. Qed.

Section MediaProperties.

Variable resolveURL : val → val → val.

(** C8, as the code has it.  A call of [media] with the uri of the active
    rendition issues no request.  When the active rendition is not marked
    [endList] the call changes nothing at all.  When it is marked [endList]
    the active playlist stays the same, but the loader goes to HAVE_METADATA
    and an outstanding request is aborted and its handle cleared. *)
Theorem media_active_uri w a u lm lp :
  _media (this w) = VObj a → field w a "uri" = VStr u → u ≠ "" → u ≠ "length" →
  master (this w) = VObj lm → field w lm "playlists" = VArr lp →
  keyed (arr_at w lp) !! u = Some (VObj a) →
  (_xhr (this w) = VNull ∨ ∃ x, _xhr (this w) = VObj x) →
  (truthy (field w a "endList") = false →
     media resolveURL (VStr u) w = (Ret VUndef, w)) ∧
  (truthy (field w a "endList") = true →
     ∃ w', media resolveURL (VStr u) w = (Ret VUndef, w') ∧
           _media (this w') = VObj a ∧
           state (this w') = HAVE_METADATA ∧
           _xhr (this w') = VNull ∧
           trace w' = trace w ++ (if truthy (_xhr (this w)) then [Abort (_xhr (this w))] else [])).
Proof.
  intros Hmedia Huri Hne Hlen Hm Hp Hk Hx.
  assert (Hnot : js_not (VStr u) = false).
  { unfold js_not; simpl. destruct (String.eqb_spec u ""); done. }
  assert (Hhead :
    media resolveURL (VStr u) w =
      if truthy (field w a "endList") then
        (do x <- read _xhr;
         when (truthy x) (
           do x <- read _xhr;
           set x "onreadystatechange" VNull;;
           do x <- read _xhr;
           abort x;;
           write (with_xhr VNull));;
         write (with_state HAVE_METADATA);;
         write (with_media (VObj a));;
         when false (trigger "mediachanging";; trigger "mediachange");;
         ret VUndef) w
      else (Ret VUndef, w)).
  { unfold media. rewrite Hnot. simpl is_string. cbv iota.
    unfold read. rewrite ?bind_assoc.
    do 2 (rewrite bind_gets, Hm, ?bind_assoc, bind_get_obj; rewrite Hp; rewrite ?bind_assoc;
          erewrite bind_Ret by (by apply get_arr_keyed); rewrite ?Hk; simpl default;
          rewrite ?bind_assoc).
    rewrite bind_gets, Hmedia. change (js_not (VObj a)) with false. cbv iota.
    rewrite ?bind_assoc, bind_get_obj. rewrite Huri.
    rewrite ?bind_assoc, bind_gets, Hmedia, ?bind_assoc, bind_get_obj.
    rewrite Huri.
    rewrite ?bind_assoc, bind_ret_l, strict_eq_refl_str. simpl negb.
    rewrite bind_gets, Hm, bind_get_obj. rewrite Hp.
    rewrite bind_get_obj. rewrite Huri.
    erewrite bind_Ret by (by apply get_arr_keyed). rewrite Hk; simpl default.
    rewrite bind_get_obj.
    by destruct (truthy (field w a "endList")). }
  split; intros He; rewrite He in Hhead.
  { exact Hhead. }
  rewrite Hhead. unfold read.
  erewrite bind_Ret by reflexivity.
  destruct Hx as [E | [x E]]; rewrite E; simpl truthy; simpl when.
  - eexists. split; [reflexivity|]. simpl. by rewrite app_nil_r.
  - cbv [bind read gets when ret write modify abort set]. autorewrite with store.
    rewrite E. eexists. split; [reflexivity|]. simpl. by rewrite E.
Qed.

End MediaProperties.

Lemma media_active_uri_witness :
  media join_url (VStr "b.m3u8") live_store = (Ret VUndef, live_store).
Proof.
  apply (media_active_uri join_url live_store 3 "b.m3u8" 1 1).
  - reflexivity.
  - reflexivity.
  - discriminate.
  - discriminate.
  - reflexivity.
  - reflexivity.
  - reflexivity.
  - left. reflexivity.
  - reflexivity.
Defined.

(** C8 fails as stated.  While a switch to [b.m3u8] is under way, a call of
    [media] with the uri of the active rendition [a.m3u8], which is marked
    [endList], moves the loader from SWITCHING_MEDIA to HAVE_METADATA, aborts
    the outstanding request and clears its handle. *)
Lemma media_active_uri_aborts :
  _media (this switching_store) = VObj 2 ∧
  field switching_store 2 "uri" = VStr "a.m3u8" ∧
  state (this switching_store) = SWITCHING_MEDIA ∧
  _xhr (this switching_store) = VObj 4 ∧
  let w' := snd (media join_url (VStr "a.m3u8") switching_store) in
  state (this w') = HAVE_METADATA ∧
  _xhr (this w') = VNull ∧
  trace w' = [Abort (VObj 4)].
Proof. by vm_compute. Qed.

(** ** The rendition selector *)

Lemma bandwidth_le_run w cur p :
  match field w p "attributes" with
  | VUndef => true
  | VObj a => match field w a "BANDWIDTH" with VUndef | VNum _ => true | _ => false end
  | _ => false
  end = true →
  (do bandwidth <-
     (if truthy (VObj p) then
        do attrs <- get (VObj p) "attributes";
        if truthy attrs then
          do attrs <- get (VObj p) "attributes";
          get attrs "BANDWIDTH"
        else ret (VNum 0)
      else ret (VNum 0));
   js_le bandwidth (VNum cur)) w
  = (Ret (match bandwidth_of w p with Some b => (b <=? cur)%Z | None => false end), w).
Proof.
  unfold bandwidth_of. change (truthy (VObj p)) with true. cbv iota. mrun.
  destruct (field w p "attributes") as [| | | | | |a|] eqn:Eat; try done.
  intros Hb. change (truthy (VObj a)) with true. cbv iota. mrun. rewrite Eat. mrun.
  by destruct (field w a "BANDWIDTH").
Qed.

Lemma lower_or_equal_run w cur p :
  rendition_okb w p = true →
  lower_or_equal (VNum cur) (VObj p) w = (Ret (not_above w cur p), w).
Proof.
  unfold rendition_okb, not_above, eligible.
  intros [Hex Hat]%andb_true_iff.
  unfold lower_or_equal, Date_now. mrun.
  destruct (field w p "excludeUntil") as [| | |t| | | |] eqn:Eex; try done.
  - change (is_undefined VUndef) with true. cbv iota. mrun.
    change (negb true) with false. cbv iota. by apply bandwidth_le_run.
  - change (is_undefined (VNum t)) with false. cbv iota. mrun. rewrite Eex.
    unfold js_le at 1, compare, to_number. mrun.
    destruct (t <=? clock w)%Z; simpl negb; cbv iota; [|done].
    by apply bandwidth_le_run.
Qed.

Lemma filter_lower_or_equal w cur pls :
  forallb (rendition_okb w) pls = true →
  filter_elems (lower_or_equal (VNum cur)) (VObj <$> pls) w
    = (Ret (VObj <$> List.filter (not_above w cur) pls), w).
Proof.
  induction pls as [|p pls IH]; [done|]. simpl.
  intros [Hp Hpls]%andb_true_iff.
  erewrite bind_Ret by (by apply lower_or_equal_run).
  erewrite bind_Ret by (by apply IH).
  by destruct (not_above w cur p).
Qed.

(** What the code computes.  [isLowestEnabledRendition_] answers false when
    there is no active playlist or the active playlist has no attributes; a
    missing [BANDWIDTH] among the attributes of the active playlist counts as
    0.  Otherwise it answers true exactly when at most one eligible rendition
    ([excludeUntil] absent or not after the current time) has a bandwidth that
    is at most the active one; ties count.  For the renditions 500k (excluded
    until later), 800k, 800k and 1200k with an 800k rendition active,
    [enabledPlaylists] is 3 and the answer is false: both 800k renditions are
    at most 800k. *)
Theorem isLowestEnabledRendition_spec resolveURL w lm lp pls :
  master (this w) = VObj lm → field w lm "playlists" = VArr lp →
  elems (arr_at w lp) = VObj <$> pls →
  forallb (rendition_okb w) pls = true → active_okb w = true →
  (∃ w', isLowestEnabledRendition_ resolveURL w = (Ret (lowest_eligible w pls), w')) ∧
  fst (enabledPlaylists renditions_store) = Ret (VNum 3) ∧
  fst (isLowestEnabledRendition_ join_url renditions_store) = Ret false.
Proof.
  intros Hm Hp Hel Hok Hact. split; [|by vm_compute].
  unfold isLowestEnabledRendition_, lowest_eligible, media, read.
  change (js_not VUndef) with true. cbv iota. mrun.
  unfold active_okb in Hact.
  destruct (_media (this w)) as [| | | | | | a|] eqn:Ea; try done;
    try (eexists; reflexivity).
  change (js_not (VObj a)) with false. cbv iota. mrun.
  unfold rendition_okb in Hact. apply andb_true_iff in Hact as [_ Hact].
  destruct (field w a "attributes") as [| | | | | | attrs|] eqn:Eat; try done;
    try (eexists; reflexivity).
  change (negb (truthy (VObj attrs))) with false. cbv iota.
  mrun. rewrite ?Ea. mrun. rewrite ?Eat. mrun. rewrite ?Hm. mrun. rewrite ?Hp.
  set (cur := match field w attrs "BANDWIDTH" with VNum b => b | _ => 0%Z end).
  assert (Hcur : js_or (field w attrs "BANDWIDTH") (VNum 0) = VNum cur).
  { subst cur. destruct (field w attrs "BANDWIDTH") as [| | |b| | | |]; try done.
    apply js_or_num. }
  rewrite Hcur. unfold Array_filter. mrun. rewrite Hel.
  erewrite bind_Ret by (by apply filter_lower_or_equal).
  unfold new_array, bind at 1. erewrite bind_Ret by apply get_length_arr.
  rewrite arr_at_insert, decide_True by done. simpl elems.
  rewrite length_fmap. eexists. unfold js_lt, compare, to_number, bind, ret.
  f_equal. f_equal.
  destruct (Nat.leb_spec (length (List.filter (not_above w cur) pls)) 1);
    destruct (Z.ltb_spec 1 (Z.of_nat (length (List.filter (not_above w cur) pls))));
    try done; lia.
Qed.

Lemma isLowestEnabledRendition_spec_witness :
  ∃ w', isLowestEnabledRendition_ join_url renditions_store = (Ret false, w').
Proof.
  destruct (isLowestEnabledRendition_spec join_url renditions_store 1 1 [2; 3; 4; 5]%positive)
    as [[w' Hrun] _].
  - reflexivity.
  - reflexivity.
  - reflexivity.
  - reflexivity.
  - reflexivity.
  - exists w'. exact Hrun.
Defined.

(** C9 (defect of the code).  The method is to tell whether the active
    rendition is the lowest enabled one ("true if on lowest rendition"), ties
    counting as not lower.  Of the renditions 500k (excluded until later),
    800k, 800k and 1200k, with the first 800k rendition active, three are
    enabled and none of them is below 800k; yet the answer is false.  The
    filter counts the renditions that are not above the active one, the
    active one among them, and the answer is [!(count > 1)]: the other 800k
    rendition makes the count 2. *)
Theorem isLowestEnabledRendition_tie :
  _media (this renditions_store) = VObj 3 ∧
  bandwidth_of renditions_store 3 = Some 800000%Z ∧
  fst (enabledPlaylists renditions_store) = Ret (VNum 3) ∧
  List.filter (eligible renditions_store) [2; 3; 4; 5]%positive = [3; 4; 5]%positive ∧
  bandwidth_of renditions_store <$> [3; 4; 5]%positive
    = [Some 800000; Some 800000; Some 1200000]%Z ∧
  List.filter (not_above renditions_store 800000) [2; 3; 4; 5]%positive
    = [3; 4]%positive ∧
  fst (isLowestEnabledRendition_ join_url renditions_store) = Ret false.
Proof. by vm_compute. Qed.

(** ** The live window tracker *)

Lemma with_expired_id L acc : expired_ L = VNum acc → with_expired (VNum acc) L = L.
Proof. destruct L; simpl. by intros ->. Qed.

Lemma js_or_target w old :
  (field w old "targetDuration" = VUndef ∨ ∃ n, field w old "targetDuration" = VNum n) →
  js_or (field w old "targetDuration") (VNum 10) = VNum (target_or_default w old).
Proof.
  unfold target_or_default, js_or.
  intros [-> | [n ->]]; [done|]. simpl. by destruct (n =? 0)%Z.
Qed.

(** The walk over the outdated playlist computes [expired_walk]; it changes
    nothing but [expired_]. *)
Lemma walk_outdated_run w old os ols :
  field w old "segments" = VArr os →
  elems (arr_at w os) = VObj <$> ols →
  forallb (timing_okb w) ols = true →
  (field w old "targetDuration" = VUndef ∨ ∃ n, field w old "targetDuration" = VNum n) →
  ∀ n L acc,
    expired_ L = VNum acc →
    walk_outdated n (VObj old) (set_this (λ _, L) w) =
      (Ret tt,
       set_this (λ _, with_expired
                        (VNum (expired_walk (timing_of w <$> ols) (target_or_default w old) n acc)) L) w).
Proof.
  intros Hsegs Hel Hok Htd. induction n as [|i IH]; intros L acc Hacc.
  { simpl. by rewrite with_expired_id. }
  cbn [walk_outdated]. unfold read, write. mrun.
  autorewrite with store. rewrite Hsegs.
  erewrite bind_Ret by apply get_idx_arr. autorewrite with store. rewrite Hel.
  rewrite list_lookup_fmap. simpl expired_walk. rewrite list_lookup_fmap.
  destruct (ols !! i) as [l|] eqn:El.
  - change (default VUndef (VObj <$> Some l)) with (VObj l).
    change (timing_of w <$> Some l) with (Some (timing_of w l)). cbv iota.
    assert (Hl : timing_okb w l = true).
    { rewrite forallb_forall in Hok. apply Hok. apply list_elem_of_In.
      by eapply list_elem_of_lookup_2. }
    unfold timing_okb in Hl. apply andb_true_iff in Hl as [[Hs He]%andb_true_iff Hd].
    change (js_not (VObj l)) with false. cbv iota. mrun.
    autorewrite with store.
    cbn [t_end t_start t_duration timing_of]. unfold num_field.
    destruct (field w l "end") as [| | |e| | | |] eqn:Ee; try done.
    + change (negb (is_undefined VUndef)) with false. cbv iota. mrun.
    autorewrite with store.
      destruct (field w l "start") as [| | |s| | | |] eqn:Es; try done.
      * change (negb (is_undefined VUndef)) with false. cbv iota. mrun.
    autorewrite with store.
        destruct (field w l "duration") as [| | |d| | | |] eqn:Ed; try done.
        rewrite Hacc. unfold js_add. mrun.
        change (set_this ?f (set_this (λ _, L) w)) with (set_this (λ _, f L) w).
        rewrite (IH (with_expired (VNum (acc + d)) L) (acc + d)%Z) by done.
        by destruct L.
      * change (negb (is_undefined (VNum s))) with true. cbv iota. mrun.
    autorewrite with store.
    autorewrite with store.
        rewrite Es. destruct (field w l "duration") as [| | |d| | | |] eqn:Ed; try done.
    + change (negb (is_undefined (VNum e))) with true. cbv iota. mrun.
    autorewrite with store.
      by rewrite Ee.
  - change (default VUndef (VObj <$> None)) with VUndef.
    change (timing_of w <$> None) with (@None timing). cbv iota.
    change (js_not VUndef) with true. cbv iota. mrun.
    autorewrite with store.
    rewrite js_or_target by done. rewrite Hacc.
    unfold js_add. mrun.
    change (set_this ?f (set_this (λ _, L) w)) with (set_this (λ _, f L) w).
    rewrite (IH (with_expired (VNum (acc + target_or_default w old)) L)
               (acc + target_or_default w old)%Z) by done.
    by destruct L.
Qed.

(** [updateMediaPlaylist_] on its own, called on a loader whose active
    playlist is still the old snapshot, with tracking enabled and the same
    uri, for timings that are integers: when the first segment of the update
    carries a precise start, [expired_] becomes that start; else, when it carries a precise end,
    [expired_] becomes end − duration; else the tracker walks the segments of
    the old playlist backward from index
    [update.mediaSequence − old.mediaSequence − 1] down to 0, as
    [expired_walk] does: the target duration of the old playlist (10 when it
    has none) is added for a missing segment, a precise end settles
    [expired_] at that end, a precise start at start + duration, and any other
    segment adds its duration.  For the old sequence 10 with durations
    [4, 4, 4] and the new sequence 12, without precise timing, [expired_]
    grows by 8, here from 20 to 28. *)
Theorem updateMediaPlaylist_expired w upd old u lm lp us uls os ols nq oq acc :
  _media (this w) = VObj old →
  truthy (trackExpiredTime_ (this w)) = true →
  expired_ (this w) = VNum acc →
  master (this w) = VObj lm → field w lm "playlists" = VArr lp → u ≠ "length" →
  field w upd "uri" = VStr u → field w old "uri" = VStr u →
  field w upd "segments" = VArr us → elems (arr_at w us) = VObj <$> uls →
  forallb (timing_okb w) uls = true →
  field w old "segments" = VArr os → elems (arr_at w os) = VObj <$> ols →
  forallb (timing_okb w) ols = true →
  (field w old "targetDuration" = VUndef ∨ ∃ n, field w old "targetDuration" = VNum n) →
  field w upd "mediaSequence" = VNum nq → field w old "mediaSequence" = VNum oq →
  (∃ w', updateMediaPlaylist_ (VObj upd) w = (Ret tt, w') ∧
         expired_ (this w') =
           VNum (expired_after (timing_of w <$> head uls) (timing_of w <$> ols)
                   (target_or_default w old) nq oq acc)) ∧
  expired_ (this window_store) = VNum 20 ∧
  expired_ (this (snd (updateMediaPlaylist_ (VObj 6) window_store))) = VNum 28.
Proof.
  intros Hmedia Htrack Hacc Hm Hp Hu Huu Hou Hus Huls Huok Hos Hols Hook Htd Hnq Hoq.
  split; [|by vm_compute].
  unfold updateMediaPlaylist_, read, write.
  mrun_using ltac:(rewrite ?Hmedia, ?Hm, ?Hp, ?Huu).
  erewrite bind_Ret by (by apply get_arr_keyed).
  mrun. change (js_not (VObj old)) with false. cbv iota. mrun.
  autorewrite with store.
  change (trackExpiredTime_ (with_media ?p (this w))) with (trackExpiredTime_ (this w)).
  unfold js_not. rewrite Htrack. cbn [negb].
  mrun_using ltac:(rewrite ?Huu, ?Hou).
  rewrite strict_eq_refl_str. cbn [negb].
  mrun_using ltac:(rewrite ?Hus).
  erewrite bind_Ret by apply get_length_arr. autorewrite with store.
  rewrite Huls, length_fmap.
  set (p := default VUndef (keyed (arr_at w lp) !! u)).
  set (w1 := set_this (with_media p) w).
  assert (Hwalk : ∃ w',
    (do uq <- get (VObj upd) "mediaSequence";
     do oq <- get (VObj old) "mediaSequence";
     do d <- js_sub uq oq;
     do i <- js_sub d (VNum 1);
     do i <- to_number i;
     match i with
     | Some i => walk_outdated (Z.to_nat (i + 1)) (VObj old)
     | None => ret tt
     end) w1 = (Ret tt, w') ∧
    expired_ (this w') =
      VNum (expired_walk (timing_of w <$> ols) (target_or_default w old)
              (Z.to_nat (nq - oq)) acc)).
  { mrun. subst w1. autorewrite with store. rewrite Hnq, Hoq.
    unfold js_sub. mrun.
    replace (nq - oq - 1 + 1)%Z with (nq - oq)%Z by lia.
    change (set_this (with_media p) w) with (set_this (λ _, with_media p (this w)) w).
    erewrite walk_outdated_run by done. eexists. split; [reflexivity|]. done. }
  destruct Hwalk as (w' & Hwalk & Hexp). subst w1.
  destruct uls as [|f uls]; simpl length; simpl head.
  - change (truthy (VNum (Z.of_nat 0))) with false. cbv iota.
    rewrite bind_ret_l. cbv iota.
    exists w'. split; [exact Hwalk | exact Hexp].
  - replace (truthy (VNum (Z.of_nat (S (length uls))))) with true
      by (unfold truthy; by destruct (Z.eqb_spec (Z.of_nat (S (length uls))) 0)).
    cbv iota. mrun.
    change (get_idx (VArr us) 0) with (get_idx (VArr us) (Z.of_nat 0)).
    erewrite bind_Ret by apply get_idx_arr.
    autorewrite with store. rewrite Huls. change (default VUndef _) with (VObj f).
    mrun. autorewrite with store.
    simpl in Huok. apply andb_true_iff in Huok as [Hf _].
    unfold timing_okb in Hf. apply andb_true_iff in Hf as [[Hs He]%andb_true_iff Hd].
    unfold expired_after. change (timing_of w <$> head (f :: uls)) with (Some (timing_of w f)).
    cbn [t_end t_start t_duration timing_of]. unfold num_field.
    destruct (field w f "start") as [| | |s| | | |] eqn:Es; try done.
    + change (negb (is_undefined VUndef)) with false. cbv iota. mrun.
      autorewrite with store.
      destruct (field w f "end") as [| | |e| | | |] eqn:Ee; try done.
      * change (negb (is_undefined VUndef)) with false. cbv iota.
        rewrite bind_ret_l. cbv iota.
        exists w'. split; [exact Hwalk | exact Hexp].
      * change (negb (is_undefined (VNum e))) with true. cbv iota. mrun.
        autorewrite with store.
        destruct (field w f "duration") as [| | |d| | | |] eqn:Ed; try done.
        unfold js_sub. mrun. eexists. split; [reflexivity|]. done.
    + change (negb (is_undefined (VNum s))) with true. cbv iota. mrun.
      eexists. split; [reflexivity|]. done.
Qed.

Lemma updateMediaPlaylist_expired_witness :
  ∃ w', updateMediaPlaylist_ (VObj 6) window_store = (Ret tt, w') ∧
        expired_ (this w') = VNum 28.
Proof.
  destruct (updateMediaPlaylist_expired window_store 6 2 "a.m3u8" 1 1 3 [7; 8; 9]%positive
              2 [3; 4; 5]%positive 12 10 20) as [(w' & Hrun & He) _].
  - reflexivity.
  - reflexivity.
  - reflexivity.
  - reflexivity.
  - reflexivity.
  - discriminate.
  - reflexivity.
  - reflexivity.
  - reflexivity.
  - reflexivity.
  - reflexivity.
  - reflexivity.
  - reflexivity.
  - reflexivity.
  - right. exists 4%Z. reflexivity.
  - reflexivity.
  - reflexivity.
  - exists w'. split; [exact Hrun|]. rewrite He. reflexivity.
Defined.

(** C5 (defect of the code).  On an accepted update the expired time should
    grow by what has left the window: for the old sequence 10 with durations
    [4, 4, 4] and the new sequence 12, without precise timing, by 8, from 20
    to 28.  [accept] is how [haveMetadata] accepts the update (its lines from
    [let update = updateMaster(this.master, parser.manifest)] to the end of
    [if (update) { ... } else { ... }], with the manifest in the place of
    [parser.manifest]).  [updateMaster] merges in place:
    its [Object.assign(playlist, media)] overwrites the playlist that
    [this._media] refers to, so that [updateMediaPlaylist_] finds the new
    sequence, 12, on the playlist that it takes for the outdated one.  Its
    walk starts at index 12 − 12 − 1 and does not run: the expired time stays
    at 20.  On the old snapshot the method alone gives 28. *)
Theorem accepted_update_skips_walk :
  let manifest := VObj 6 in
  let accept :=
    do m <- read master;
    do update <- updateMaster join_url m manifest;
    do td <- get manifest "targetDuration";
    do delay <- js_mul (js_or td (VNum 10)) (VNum 1000);
    write (with_refreshDelay delay);;
    do td <- get manifest "targetDuration";
    write (with_targetDuration td);;
    if truthy update then
      write (with_master update);;
      updateMediaPlaylist_ manifest
    else
      do delay <- read refreshDelay;
      do half <- js_half delay;
      write (with_refreshDelay half) in
  _media (this window_store) = VObj 2 ∧
  field window_store 2 "mediaSequence" = VNum 10 ∧
  field window_store 6 "mediaSequence" = VNum 12 ∧
  expired_ (this window_store) = VNum 20 ∧
  fst (updateMaster join_url (VObj 1) (VObj 6) window_store) = Ret (VObj 1) ∧
  fst (accept window_store) = Ret tt ∧
  _media (this (snd (accept window_store))) = VObj 2 ∧
  field (snd (accept window_store)) 2 "mediaSequence" = VNum 12 ∧
  expired_ (this (snd (accept window_store))) = VNum 20 ∧
  expired_ (this (snd (updateMediaPlaylist_ (VObj 6) window_store))) = VNum 28.
Proof. by vm_compute. Qed.

(** ** [updateMaster] *)

(** C2 (defect of the code).  [updateMaster] first overlays the update on the
    playlist in place, so that [playlist.segments] and
    [playlist.mediaSequence] are already those of the update when
    [updateSegments] is called: the update is merged with itself, at offset 0,
    and what the old segments carried is lost.  Here the old playlist is at
    sequence 10 and the update at 11: old segment 1 (object 4) overlaps update
    segment 0 (object 7) and has its [end] and [resolvedUri] established.
    Merging the old and the new lists at offset 1 keeps them (object 4 comes
    first); [updateMaster] instead leaves the playlist with the bare update
    segment, without [end] and with a freshly resolved uri. *)
Theorem updateMaster_discards_old_segments :
  let w' := snd (updateMaster join_url (VObj 1) (VObj 6) refresh_store) in
  field refresh_store 2 "mediaSequence" = VNum 10 ∧
  field refresh_store 6 "mediaSequence" = VNum 11 ∧
  field refresh_store 4 "end" = VNum 8 ∧
  field refresh_store 4 "resolvedUri" = VStr "http://cdn/s11.ts" ∧
  elems (arr_at (snd (updateSegments (VArr 2) (VArr 3) (VNum 1) refresh_store)) 4)
    = [VObj 4; VObj 5; VObj 9] ∧
  fst (updateMaster join_url (VObj 1) (VObj 6) refresh_store) = Ret (VObj 1) ∧
  field w' 2 "segments" = VArr 4 ∧
  elems (arr_at w' 4) = [VObj 7; VObj 8; VObj 9] ∧
  field w' 7 "end" = VUndef ∧
  field w' 7 "resolvedUri" = VStr "http://h/a/s11.ts".
Proof. by vm_compute. Qed.

Lemma resolved_only_refl w : resolved_only w w.
Proof. by split. Qed.

Lemma resolved_only_trans w1 w2 w3 :
  resolved_only w1 w2 → resolved_only w2 w3 → resolved_only w1 w3.
Proof.
  intros [Ha Ho] [Ha' Ho']. split; [congruence|].
  intros l k Hk. by rewrite Ho', Ho.
Qed.

Lemma resolved_only_field w w' l k :
  resolved_only w w' → k ≠ "resolvedUri" → field w' l k = field w l k.
Proof. intros [_ Ho] Hk. unfold field. by rewrite Ho. Qed.

Lemma resolved_only_arr w w' l : resolved_only w w' → arr_at w' l = arr_at w l.
Proof. intros [Ha _]. unfold arr_at. by rewrite Ha. Qed.

Lemma resolved_only_set w l x :
  resolved_only w (set_objs <[l := <["resolvedUri" := x]> (obj_at w l)]> w).
Proof.
  split; [done|]. intros l' k Hk. rewrite obj_at_insert. case_decide; [|done].
  subst l'. by rewrite lookup_insert_ne.
Qed.

Lemma resolve_ready_preserved w w' lm lp i p r segs :
  resolved_only w w' → resolve_ready w lm lp i p r segs → resolve_ready w' lm lp i p r segs.
Proof.
  intros Hro (Hp & Hi & Hs & Hr & Hk). unfold resolve_ready.
  rewrite !(resolved_only_arr _ _ _ Hro).
  rewrite !(resolved_only_field _ _ _ _ Hro) by done.
  repeat split; try done.
  - rewrite (resolved_only_field _ _ _ _ Hro) by done. by apply Hk.
  - rewrite (resolved_only_field _ _ _ _ Hro) by done. by apply Hk.
Qed.

Lemma bind_set_obj {B} l key x (k : unit → M B) w :
  bind (set (VObj l) key x) k w = k tt (set_objs <[l := <[key := x]> (obj_at w l)]> w).
Proof. done. Qed.

Section UpdateMaster.

Variable resolveURL : val → val → val.

Lemma resolve_part_run w p s part :
  part ≠ "resolvedUri" → key_okb (field w s part) = true →
  ∃ w', resolve_part resolveURL (VObj p) (VObj s) part w = (Ret tt, w') ∧ resolved_only w w'.
Proof.
  intros Hpart Hk. unfold resolve_part. mrun.
  destruct (field w s part) as [| | | | | |ko|] eqn:E; try done.
  - change (truthy VUndef) with false. cbv iota. mrun. unfold when.
    eexists. split; [reflexivity | apply resolved_only_refl].
  - change (truthy (VObj ko)) with true. cbv iota. mrun.
    destruct (js_not (field w ko "resolvedUri")); unfold when.
    + mrun. rewrite E. mrun. rewrite bind_set_obj || unfold set, modify.
      eexists. split; [reflexivity | apply resolved_only_set].
    + eexists. split; [reflexivity | apply resolved_only_refl].
Qed.

Lemma resolve_segment_run w lm lp i p r segs j s :
  resolve_ready w lm lp i p r segs → segs !! j = Some s →
  ∃ w', resolve_segment resolveURL (VObj lm) (VObj p) (Z.of_nat i) (Z.of_nat j) w
          = (Ret tt, w') ∧
        resolved_only w w'.
Proof.
  intros (Hp & Hi & Hs & Hr & Hk) Hj. unfold resolve_segment.
  mrun. rewrite Hp.
  erewrite bind_Ret by apply get_idx_arr. rewrite Hi. simpl default.
  mrun. rewrite Hs.
  erewrite bind_Ret by apply get_idx_arr. rewrite Hr, list_lookup_fmap, Hj. simpl default.
  mrun.
  assert (Hin : s ∈ segs) by (by eapply list_elem_of_lookup_2).
  destruct (Hk s Hin) as [Hkey Hmap].
  assert (H1 : ∃ w1,
    when (js_not (field w s "resolvedUri"))
      (do base <- get (VObj p) "resolvedUri";
       do u <- get (VObj s) "uri";
       set (VObj s) "resolvedUri" (resolveURL base u)) w = (Ret tt, w1) ∧
    resolved_only w w1).
  { destruct (js_not _); unfold when.
    - mrun. eexists. split; [reflexivity | apply resolved_only_set].
    - eexists. split; [reflexivity | apply resolved_only_refl]. }
  destruct H1 as (w1 & Hrun1 & Hro1).
  erewrite bind_Ret by exact Hrun1.
  destruct (resolve_part_run w1 p s "key") as (w2 & Hrun2 & Hro2); [done| |].
  { by rewrite (resolved_only_field _ _ _ _ Hro1). }
  erewrite bind_Ret by exact Hrun2.
  destruct (resolve_part_run w2 p s "map") as (w3 & Hrun3 & Hro3); [done| |].
  { rewrite (resolved_only_field _ _ _ _ Hro2), (resolved_only_field _ _ _ _ Hro1); done. }
  exists w3. split; [exact Hrun3|].
  eauto using resolved_only_trans.
Qed.

Lemma resolve_loop_run lm lp i p r segs n : ∀ w,
  resolve_ready w lm lp i p r segs → (n ≤ length segs)%nat →
  ∃ w', while_down n (λ j _, resolve_segment resolveURL (VObj lm) (VObj p) (Z.of_nat i) j) tt w
          = (Ret tt, w') ∧
        resolved_only w w'.
Proof.
  induction n as [|n IH]; intros w Hready Hn.
  { exists w. split; [done | apply resolved_only_refl]. }
  destruct (lookup_lt_is_Some_2 segs n) as [s Hs]; [lia|].
  destruct (resolve_segment_run w lm lp i p r segs n s Hready Hs) as (w1 & Hrun1 & Hro1).
  destruct (IH w1) as (w2 & Hrun2 & Hro2);
    [by eapply resolve_ready_preserved | lia |].
  exists w2. simpl while_down. erewrite bind_Ret by exact Hrun1.
  split; [exact Hrun2 | eauto using resolved_only_trans].
Qed.

End UpdateMaster.

Lemma strict_eq_num a b : strict_eq (VNum a) (VNum b) = (a =? b)%Z.
Proof.
  unfold strict_eq. destruct (Z.eqb_spec a b) as [->|N].
  - by rewrite bool_decide_eq_true_2.
  - rewrite bool_decide_eq_false_2; [done|]. by intros [= ?].
Qed.

(** Merging a list of distinct segments with itself changes no object: this
    is the call that [updateMaster] makes. *)
Lemma updateSegments_self w ls a segs :
  arrs w !! ls = Some a → elems a = VObj <$> segs → NoDup segs →
  ∃ w', updateSegments (VArr ls) (VArr ls) (VNum 0) w
          = (Ret (VArr (fresh (dom (arrs w)))), w') ∧
        arrs w' = <[fresh (dom (arrs w)) := Array (elems a) ∅]> (arrs w) ∧
        (∀ l, obj_at w' l = obj_at w l).
Proof.
  intros Hls Hel Hnd.
  assert (Hn : overlap (elems a) (elems a) 0 = length segs).
  { unfold overlap. rewrite Hel, length_fmap. lia. }
  assert (Hwin : window_ok (elems a) (elems a) 0).
  { unfold window_ok. rewrite Hn, Hel. split; [|split; [|split]].
    - intros i Hi. destruct (lookup_lt_is_Some_2 segs i Hi) as [l Hl].
      exists l. change (0 + i)%nat with i. by rewrite list_lookup_fmap, Hl.
    - intros i Hi. destruct (lookup_lt_is_Some_2 segs i Hi) as [l Hl].
      exists l. by rewrite list_lookup_fmap, Hl.
    - intros i i' l _ _. change (0 + i)%nat with i. change (0 + i')%nat with i'.
      rewrite !list_lookup_fmap.
      destruct (segs !! i) as [x|] eqn:E; [|done].
      destruct (segs !! i') as [x'|] eqn:E'; [|done].
      intros [= ->] [= ->]. by eapply NoDup_lookup.
    - intros i j l _. change (0 + i)%nat with i. rewrite !list_lookup_fmap.
      destruct (segs !! i) as [x|] eqn:E; [|done].
      destruct (segs !! j) as [x'|] eqn:E'; [|done].
      intros [= ->] [= ->]. by eapply NoDup_lookup. }
  destruct (updateSegments_run w ls ls a a 0 Hls Hls Hwin) as (w' & Hrun & Ha & Hin & Hout & _).
  exists w'. split; [exact Hrun|]. rewrite Hn in *. split.
  - rewrite Ha. f_equal. f_equal. simpl drop.
    rewrite <- (take_drop (length segs) (elems a)) at 3. done.
  - intros l. destruct (decide (l ∈ segs)) as [Y|N].
    + apply list_elem_of_lookup in Y as [i Hi].
      rewrite (Hin i l l); [apply map_union_idemp | by eapply lookup_lt_Some | |].
      * change (0 + i)%nat with i. by rewrite Hel, list_lookup_fmap, Hi.
      * by rewrite Hel, list_lookup_fmap, Hi.
    + apply Hout. intros i _. change (0 + i)%nat with i. rewrite Hel, list_lookup_fmap.
      destruct (segs !! i) as [x|] eqn:E; [|done]. simpl. intros [= ->].
      apply N. by eapply list_elem_of_lookup_2.
Qed.

(** The test of [updateMaster] is the no-op test of the specification. *)
Lemma unchanged_run w p ld ls :
  (field w p "segments" = VUndef ∨ ∃ a, field w p "segments" = VArr a) →
  field w ld "segments" = VArr ls →
  unchanged (VObj p) (VObj ld) w = (Ret (no_op w p ld), w).
Proof.
  intros Hp Hld. unfold unchanged, no_op, segment_count. mrun. rewrite Hld.
  destruct Hp as [-> | [a ->]].
  - change (truthy VUndef) with false. by cbv iota.
  - change (truthy (VArr a)) with true. cbv iota. mrun. rewrite Hld.
    change (truthy (VArr ls)) with true. cbv iota.
    erewrite bind_Ret by apply get_length_arr.
    erewrite bind_Ret by apply get_length_arr.
    rewrite strict_eq_num.
    destruct (Z.eqb_spec (Z.of_nat (length (elems (arr_at w a))))
                         (Z.of_nat (length (elems (arr_at w ls))))) as [E|N].
    + apply Nat2Z.inj in E. rewrite E, Nat.eqb_refl. by mrun.
    + rewrite (proj2 (Nat.eqb_neq _ _)) by congruence. done.
Qed.

Lemma agrees_except_trans D D' w w1 w2 :
  agrees_except D w w1 → agrees_except D' w1 w2 → agrees_except (D' ++ D) w w2.
Proof.
  intros [Ha Ho] [Ha' Ho']. split.
  - intros l a Hl. destruct (Ha l a Hl) as (a1 & Hl1 & E1).
    destruct (Ha' l a1 Hl1) as (a2 & Hl2 & E2). exists a2. split; [done | congruence].
  - intros l k Hl Hk. rewrite not_elem_of_app in Hl. destruct Hl as [? ?].
    rewrite Ho', Ho; done.
Qed.

Lemma agrees_except_weaken D D' w w' :
  D ⊆ D' → agrees_except D w w' → agrees_except D' w w'.
Proof. intros Hsub [Ha Ho]. split; [done|]. intros l k Hl Hk. apply Ho; [|done]. set_solver. Qed.

Lemma agrees_except_field D w w' l k :
  agrees_except D w w' → l ∉ D → k ≠ "resolvedUri" → field w' l k = field w l k.
Proof. intros [_ Ho] Hl Hk. unfold field. by rewrite Ho. Qed.

Lemma agrees_except_elems D w w' l a :
  agrees_except D w w' → arrs w !! l = Some a →
  is_Some (arrs w' !! l) ∧ elems (arr_at w' l) = elems a.
Proof.
  intros [Ha _] Hl. destruct (Ha l a Hl) as (a' & Hl' & E).
  split; [eauto|]. by rewrite (arr_at_Some _ _ _ Hl').
Qed.

Lemma bind_assign_obj {B} t s (k : val → M B) w :
  bind (Object_assign (VObj t) (VObj s)) k w
  = k (VObj t) (set_objs <[t := obj_at w s ∪ obj_at w t]> w).
Proof. done. Qed.

Lemma field_insert w l l' o k :
  field (set_objs <[l := o]> w) l' k
  = if decide (l = l') then default VUndef (o !! k) else field w l' k.
Proof. unfold field. rewrite obj_at_insert. by case_decide. Qed.

Lemma field_Some w l k v : field w l k = v → v ≠ VUndef → obj_at w l !! k = Some v.
Proof.
  unfold field. destruct (obj_at w l !! k) as [x|]; simpl; [congruence|].
  intros <-. done.
Qed.

Lemma set_by_arr_key w l u x :
  u ≠ "length" →
  set_by (VArr l) (VStr u) x w
  = (Ret tt, set_arrs <[l := Array (elems (arr_at w l)) (<[u := x]> (keyed (arr_at w l)))]> w).
Proof.
  intros Hu. unfold set_by, set, modify. by rewrite (proj2 (String.eqb_neq u "length") Hu).
Qed.

Lemma count_down_nat (n : nat) w : count_down (VNum (Z.of_nat n)) w = (Ret n, w).
Proof.
  unfold count_down. rewrite bind_to_number_num.
  destruct (Z.leb_spec 0 (Z.of_nat n)); [|lia]. by rewrite Nat2Z.id.
Qed.

Section UpdateMasterLoop.

Variable resolveURL : val → val → val.
Variables (w : world) (lm lp ld ls : loc) (pls segs : list loc) (u : string) (q : Z).

Hypothesis Hplaylists : field w lm "playlists" = VArr lp.
Hypothesis Hlp : is_Some (arrs w !! lp).
Hypothesis Hpls : elems (arr_at w lp) = VObj <$> pls.
Hypothesis Huri : field w ld "uri" = VStr u.
Hypothesis Hu : u ≠ "length".
Hypothesis Hsegments : field w ld "segments" = VArr ls.
Hypothesis Hls : is_Some (arrs w !! ls).
Hypothesis Hsegs : elems (arr_at w ls) = VObj <$> segs.
Hypothesis Hseq : field w ld "mediaSequence" = VNum q.
Hypothesis Hok : refresh_okb w lm ld pls segs = true.

Lemma refresh_ok_facts :
  NoDup pls ∧ NoDup segs ∧ (lm ∉ pls) ∧ (ld ∉ pls) ∧
  (∀ p, p ∈ pls →
     field w p "segments" = VUndef ∨
     ∃ a, field w p "segments" = VArr a ∧ is_Some (arrs w !! a)) ∧
  (∀ s, s ∈ segs →
     (s ∉ pls) ∧ key_okb (field w s "key") = true ∧ key_okb (field w s "map") = true).
Proof.
  unfold refresh_okb in Hok.
  apply andb_true_iff in Hok as [H5 Hs].
  apply andb_true_iff in H5 as [H4 Hp].
  apply andb_true_iff in H4 as [H3 Hd].
  apply andb_true_iff in H3 as [H2 Hm].
  apply andb_true_iff in H2 as [H1 H2].
  apply bool_decide_eq_true in H1, H2, Hm, Hd.
  rewrite forallb_forall in Hp, Hs.
  split; [done|]. split; [done|]. split; [done|]. split; [done|]. split.
  - intros p Hin. apply list_elem_of_In in Hin. specialize (Hp p Hin).
    unfold ref_okb in Hp.
    destruct (field w p "segments") as [| | | | | | |a]; try done; [by left|].
    right. exists a. split; [done|]. by apply bool_decide_eq_true in Hp.
  - intros s Hin. apply list_elem_of_In in Hin. specialize (Hs s Hin).
    unfold segment_okb in Hs.
    apply andb_true_iff in Hs as [[Hs1 Hs2]%andb_true_iff Hs3].
    by apply bool_decide_eq_true in Hs1.
Qed.

Lemma no_op_agrees n p w1 :
  pls !! n = Some p → agrees_except (drop (S n) pls) w w1 →
  (p ∉ drop (S n) pls) ∧ (lm ∉ drop (S n) pls) ∧ (ld ∉ drop (S n) pls) ∧
  no_op w1 p ld = no_op w p ld.
Proof.
  intros Hn Hag.
  destruct refresh_ok_facts as (Hnd & _ & Hm & Hd & Hrefs & _).
  assert (Hsub : ∀ l, l ∈ drop (S n) pls → l ∈ pls).
  { intros l Hl. rewrite <- (take_drop (S n) pls). apply elem_of_app. by right. }
  assert (Hp : p ∉ drop (S n) pls).
  { intros Hin. apply list_elem_of_lookup in Hin as [j Hj]. rewrite lookup_drop in Hj.
    pose proof (NoDup_lookup _ _ _ _ Hnd Hn Hj). lia. }
  split; [done|]. split; [by intros ?%Hsub|]. split; [by intros ?%Hsub|].
  assert (Hpin : p ∈ pls) by (by eapply list_elem_of_lookup_2).
  unfold no_op, segment_count.
  rewrite !(agrees_except_field _ _ _ _ _ Hag) by (done || by intros ?%Hsub).
  rewrite Hsegments. destruct Hls as [a Ha].
  destruct (agrees_except_elems _ _ _ _ _ Hag Ha) as [_ ->].
  rewrite (arr_at_Some _ _ _ Ha).
  destruct (Hrefs p Hpin) as [-> | (b & -> & [b' Hb])]; [done|].
  destruct (agrees_except_elems _ _ _ _ _ Hag Hb) as [_ ->].
  by rewrite (arr_at_Some _ _ _ Hb).
Qed.

Lemma updateMaster_step_run n p c w1 :
  pls !! n = Some p → agrees_except (drop (S n) pls) w w1 →
  ∃ w2, updateMaster_step resolveURL (VObj lm) (VObj ld) (Z.of_nat n) c w1
          = (Ret (c || (same_uri w p ld && negb (no_op w p ld))), w2) ∧
        agrees_except (drop n pls) w w2 ∧
        turn_effect (same_uri w p ld && negb (no_op w p ld)) w1 w2 lp ld p segs.
Proof.
  intros Hn Hag.
  destruct refresh_ok_facts as (Hnd & Hnds & Hm & Hd & Hrefs & Hsegok).
  destruct (no_op_agrees n p w1 Hn Hag) as (Hp & Hm' & Hd' & Hnoop).
  assert (Hpin : p ∈ pls) by (by eapply list_elem_of_lookup_2).
  assert (Hweak : agrees_except (drop n pls) w w1).
  { eapply agrees_except_weaken; [|exact Hag].
    intros l Hl. rewrite (drop_S _ _ _ Hn). by apply elem_of_cons; right. }
  destruct Hlp as [ap Hap]. destruct Hls as [as_ Has].
  destruct (agrees_except_elems _ _ _ _ _ Hag Hap) as [[ap1 Hap1] Hel1].
  destruct (agrees_except_elems _ _ _ _ _ Hag Has) as [[as1 Has1] Hels1].
  rewrite (arr_at_Some _ _ _ Hap) in Hpls. rewrite (arr_at_Some _ _ _ Has) in Hsegs.
  rewrite Hpls in Hel1. rewrite Hsegs in Hels1.
  assert (F_pl : field w1 lm "playlists" = VArr lp)
    by (by rewrite (agrees_except_field _ _ _ _ _ Hag)).
  assert (F_pu : field w1 p "uri" = field w p "uri")
    by (by rewrite (agrees_except_field _ _ _ _ _ Hag)).
  assert (F_ps : field w1 p "segments" = field w p "segments")
    by (by rewrite (agrees_except_field _ _ _ _ _ Hag)).
  assert (F_du : field w1 ld "uri" = VStr u)
    by (by rewrite (agrees_except_field _ _ _ _ _ Hag)).
  assert (F_ds : field w1 ld "segments" = VArr ls)
    by (by rewrite (agrees_except_field _ _ _ _ _ Hag)).
  assert (F_dq : field w1 ld "mediaSequence" = VNum q)
    by (by rewrite (agrees_except_field _ _ _ _ _ Hag)).
  unfold updateMaster_step. mrun. rewrite F_pl.
  erewrite bind_Ret by apply get_idx_arr. rewrite Hel1, list_lookup_fmap, Hn.
  change (default VUndef (VObj <$> Some p)) with (VObj p).
  mrun. rewrite F_pu, F_du. unfold same_uri. rewrite Huri.
  destruct (strict_eq (field w p "uri") (VStr u)) eqn:Esame; cbn [andb].
  2:{ rewrite orb_false_r. exists w1. split; [done|]. split; [done|]. reflexivity. }
  erewrite bind_Ret.
  2:{ apply (unchanged_run _ _ _ ls); [|done]. rewrite F_ps.
      destruct (Hrefs p Hpin) as [-> | (b & -> & _)]; eauto. }
  rewrite Hnoop. destruct (no_op w p ld) eqn:Enoop; cbn [negb].
  { rewrite orb_false_r. exists w1. split; [done|]. split; [done|]. reflexivity. }
  rewrite orb_true_r.
  assert (Hne_m : p ≠ lm) by (by intros ->).
  assert (Hne_d : p ≠ ld) by (by intros ->).
  assert (Hlen : (n < length (elems (arr_at w1 lp)))%nat).
  { rewrite Hel1, length_fmap. by eapply lookup_lt_Some. }
  assert (Hd_uri : obj_at w1 ld !! "uri" = Some (VStr u)) by (by apply field_Some).
  assert (Hd_segs : obj_at w1 ld !! "segments" = Some (VArr ls)) by (by apply field_Some).
  assert (Hd_seq : obj_at w1 ld !! "mediaSequence" = Some (VNum q)) by (by apply field_Some).
  (* result.playlists[i] = Object.assign(playlist, media) *)
  mrun. rewrite F_pl, bind_assign_obj.
  set (w2 := set_objs <[p := obj_at w1 ld ∪ obj_at w1 p]> w1).
  erewrite bind_Ret by (by apply set_idx_arr).
  change (arr_at w2 lp) with (arr_at w1 lp). rewrite Hel1.
  rewrite list_insert_id by (by rewrite list_lookup_fmap, Hn).
  set (w3 := set_arrs <[lp := Array (VObj <$> pls) (keyed (arr_at w1 lp))]> w2).
  assert (G3 : ∀ l k, l ≠ p → field w3 l k = field w1 l k).
  { intros l k Hl. subst w3 w2. autorewrite with store.
    by rewrite field_insert, decide_False. }
  assert (G3p : ∀ k v, obj_at w1 ld !! k = Some v → field w3 p k = v).
  { intros k v Hk. subst w3 w2. autorewrite with store.
    rewrite field_insert, decide_True by done.
    by rewrite (lookup_union_Some_l _ _ _ _ Hk). }
  (* result.playlists[media.uri] = result.playlists[i] *)
  mrun. rewrite !G3, F_pl, F_du by done.
  erewrite bind_Ret by apply get_idx_arr.
  replace (elems (arr_at w3 lp)) with (VObj <$> pls)
    by (subst w3; by rewrite arr_at_insert, decide_True).
  rewrite list_lookup_fmap, Hn. change (default VUndef (VObj <$> Some p)) with (VObj p).
  erewrite bind_Ret by (by apply set_by_arr_key).
  replace (arr_at w3 lp) with (Array (VObj <$> pls) (keyed (arr_at w1 lp)))
    by (subst w3; by rewrite arr_at_insert, decide_True).
  cbn [elems keyed].
  set (w4 := set_arrs <[lp := Array (VObj <$> pls) (<[u := VObj p]> (keyed (arr_at w1 lp)))]> w3).
  assert (G4 : ∀ l k, field w4 l k = field w3 l k) by done.
  assert (O4 : ∀ l, l ≠ p → obj_at w4 l = obj_at w1 l).
  { intros l Hl. subst w4 w3 w2. autorewrite with store.
    by rewrite obj_at_insert, decide_False. }
  assert (E4 : elems (arr_at w4 lp) = VObj <$> pls)
    by (subst w4; by rewrite arr_at_insert, decide_True).
  assert (A4 : ∀ l a, arrs w1 !! l = Some a →
            ∃ a', arrs w4 !! l = Some a' ∧ elems a' = elems a).
  { intros l a Hl. subst w4 w3 w2. simpl.
    destruct (decide (lp = l)) as [<-|N].
    - rewrite lookup_insert_eq. eexists. split; [done|]. simpl.
      rewrite Hap1 in Hl. injection Hl as <-. by rewrite <- Hel1, (arr_at_Some _ _ _ Hap1).
    - rewrite !lookup_insert_ne by done. eauto. }
  (* result.playlists[i].segments = updateSegments(playlist.segments, ...) *)
  mrun. rewrite G4, (G3p "segments" (VArr ls)) by done.
  change (truthy (VArr ls)) with true. unfold when.
  mrun. rewrite G4, G3, F_pl by done.
  erewrite bind_Ret by apply get_idx_arr.
  rewrite E4, list_lookup_fmap, Hn. change (default VUndef (VObj <$> Some p)) with (VObj p).
  mrun. rewrite !G4, (G3p "segments" (VArr ls)), (G3p "mediaSequence" (VNum q)) by done.
  rewrite !G3, F_ds, F_dq by done.
  unfold js_sub. mrun. rewrite Z.sub_diag.
  destruct (A4 ls as1 Has1) as (as4 & Has4 & Hels4).
  destruct (updateSegments_self w4 ls as4 segs Has4) as (w5 & Hrun5 & Harr5 & Hobj5);
    [by rewrite Hels4, <- Hels1, (arr_at_Some _ _ _ Has1) | done |].
  erewrite bind_Ret by exact Hrun5.
  set (r := fresh (dom (arrs w4))) in *.
  rewrite bind_set_obj.
  set (w6 := set_objs <[p := <["segments" := VArr r]> (obj_at w5 p)]> w5).
  assert (Hr_lp : r ≠ lp).
  { destruct (A4 lp ap1 Hap1) as (a' & Ha' & _). by eapply fresh_arr. }
  assert (O6 : ∀ l, l ≠ p → obj_at w6 l = obj_at w1 l).
  { intros l Hl. subst w6. rewrite obj_at_insert, decide_False by done.
    rewrite Hobj5. by apply O4. }
  assert (Hready : resolve_ready w6 lm lp n p r segs).
  { unfold resolve_ready. split; [|split; [|split; [|split]]].
    - unfold field. rewrite O6 by done. exact F_pl.
    - subst w6. rewrite arr_at_set_objs. unfold arr_at.
      rewrite Harr5, lookup_insert_ne by done. fold (arr_at w4 lp).
      by rewrite E4, list_lookup_fmap, Hn.
    - subst w6. rewrite field_insert, decide_True by done.
      by rewrite lookup_insert_eq.
    - subst w6. rewrite arr_at_set_objs. unfold arr_at.
      rewrite Harr5, lookup_insert_eq. simpl.
      by rewrite Hels4, <- Hels1, (arr_at_Some _ _ _ Has1).
    - intros s Hs. destruct (Hsegok s Hs) as (Hs_pls & Hkey & Hmap).
      assert (s ≠ p) by (by intros ->).
      assert (s ∉ drop (S n) pls).
      { intros Hin. apply Hs_pls. rewrite <- (take_drop (S n) pls).
        apply elem_of_app. by right. }
      unfold field. rewrite !O6 by done. fold (field w1 s "key") (field w1 s "map").
      by rewrite !(agrees_except_field _ _ _ _ _ Hag). }
  (* resolve any missing segment and key URIs *)
  mrun. replace (field w6 lm "playlists") with (VArr lp) by (symmetry; apply Hready).
  erewrite bind_Ret by apply get_idx_arr.
  replace (elems (arr_at w6 lp) !! n) with (Some (VObj p)) by (symmetry; apply Hready).
  change (default VUndef (Some (VObj p))) with (VObj p).
  mrun. replace (field w6 p "segments") with (VArr r) by (symmetry; apply Hready).
  change (truthy (VArr r)) with true. cbv iota.
  erewrite bind_Ret by apply get_length_arr.
  replace (elems (arr_at w6 r)) with (VObj <$> segs) by (symmetry; apply Hready).
  rewrite length_fmap.
  erewrite bind_Ret by apply count_down_nat.
  destruct (resolve_loop_run resolveURL lm lp n p r segs (length segs) w6 Hready)
    as (w7 & Hrun7 & [Harr7 Hobj7]); [done|].
  erewrite bind_Ret by exact Hrun7.
  exists w7. split; [done|]. split.
  { rewrite (drop_S _ _ _ Hn). apply (agrees_except_trans _ [p] _ w1); [exact Hag|].
    split.
    - intros l a Hl. destruct (A4 l a Hl) as (a' & Ha' & Hel').
      exists a'. split; [|done]. rewrite Harr7. subst w6. simpl. rewrite Harr5.
      rewrite lookup_insert_ne; [done|]. by eapply fresh_arr.
    - intros l k Hl Hk. rewrite Hobj7 by done. rewrite O6; [done|].
      intros ->. apply Hl. by apply list_elem_of_singleton. }
  assert (A7 : arrs w7 = <[r := Array (VObj <$> segs) ∅]> (arrs w4)).
  { rewrite Harr7. change (arrs w6) with (arrs w5). rewrite Harr5. do 2 f_equal.
    by rewrite Hels4, <- Hels1, (arr_at_Some _ _ _ Has1). }
  split; [|split; [|split]].
  - exists r. split; [|split].
    + destruct (arrs w1 !! r) as [a|] eqn:E; [|done].
      destruct (A4 r a E) as (a' & Ha' & _). by destruct (fresh_arr _ _ _ Ha').
    + unfold field. rewrite Hobj7 by done. subst w6.
      by rewrite obj_at_insert, decide_True, lookup_insert_eq.
    + by rewrite A7, lookup_insert_eq.
  - intros k Hk Hk'. rewrite Hobj7 by done. subst w6.
    rewrite obj_at_insert, decide_True, lookup_insert_ne by done.
    rewrite Hobj5. subst w4 w3 w2. autorewrite with store.
    by rewrite obj_at_insert, decide_True.
  - intros l k Hl Hk. rewrite Hobj7 by done. by apply (f_equal (λ o, o !! k)), O6.
  - intros l a Hl Ha. rewrite A7. destruct (A4 l a Ha) as (a' & Ha' & _).
    rewrite lookup_insert_ne by (by eapply fresh_arr).
    subst w4 w3 w2. simpl. by rewrite !lookup_insert_ne.
Qed.

Lemma updateMaster_loop_run n : ∀ c w1,
  (n ≤ length pls)%nat → agrees_except (drop n pls) w w1 →
  ∃ w2, while_down n (updateMaster_step resolveURL (VObj lm) (VObj ld)) c w1
          = (Ret (c || existsb (λ p, same_uri w p ld && negb (no_op w p ld)) (take n pls)),
             w2) ∧
        agrees_except pls w w2.
Proof.
  induction n as [|n IH]; intros c w1 Hn Hag.
  { exists w1. simpl. rewrite orb_false_r. done. }
  destruct (lookup_lt_is_Some_2 pls n) as [p Hp]; [lia|].
  destruct (updateMaster_step_run n p c w1 Hp Hag) as (w2 & Hrun2 & Hag2 & _).
  destruct (IH (c || (same_uri w p ld && negb (no_op w p ld))) w2) as (w3 & Hrun3 & Hag3);
    [lia | done |].
  exists w3. split; [|done].
  cbn [while_down]. erewrite bind_Ret by exact Hrun2. rewrite Hrun3.
  rewrite (take_S_r _ _ _ Hp), existsb_app. simpl existsb.
  f_equal. f_equal. rewrite orb_false_r, <- orb_assoc. f_equal. apply orb_comm.
Qed.



End UpdateMasterLoop.


(** ** [haveMetadata] *)

Section HaveMetadata.

Variable resolveURL : val → val → val.
Variable m3u8_Parser : val → M val.

(** [haveMetadata] reads the parser under two names, [mainfest] and
    [manifest].  Under a parser without a [mainfest] property the assignment
    [parser.mainfest.uri = url] throws: the playlist is not merged and no
    timer is armed, the world is left as the parser left it. *)
Lemma haveMetadata_mainfest w x url pr w' :
  m3u8_Parser (field w x "responseText")
    (set_this (with_state HAVE_METADATA)
       (set_this (with_bandwidth (field w x "bandwidth")) w)) = (Ret (VObj pr), w') →
  field w' pr "mainfest" = VUndef →
  haveMetadata resolveURL m3u8_Parser (VObj x) url w = (Throw TypeError, w').
Proof.
  intros Hparse Hfield. unfold haveMetadata, setBandwidth, write. mrun.
  autorewrite with store. erewrite bind_Ret by exact Hparse.
  mrun. by rewrite Hfield.
Qed.

End HaveMetadata.

(** C6 (defect of the code).  A refresh of [a.m3u8] (target duration 6) that
    moves the playlist from sequence 5 to sequence 6 should arm the timer at
    6000 ms.  With the parser of [m3u8-parser], whose result is its [manifest]
    property, [haveMetadata] throws at [parser.mainfest.uri = url], after it
    has set the state: the playlist is not merged, the delay is left at the
    3000 ms it had and no timer is armed. *)
Theorem haveMetadata_throws :
  let run := haveMetadata join_url (parsed 6) (VObj 10) (VStr "a.m3u8") response_store in
  fst run = Throw TypeError ∧
  state (this (snd run)) = HAVE_METADATA ∧
  field (snd run) 2 "mediaSequence" = VNum 5 ∧
  refreshDelay (this (snd run)) = VNum 3000 ∧
  mediaUpdateTimeout (this (snd run)) = VNull ∧
  timers (snd run) = ∅.
Proof. by vm_compute. Qed.

(** Were the manifest reached under both names, the delays would be the ones
    of the specification: 6000 ms after the material update, and after the
    no-op update half of the 6000 ms computed from its target duration, which
    is 3000 ms again and not half of the 3000 ms of the refresh before.  The
    material update drops one segment of 6 seconds off the window, yet the
    expired time stays at 30: the tracker reads the old sequence from the
    active playlist, which [updateMaster] has already overwritten in place
    with the update. *)
Lemma haveMetadata_delays :
  let material :=
    haveMetadata join_url (parsed_under_both_names 6) (VObj 10) (VStr "a.m3u8")
      response_store in
  let noop :=
    haveMetadata join_url (parsed_under_both_names 11) (VObj 10) (VStr "a.m3u8")
      response_store in
  refreshDelay (this response_store) = VNum 3000 ∧
  fst material = Ret tt ∧
  refreshDelay (this (snd material)) = VNum 6000 ∧
  expired_ (this response_store) = VNum 30 ∧
  expired_ (this (snd material)) = VNum 30 ∧
  (∃ id, mediaUpdateTimeout (this (snd material)) = VNum id ∧
         timers (snd material) !! id = Some (VNum 6000)) ∧
  fst noop = Ret tt ∧
  refreshDelay (this (snd noop)) = VNum 3000 ∧
  (∃ id, mediaUpdateTimeout (this (snd noop)) = VNum id ∧
         timers (snd noop) !! id = Some (VNum 3000)).
Proof.
  cbv zeta. repeat split; try (by vm_compute).
  - eexists. split; by vm_compute.
  - eexists. split; by vm_compute.
Qed.

(** ** Further properties of [updateSegments] *)

(** X1.  An empty update never touches the store's objects, whatever the
    offset: for every original array and every offset, absent, zero, positive
    or negative, [updateSegments] returns a new empty array and changes
    nothing else.  The loop bound [Math.min(original.length, 0 + offset)] is
    never above the loop's start. *)
Theorem updateSegments_empty_update w lo lu orig upd (offset : val) :
  arrs w !! lo = Some orig → arrs w !! lu = Some upd → elems upd = [] →
  (offset = VUndef ∨ ∃ z, offset = VNum z) →
  updateSegments (VArr lo) (VArr lu) offset w
  = (Ret (VArr (fresh (dom (arrs w)))),
     set_arrs <[fresh (dom (arrs w)) := Array [] ∅]> w).
Proof.
  intros Hlo Hlu Hempty Hoff.
  set (r := fresh (dom (arrs w))).
  assert (Hrlo : r ≠ lo) by (by eapply fresh_arr).
  assert (Hrlu : r ≠ lu) by (by eapply fresh_arr).
  assert (Hor : ∃ z, js_or offset (VNum 0) = VNum z).
  { destruct Hoff as [-> | [z ->]]; [by exists 0%Z|]. exists z. apply js_or_num. }
  destruct Hor as [z Hz].
  unfold updateSegments.
  erewrite bind_Ret; [|unfold slice; rewrite (arr_at_Some _ _ _ Hlu); reflexivity].
  fold r. rewrite Hz, Hempty.
  erewrite bind_Ret by apply get_length_arr.
  erewrite bind_Ret by apply get_length_arr.
  rewrite !arr_at_insert, !decide_False by done.
  rewrite (arr_at_Some _ _ _ Hlo), (arr_at_Some _ _ _ Hlu), Hempty.
  cbv [js_add Math_min arith bind to_number ret of_number].
  replace (Z.to_nat _) with 0%nat by (simpl length; lia).
  reflexivity.
Qed.

Lemma updateSegments_empty_update_witness :
  updateSegments (VArr 1) (VArr 2) (VNum (-3)) switching_store
  = (Ret (VArr 3), set_arrs <[3%positive := Array [] ∅]> switching_store).
Proof.
  apply (updateSegments_empty_update switching_store 1 2
           (Array [VObj 2; VObj 3] (object [("a.m3u8", VObj 2); ("b.m3u8", VObj 3)]))
           (Array [] ∅) (VNum (-3))).
  - reflexivity.
  - reflexivity.
  - reflexivity.
  - right. by exists (-3)%Z.
Defined.

(** X2.  Merging a second time with the same arguments changes nothing more:
    the second call returns an array with the same segments as the first, and
    leaves every object as the first call left it.  The overlay of an update
    segment on an original that already carries it is the identity. *)
Theorem updateSegments_twice w lo lu orig upd (off : nat) :
  arrs w !! lo = Some orig → arrs w !! lu = Some upd →
  window_okb (elems orig) (elems upd) off = true →
  ∃ r w' r' w'',
    updateSegments (VArr lo) (VArr lu) (VNum (Z.of_nat off)) w = (Ret (VArr r), w') ∧
    updateSegments (VArr lo) (VArr lu) (VNum (Z.of_nat off)) w' = (Ret (VArr r'), w'') ∧
    r' ≠ r ∧
    elems (arr_at w'' r') = elems (arr_at w' r) ∧
    (∀ l, obj_at w'' l = obj_at w' l).
Proof.
  intros Hlo Hlu Hwin%window_okb_spec.
  destruct (updateSegments_run w lo lu orig upd off Hlo Hlu Hwin) as (w' & Hrun & Hinv).
  set (r := fresh (dom (arrs w))) in *.
  assert (Hrlo : r ≠ lo) by (by eapply fresh_arr).
  assert (Hrlu : r ≠ lu) by (by eapply fresh_arr).
  pose proof (merged_upto_result _ _ _ _ _ _ _ Hinv) as Hres.
  destruct Hinv as (Ha & Hin & Hout & _).
  assert (Hlo' : arrs w' !! lo = Some orig) by (by rewrite Ha, lookup_insert_ne).
  assert (Hlu' : arrs w' !! lu = Some upd) by (by rewrite Ha, lookup_insert_ne).
  destruct (updateSegments_run w' lo lu orig upd off Hlo' Hlu' Hwin) as (w'' & Hrun' & Hinv').
  set (r' := fresh (dom (arrs w'))) in *.
  pose proof (merged_upto_result _ _ _ _ _ _ _ Hinv') as Hres'.
  destruct Hinv' as (Ha' & Hin' & Hout' & _).
  destruct Hwin as (Hobj_o & Hobj_u & Hnodup & Hsep).
  exists r, w', r', w''. split; [done|]. split; [done|]. split.
  { apply (fresh_arr w' r (Array (take (overlap (elems orig) (elems upd) off)
                                   (drop off (elems orig))
                                 ++ drop (overlap (elems orig) (elems upd) off) (elems upd)) ∅)).
    by rewrite Ha, lookup_insert_eq. }
  split; [by rewrite Hres, Hres'|].
  intros l.
  destruct (decide (VObj l ∈ take (overlap (elems orig) (elems upd) off)
                                  (drop off (elems orig)))) as [Y|N].
  - apply list_elem_of_lookup in Y as [i Y].
    apply lookup_take_Some in Y as [E Hi]. rewrite lookup_drop in E.
    destruct (Hobj_u i Hi) as [u Hu].
    rewrite (Hin' i l u Hi E Hu), (Hin i l u Hi E Hu).
    destruct (decide (u = l)) as [->|Hne].
    + rewrite (Hin i l l Hi E Hu). by rewrite map_union_idemp.
    + assert (Hu' : obj_at w' u = obj_at w u).
      { apply Hout. intros i' Hi' E'.
        pose proof (Hsep i' i u Hi' E' Hu) as ->. congruence. }
      rewrite Hu'. by rewrite (assoc_L (∪)), map_union_idemp.
  - apply Hout'. intros i Hi E. apply N.
    apply list_elem_of_lookup. exists i. apply lookup_take_Some.
    by rewrite lookup_drop.
Qed.

Lemma updateSegments_twice_witness :
  ∃ r w' r' w'',
    updateSegments (VArr 1) (VArr 2) (VNum 3) segments_store = (Ret (VArr r), w') ∧
    updateSegments (VArr 1) (VArr 2) (VNum 3) w' = (Ret (VArr r'), w'') ∧
    obj_at w'' 4 = obj_at w' 4.
Proof.
  destruct (updateSegments_twice segments_store 1 2
              (Array [VObj 1; VObj 2; VObj 3; VObj 4; VObj 5] ∅)
              (Array [VObj 6; VObj 7] ∅) 3)
    as (r & w' & r' & w'' & Hrun & Hrun' & _ & _ & Hobj).
  - reflexivity.
  - reflexivity.
  - reflexivity.
  - exists r, w', r', w''. split; [exact Hrun|]. split; [exact Hrun'|]. apply Hobj.
Defined.

(** ** Further properties of [updateMaster] *)

Lemma same_store_field w w' l k :
  (∀ l, obj_at w' l = obj_at w l) → field w' l k = field w l k.
Proof. intros H. unfold field. by rewrite H. Qed.

Lemma same_store_arr w w' l : arrs w' = arrs w → arr_at w' l = arr_at w l.
Proof. intros H. unfold arr_at. by rewrite H. Qed.

Lemma same_store_same_uri w w' p ld :
  (∀ l, obj_at w' l = obj_at w l) → same_uri w' p ld = same_uri w p ld.
Proof. intros H. unfold same_uri. by rewrite !(same_store_field _ _ _ _ H). Qed.

Lemma same_store_no_op w w' p ld :
  (∀ l, obj_at w' l = obj_at w l) → arrs w' = arrs w → no_op w' p ld = no_op w p ld.
Proof.
  intros H Ha. unfold no_op, segment_count.
  rewrite !(same_store_field _ _ _ _ H).
  destruct (field w p "segments"), (field w ld "segments");
    by rewrite ?(same_store_arr _ _ _ Ha).
Qed.

Section UpdateMasterEdges.

Variable resolveURL : val → val → val.

(** The first two statements of [updateMaster]: [Object.assign(master, {})]
    allocates an empty object and leaves every object as it was. *)
Lemma updateMaster_prologue w lm media :
  ∃ w0,
    (∀ l, obj_at w0 l = obj_at w l) ∧ arrs w0 = arrs w ∧ this w0 = this w ∧
    timers w0 = timers w ∧ clock w0 = clock w ∧ trace w0 = trace w ∧
    updateMaster resolveURL (VObj lm) media w =
      (do pls <- get (VObj lm) "playlists";
       do i <- get pls "length";
       do n <- count_down i;
       do changed <- while_down n (updateMaster_step resolveURL (VObj lm) media) false;
       ret (if changed : bool then VObj lm else VNull)) w0.
Proof.
  unfold updateMaster, new_object. unfold bind at 1.
  set (e := fresh (dom (objs w))).
  rewrite bind_assign_obj.
  set (w0 := set_objs _ (set_objs _ w)).
  exists w0. repeat split; try done.
  assert (He : obj_at w e = ∅).
  { unfold obj_at, e. by rewrite (proj1 (not_elem_of_dom _ _) (is_fresh (dom (objs w)))). }
  intros l. subst w0. rewrite !obj_at_insert.
  rewrite (decide_True (P := e = e)) by done.
  rewrite (left_id_L ∅ (∪)).
  destruct (decide (lm = l)) as [<-|]; [by case_decide; subst|].
  case_decide; [by subst|done].
Qed.

(** X3.  [updateMaster] needs a loaded master: when the master is [undefined]
    or [null], as [this.master] is before a master playlist has been
    installed, or when it has no [playlists], the call throws a TypeError and
    every object of the store is left as it was. *)
Theorem updateMaster_without_master w master media :
  (master = VUndef ∨ master = VNull ∨
   ∃ lm, master = VObj lm ∧
         (field w lm "playlists" = VUndef ∨ field w lm "playlists" = VNull)) →
  fst (updateMaster resolveURL master media w) = Throw TypeError ∧
  ∀ l, obj_at (snd (updateMaster resolveURL master media w)) l = obj_at w l.
Proof.
  assert (Hfresh : ∀ l,
    obj_at (set_objs <[fresh (dom (objs w)) := ∅]> w) l = obj_at w l).
  { intros l. rewrite obj_at_insert. case_decide as E; [|done]. subst l.
    unfold obj_at. by rewrite (proj1 (not_elem_of_dom _ _) (is_fresh (dom (objs w)))). }
  intros [-> | [-> | (lm & -> & Hp)]]; [by split | by split |].
  destruct (updateMaster_prologue w lm media) as (w0 & Hobj & _ & _ & _ & _ & _ & ->).
  rewrite bind_get_obj, (same_store_field _ _ _ _ Hobj).
  by destruct Hp as [-> | ->].
Qed.

(** A turn of the loop on a playlist that has another uri, or that the update
    leaves unchanged, does nothing. *)
Lemma updateMaster_step_skip w1 lm lp ld n p c :
  field w1 lm "playlists" = VArr lp → elems (arr_at w1 lp) !! n = Some (VObj p) →
  implb (same_uri w1 p ld) (no_op w1 p ld) = true →
  updateMaster_step resolveURL (VObj lm) (VObj ld) (Z.of_nat n) c w1 = (Ret c, w1).
Proof.
  intros Hp Hn Hskip. unfold updateMaster_step. mrun. rewrite Hp.
  erewrite bind_Ret by apply get_idx_arr. rewrite Hn. simpl default.
  mrun. fold (same_uri w1 p ld).
  destruct (same_uri w1 p ld); [|done]. simpl in Hskip.
  assert (Hshape : ∃ a ls, field w1 p "segments" = VArr a ∧ field w1 ld "segments" = VArr ls).
  { unfold no_op, segment_count in Hskip.
    destruct (field w1 p "segments") as [| | | | | | |a]; try done.
    destruct (field w1 ld "segments") as [| | | | | | |ls]; try done. eauto. }
  destruct Hshape as (a & ls & Ha & Hls).
  erewrite bind_Ret by (apply (unchanged_run _ _ _ ls); eauto).
  by rewrite Hskip.
Qed.

Lemma updateMaster_loop_skip w1 lm lp ld pls c :
  field w1 lm "playlists" = VArr lp → elems (arr_at w1 lp) = VObj <$> pls →
  forallb (λ p, implb (same_uri w1 p ld) (no_op w1 p ld)) pls = true →
  ∀ n, (n ≤ length pls)%nat →
    while_down n (updateMaster_step resolveURL (VObj lm) (VObj ld)) c w1 = (Ret c, w1).
Proof.
  intros Hp Hel Hall. induction n as [|n IH]; intros Hn; [done|].
  destruct (lookup_lt_is_Some_2 pls n) as [p Hpn]; [lia|].
  cbn [while_down]. erewrite bind_Ret; [apply IH; lia|].
  apply (updateMaster_step_skip _ _ lp _ _ p); [done| |].
  - by rewrite Hel, list_lookup_fmap, Hpn.
  - rewrite forallb_forall in Hall. apply Hall, list_elem_of_In.
    by eapply list_elem_of_lookup_2.
Qed.

(** X4.  A refresh that [updateMaster] answers with [null] has changed
    nothing: when every playlist of the master has another uri than the
    update, or the segment count and media sequence of the update, the call
    returns [null] and leaves every object and array, the loader, the timers
    and the trace of effects as they were (the only trace of the call is the
    empty object it allocates for [Object.assign(master, {})]). *)
Theorem updateMaster_null_frame w lm lp ld pls :
  field w lm "playlists" = VArr lp → elems (arr_at w lp) = VObj <$> pls →
  forallb (λ p, implb (same_uri w p ld) (no_op w p ld)) pls = true →
  ∃ w', updateMaster resolveURL (VObj lm) (VObj ld) w = (Ret VNull, w') ∧
        (∀ l, obj_at w' l = obj_at w l) ∧ arrs w' = arrs w ∧ this w' = this w ∧
        timers w' = timers w ∧ clock w' = clock w ∧ trace w' = trace w.
Proof.
  intros Hp Hel Hall.
  destruct (updateMaster_prologue w lm (VObj ld))
    as (w0 & Hobj & Harr & Hthis & Htm & Hck & Htr & ->).
  exists w0. split; [|done].
  rewrite bind_get_obj, (same_store_field _ _ _ _ Hobj), Hp.
  erewrite bind_Ret by apply get_length_arr.
  rewrite (same_store_arr _ _ _ Harr), Hel, length_fmap.
  erewrite bind_Ret by apply count_down_nat.
  assert (Hloop :
    while_down (length pls) (updateMaster_step resolveURL (VObj lm) (VObj ld)) false w0
    = (Ret false, w0)).
  { apply (updateMaster_loop_skip w0 lm lp ld pls false); [| | |done].
    - by rewrite (same_store_field _ _ _ _ Hobj).
    - by rewrite (same_store_arr _ _ _ Harr).
    - rewrite forallb_forall in Hall |- *. intros p Hin.
      rewrite (same_store_same_uri _ _ _ _ Hobj), (same_store_no_op _ _ _ _ Hobj Harr).
      by apply Hall. }
  by erewrite bind_Ret by exact Hloop.
Qed.

End UpdateMasterEdges.

Lemma updateMaster_null_frame_witness :
  ∃ w', updateMaster join_url (VObj 1) (VObj 11) stale_store = (Ret VNull, w') ∧
        ∀ l, obj_at w' l = obj_at stale_store l.
Proof.
  destruct (updateMaster_null_frame join_url stale_store 1 1 11 [2]%positive)
    as (w' & Hrun & Hobj & _).
  - reflexivity.
  - reflexivity.
  - reflexivity.
  - exists w'. split; [exact Hrun | exact Hobj].
Defined.

Lemma updateMaster_without_master_witness :
  fst (updateMaster join_url (master constructed) (VObj 6) refresh_store) = Throw TypeError.
Proof.
  apply (updateMaster_without_master join_url refresh_store (master constructed) (VObj 6)).
  left. reflexivity.
Defined.

(** ** Further properties of the rendition selector *)

Lemma enabled_run w p :
  exclusion_okb w p = true →
  (do ex <- get (VObj p) "excludeUntil";
   if js_not ex then ret true
   else
     do ex <- get (VObj p) "excludeUntil";
     do now <- Date_now;
     js_le ex now) w = (Ret (enabled w p), w).
Proof.
  unfold exclusion_okb, enabled, js_not, Date_now. intros Hok. mrun.
  destruct (truthy (field w p "excludeUntil")) eqn:Et; cbn [negb orb] in *; [|done].
  mrun. by destruct (field w p "excludeUntil").
Qed.

Lemma filter_enabled w pls :
  forallb (exclusion_okb w) pls = true →
  filter_elems (λ element,
    do ex <- get element "excludeUntil";
    if js_not ex then ret true
    else
      do ex <- get element "excludeUntil";
      do now <- Date_now;
      js_le ex now) (VObj <$> pls) w
  = (Ret (VObj <$> List.filter (enabled w) pls), w).
Proof.
  induction pls as [|p pls IH]; [done|]. simpl.
  intros [Hp Hpls]%andb_true_iff.
  erewrite bind_Ret by (by apply enabled_run).
  erewrite bind_Ret by (by apply IH).
  by destruct (enabled w p).
Qed.

Lemma enabledPlaylists_run w lm lp pls :
  master (this w) = VObj lm → field w lm "playlists" = VArr lp →
  elems (arr_at w lp) = VObj <$> pls →
  forallb (exclusion_okb w) pls = true →
  enabledPlaylists w
  = (Ret (VNum (Z.of_nat (length (List.filter (enabled w) pls)))),
     set_arrs <[fresh (dom (arrs w)) := Array (VObj <$> List.filter (enabled w) pls) ∅]> w).
Proof.
  intros Hm Hp Hel Hok. unfold enabledPlaylists, read. mrun. rewrite Hm. mrun. rewrite Hp.
  unfold Array_filter. mrun. rewrite Hel.
  erewrite bind_Ret by (by apply filter_enabled).
  unfold new_array, bind at 1. rewrite get_length_arr.
  rewrite arr_at_insert, decide_True by done. simpl elems. by rewrite length_fmap.
Qed.

Lemma filter_length_le {A} (f : A → bool) (l : list A) :
  (length (List.filter f l) ≤ length l)%nat.
Proof. induction l as [|x l IH]; simpl; [lia|]. destruct (f x); simpl; lia. Qed.

Lemma filter_length_mono {A} (f g : A → bool) (l : list A) :
  (∀ x, x ∈ l → f x = true → g x = true) →
  (length (List.filter f l) ≤ length (List.filter g l))%nat.
Proof.
  induction l as [|x l IH]; intros H; simpl; [lia|].
  assert (IH' : (length (List.filter f l) ≤ length (List.filter g l))%nat).
  { apply IH. intros y Hy. apply H. by apply elem_of_cons; right. }
  destruct (f x) eqn:Ef.
  - rewrite (H x) by (done || by apply elem_of_cons; left). simpl. lia.
  - destruct (g x); simpl; lia.
Qed.

(** X5.  [enabledPlaylists] counts the renditions of the master whose
    [excludeUntil] is falsy or not after the current time.  The count is at
    most the number of renditions, and the call changes nothing: it only
    allocates the filtered array. *)
Theorem enabledPlaylists_count w lm lp pls :
  master (this w) = VObj lm → field w lm "playlists" = VArr lp →
  elems (arr_at w lp) = VObj <$> pls →
  forallb (exclusion_okb w) pls = true →
  ∃ n w',
    enabledPlaylists w = (Ret (VNum (Z.of_nat n)), w') ∧
    n = length (List.filter (enabled w) pls) ∧ (n ≤ length pls)%nat ∧
    objs w' = objs w ∧ this w' = this w ∧ timers w' = timers w ∧ trace w' = trace w ∧
    (∀ l a, arrs w !! l = Some a → arrs w' !! l = Some a).
Proof.
  intros Hm Hp Hel Hok.
  eexists _, _. split; [by eapply enabledPlaylists_run|].
  split; [done|]. split; [apply filter_length_le|].
  repeat split. intros l a Hl. simpl.
  rewrite lookup_insert_ne; [done | by eapply fresh_arr].
Qed.

Lemma enabledPlaylists_count_witness :
  ∃ w', enabledPlaylists renditions_store = (Ret (VNum 3), w') ∧
        this w' = this renditions_store.
Proof.
  destruct (enabledPlaylists_count renditions_store 1 1 [2; 3; 4; 5]%positive)
    as (n & w' & Hrun & Hn & _ & _ & Hthis & _).
  - reflexivity.
  - reflexivity.
  - reflexivity.
  - reflexivity.
  - exists w'. split; [|exact Hthis]. rewrite Hrun, Hn. reflexivity.
Defined.

Lemma rendition_exclusion_ok w p : rendition_okb w p = true → exclusion_okb w p = true.
Proof.
  unfold rendition_okb, exclusion_okb. intros [H _]%andb_true_iff.
  destruct (field w p "excludeUntil"); try done. apply orb_true_r.
Qed.

Lemma not_above_enabled w cur p :
  rendition_okb w p = true → not_above w cur p = true → enabled w p = true.
Proof.
  unfold rendition_okb, not_above, eligible, enabled.
  intros [H _]%andb_true_iff [He _]%andb_true_iff.
  destruct (field w p "excludeUntil"); try done.
  simpl. rewrite He. apply orb_true_r.
Qed.

(** The answer of [isLowestEnabledRendition_] when the active playlist has
    attributes. *)
Lemma isLowestEnabledRendition_run resolveURL w lm lp pls a attrs :
  master (this w) = VObj lm → field w lm "playlists" = VArr lp →
  elems (arr_at w lp) = VObj <$> pls →
  forallb (rendition_okb w) pls = true →
  _media (this w) = VObj a → field w a "attributes" = VObj attrs →
  (field w attrs "BANDWIDTH" = VUndef ∨ ∃ b, field w attrs "BANDWIDTH" = VNum b) →
  ∃ w', isLowestEnabledRendition_ resolveURL w
        = (Ret (length (List.filter
                          (not_above w (match field w attrs "BANDWIDTH" with
                                        | VNum b => b | _ => 0%Z end)) pls) <=? 1)%nat, w').
Proof.
  intros Hm Hp Hel Hok Ea Eat Hbw.
  unfold isLowestEnabledRendition_, media, read.
  change (js_not VUndef) with true. cbv iota. mrun. rewrite Ea.
  change (js_not (VObj a)) with false. cbv iota. mrun. rewrite Eat.
  change (negb (truthy (VObj attrs))) with false. cbv iota.
  mrun. rewrite ?Ea. mrun. rewrite ?Eat. mrun. rewrite ?Hm. mrun. rewrite ?Hp.
  set (cur := match field w attrs "BANDWIDTH" with VNum b => b | _ => 0%Z end).
  assert (Hcur : js_or (field w attrs "BANDWIDTH") (VNum 0) = VNum cur).
  { subst cur. destruct Hbw as [-> | [b ->]]; [done | apply js_or_num]. }
  rewrite Hcur. unfold Array_filter. mrun. rewrite Hel.
  erewrite bind_Ret by (by apply filter_lower_or_equal).
  unfold new_array, bind at 1. erewrite bind_Ret by apply get_length_arr.
  rewrite arr_at_insert, decide_True by done. simpl elems.
  rewrite length_fmap. eexists. unfold js_lt, compare, to_number, bind, ret.
  f_equal. f_equal.
  destruct (Nat.leb_spec (length (List.filter (not_above w cur) pls)) 1);
    destruct (Z.ltb_spec 1 (Z.of_nat (length (List.filter (not_above w cur) pls))));
    try done; lia.
Qed.

(** X6.  When [enabledPlaylists] reports at most one enabled rendition and
    the active playlist has attributes, [isLowestEnabledRendition_] answers
    true: a rendition that its filter counts is one that [enabledPlaylists]
    counts. *)
Theorem single_enabled_is_lowest resolveURL w lm lp pls a attrs (n : Z) :
  master (this w) = VObj lm → field w lm "playlists" = VArr lp →
  elems (arr_at w lp) = VObj <$> pls →
  forallb (rendition_okb w) pls = true →
  _media (this w) = VObj a → field w a "attributes" = VObj attrs →
  (field w attrs "BANDWIDTH" = VUndef ∨ ∃ b, field w attrs "BANDWIDTH" = VNum b) →
  fst (enabledPlaylists w) = Ret (VNum n) → (n ≤ 1)%Z →
  fst (isLowestEnabledRendition_ resolveURL w) = Ret true.
Proof.
  intros Hm Hp Hel Hok Ea Eat Hbw Hen Hn.
  rewrite (enabledPlaylists_run w lm lp pls) in Hen; try done.
  2:{ rewrite forallb_forall in Hok |- *. intros p Hin.
      by apply rendition_exclusion_ok, Hok. }
  simpl in Hen. injection Hen as Hen.
  destruct (isLowestEnabledRendition_run resolveURL w lm lp pls a attrs) as [w' ->];
    try done.
  simpl. f_equal. apply Nat.leb_le.
  etransitivity; [apply (filter_length_mono _ (enabled w))|lia].
  intros p Hin. apply not_above_enabled.
  rewrite forallb_forall in Hok. by apply Hok, list_elem_of_In.
Qed.

Lemma single_enabled_is_lowest_witness :
  fst (isLowestEnabledRendition_ join_url unrated_store) = Ret true.
Proof.
  apply (single_enabled_is_lowest join_url unrated_store 1 1 [2]%positive 2 3 1).
  - reflexivity.
  - reflexivity.
  - reflexivity.
  - reflexivity.
  - reflexivity.
  - reflexivity.
  - left. reflexivity.
  - reflexivity.
  - lia.
Defined.

(** ** Further properties of [media] *)

Lemma js_not_str u : u ≠ "" → js_not (VStr u) = false.
Proof. intros Hu. unfold js_not; simpl. by destruct (String.eqb_spec u ""). Qed.

Lemma plain_key_nonempty u : plain_key u = true → u ≠ "".
Proof. by intros H ->. Qed.

Lemma plain_key_not_length u : plain_key u = true → u ≠ "length".
Proof. by intros H ->. Qed.

Lemma field_set_other w x k' v l k :
  k ≠ k' → field (set_objs <[x := <[k' := v]> (obj_at w x)]> w) l k = field w l k.
Proof.
  intros Hk. rewrite field_insert. case_decide; [|done]. subst l.
  rewrite lookup_insert_ne by done. done.
Qed.

Lemma field_set_this_other w f x k' v l k :
  k ≠ k' →
  field (set_objs <[x := <[k' := v]> (obj_at w x)]> (set_this f w)) l k = field w l k.
Proof. intros Hk. by rewrite (field_set_other (set_this f w)), field_set_this. Qed.

Lemma fresh_obj_None w : objs w !! fresh (dom (objs w)) = None.
Proof. apply not_elem_of_dom, is_fresh. Qed.

Lemma fresh_obj_insert_None w x o : objs w !! fresh (dom (<[x := o]> (objs w))) = None.
Proof.
  apply not_elem_of_dom. intros Hin.
  apply (is_fresh (dom (<[x := o]> (objs w)))). rewrite dom_insert in Hin |- *.
  apply elem_of_union. by right.
Qed.

Lemma bind_read {A B} (f : Loader → A) (k : A → M B) w :
  bind (read f) k w = k (f (this w)) w.
Proof. done. Qed.

Lemma bind_write {B} (f : Loader → Loader) (k : unit → M B) w :
  bind (write f) k w = k tt (set_this f w).
Proof. done. Qed.

(** Projections of the loader through its setters. *)
Ltac loader_simpl :=
  autorewrite with store;
  cbn [with_state with_xhr with_media state _xhr _media master mediaUpdateTimeout
       bandwidth refreshDelay targetDuration expired_ trackExpiredTime_ error].

(** Runs the head of a method of the loader, up to a read of [_media]. *)
Ltac lrun tac :=
  repeat (progress (
    repeat first
      [ rewrite bind_assoc | rewrite bind_ret_l | rewrite bind_get_obj
      | rewrite bind_modify | rewrite bind_set_obj | rewrite bind_write
      | rewrite (bind_read master) | rewrite (bind_read _xhr) ];
    loader_simpl; tac)).

Section MediaSwitch.

Variable resolveURL : val → val → val.

(** X7.  A playlist may be named by its uri, when the uri is a plain key
    (it spells no array index and names no built-in member of arrays): for a
    uri registered on [master.playlists], [media(uri)] is [media] of the
    registered playlist; for a uri that is not registered the call throws a
    TypeError, and the loader and the store are left untouched. *)
Theorem media_by_uri w u lm lp :
  plain_key u = true →
  master (this w) = VObj lm → field w lm "playlists" = VArr lp →
  (∀ p, keyed (arr_at w lp) !! u = Some (VObj p) →
        media resolveURL (VStr u) w = media resolveURL (VObj p) w) ∧
  (keyed (arr_at w lp) !! u = None →
   media resolveURL (VStr u) w = (Throw TypeError, w)).
Proof.
  intros Hplain Hm Hp.
  pose proof (plain_key_nonempty u Hplain) as Hu.
  pose proof (plain_key_not_length u Hplain) as Hlen.
  assert (Hhead : ∀ k : val → M val,
    (do playlist <-
       (do m <- read master;
        do pls <- get m "playlists";
        do known <- get_by pls (VStr u);
        do m <- read master;
        do pls <- get m "playlists";
        get_by pls (VStr u));
     k playlist) w = k (default VUndef (keyed (arr_at w lp) !! u)) w).
  { intros k. unfold read. rewrite ?bind_assoc.
    do 2 (rewrite bind_gets, Hm, ?bind_assoc, bind_get_obj; rewrite Hp; rewrite ?bind_assoc;
          erewrite bind_Ret by (by apply get_arr_keyed); rewrite ?bind_assoc).
    done. }
  split.
  - intros p Hk. unfold media. rewrite (js_not_str _ Hu).
    change (js_not (VObj p)) with false.
    change (is_string (VStr u)) with true. change (is_string (VObj p)) with false.
    cbv iota. rewrite Hhead, Hk. simpl default. by rewrite bind_ret_l.
  - intros Hk. unfold media. rewrite (js_not_str _ Hu). simpl is_string. cbv iota.
    rewrite Hhead, Hk. simpl default. unfold read. mrun.
    destruct (js_not (_media (this w))); [|done].
    mrun. rewrite Hm. mrun. by rewrite Hp.
Qed.

Lemma media_change_run w p pu (k : bool → M val) :
  field w p "uri" = VStr pu → ref_or_none (_media (this w)) = true →
  (do mediaChange <-
     (if js_not (_media (this w)) then ret true
      else
        do pu <- get (VObj p) "uri";
        do cur <- read _media;
        do cu <- get cur "uri";
        ret (negb (strict_eq pu cu)));
   k mediaChange) w = k (media_change w pu) w.
Proof.
  intros Hpu Hok. unfold media_change, read.
  destruct (_media (this w)) as [| | | | | |a|] eqn:Ea; try done.
  change (js_not (VObj a)) with false. cbv iota. mrun. by rewrite Hpu, Ea.
Qed.

(** The part of [media] that comes before the test of [endList], for a
    playlist given as an object. *)
Ltac media_head Hpu Hlen Hm Hp Hk Hactive :=
  unfold media; change (js_not (VObj _)) with false;
  change (is_string (VObj _)) with false; cbv iota;
  rewrite bind_ret_l; unfold read at 1; rewrite bind_gets;
  rewrite (media_change_run _ _ _ _ Hpu Hactive);
  unfold read at 1; rewrite bind_gets, Hm, bind_get_obj; rewrite Hp;
  rewrite bind_get_obj; rewrite Hpu;
  erewrite bind_Ret by (by apply get_arr_keyed); rewrite Hk; simpl default;
  rewrite bind_get_obj.

(** The request that ends a switch is never made: [this.trigger] throws when
    a playlist is active, and [this.hls_.xhr] throws otherwise. *)
Lemma media_request_run w2 p lm :
  master (this w2) = VObj lm →
  (do cur <- read _media;
   when (truthy cur) (trigger "mediachanging");;
   do m <- read master;
   do mu <- get m "uri";
   do pu0 <- get (VObj p) "uri";
   do h <- hls_xhr (resolveURL mu pu0);
   write (with_xhr h);;
   ret VUndef) w2
  = (Throw TypeError, w2).
Proof.
  intros Hm. unfold read. rewrite bind_gets.
  destruct (truthy (_media (this w2))); unfold when, trigger, hls_xhr; [done|].
  mrun. rewrite Hm. by mrun.
Qed.

(** X8.  A switch to another rendition that is still live (not marked
    [endList]) never gets as far as its request.  The loader goes to
    SWITCHING_MEDIA and an outstanding request for another url is aborted and
    its handle cleared; then the call throws a TypeError, at
    [this.trigger('mediachanging')] when a playlist is active and at
    [this.hls_.xhr] otherwise, since the class has neither member.  The
    active playlist is as before, and no request is outstanding. *)
Theorem media_switch_throws w p pu lm lp t :
  field w p "uri" = VStr pu → plain_key pu = true →
  master (this w) = VObj lm → field w lm "playlists" = VArr lp →
  keyed (arr_at w lp) !! pu = Some (VObj t) →
  ref_or_none (_media (this w)) = true →
  truthy (field w t "endList") = false → media_change w pu = true →
  (_xhr (this w) = VNull ∨
   ∃ x, _xhr (this w) = VObj x ∧
        strict_eq (resolveURL (field w lm "uri") (VStr pu)) (field w x "url") = false) →
  ∃ w',
    media resolveURL (VObj p) w = (Throw TypeError, w') ∧
    state (this w') = SWITCHING_MEDIA ∧
    _media (this w') = _media (this w) ∧
    _xhr (this w') = VNull ∧
    master (this w') = master (this w) ∧
    (∀ l k, k ≠ "onreadystatechange" → field w' l k = field w l k) ∧
    arrs w' = arrs w ∧
    trace w' = trace w
               ++ (if truthy (_xhr (this w)) then [Abort (_xhr (this w))] else []).
Proof.
  intros Hpu Hplain Hm Hp Hk Hactive Hlive Hchange Hx.
  pose proof (plain_key_not_length pu Hplain) as Hlen.
  media_head Hpu Hlen Hm Hp Hk Hactive.
  rewrite Hlive, Hchange. cbn [negb]. cbv iota.
  rewrite bind_write, (bind_read _xhr). loader_simpl.
  destruct Hx as [Ex | (x & Ex & Hurl)]; rewrite Ex.
  - change (truthy VNull) with false. cbv iota. rewrite bind_ret_l. cbv iota.
    rewrite (media_request_run _ p lm) by done.
    eexists. split; [reflexivity|]. loader_simpl.
    repeat split; try done. simpl. by rewrite app_nil_r.
  - change (truthy (VObj x)) with true. cbv iota. unfold abort.
    lrun ltac:(rewrite ?Hm, ?Hpu, ?Ex, ?Hurl). cbv iota.
    set (w2 := set_this (with_xhr VNull) _).
    rewrite (media_request_run w2 p lm) by done.
    exists w2. split; [reflexivity|]. subst w2. loader_simpl.
    repeat split; try done.
    intros l k Hkey. autorewrite with store. by rewrite field_set_this_other.
Qed.

(** X9.  Asking again for the rendition that is already being requested has
    no effect: when the outstanding request is for the url of the playlist,
    [media] aborts nothing, requests nothing and triggers nothing; it sets the
    state to SWITCHING_MEDIA and changes nothing else. *)
Theorem media_same_request w p pu lm lp t x :
  field w p "uri" = VStr pu → pu ≠ "length" →
  master (this w) = VObj lm → field w lm "playlists" = VArr lp →
  keyed (arr_at w lp) !! pu = Some (VObj t) →
  ref_or_none (_media (this w)) = true →
  truthy (field w t "endList") = false → media_change w pu = true →
  _xhr (this w) = VObj x →
  strict_eq (resolveURL (field w lm "uri") (VStr pu)) (field w x "url") = true →
  media resolveURL (VObj p) w = (Ret VUndef, set_this (with_state SWITCHING_MEDIA) w).
Proof.
  intros Hpu Hlen Hm Hp Hk Hactive Hlive Hchange Ex Hurl.
  media_head Hpu Hlen Hm Hp Hk Hactive.
  rewrite Hlive, Hchange. cbn [negb]. cbv iota.
  rewrite bind_write, (bind_read _xhr). loader_simpl. rewrite Ex.
  change (truthy (VObj x)) with true. cbv iota.
  lrun ltac:(rewrite ?Hm, ?Hpu, ?Ex, ?Hurl). by cbv iota.
Qed.

(** X10.  A rendition that is complete (marked [endList]) is switched to at
    once, without a request: the loader goes to HAVE_METADATA with the
    playlist active, and an outstanding request is aborted and its handle
    cleared.  When the active playlist does not change the call returns; when
    it changes the call then throws a TypeError at
    [this.trigger('mediachanging')], which the class does not have, with the
    switch already made. *)
Theorem media_complete w p pu lm lp t :
  field w p "uri" = VStr pu → plain_key pu = true →
  master (this w) = VObj lm → field w lm "playlists" = VArr lp →
  keyed (arr_at w lp) !! pu = Some (VObj t) →
  ref_or_none (_media (this w)) = true →
  truthy (field w t "endList") = true →
  (_xhr (this w) = VNull ∨ ∃ x, _xhr (this w) = VObj x) →
  ∃ w',
    media resolveURL (VObj p) w
    = (if media_change w pu then Throw TypeError else Ret VUndef, w') ∧
    state (this w') = HAVE_METADATA ∧
    _media (this w') = VObj p ∧
    _xhr (this w') = VNull ∧
    master (this w') = master (this w) ∧
    (∀ l k, k ≠ "onreadystatechange" → field w' l k = field w l k) ∧
    arrs w' = arrs w ∧
    trace w' = trace w
               ++ (if truthy (_xhr (this w)) then [Abort (_xhr (this w))] else []).
Proof.
  intros Hpu Hplain Hm Hp Hk Hactive Hdone Hx.
  pose proof (plain_key_not_length pu Hplain) as Hlen.
  media_head Hpu Hlen Hm Hp Hk Hactive.
  rewrite Hdone. cbv iota. rewrite (bind_read _xhr).
  destruct Hx as [Ex | (x & Ex)]; rewrite Ex.
  - change (truthy VNull) with false. unfold when at 1. unfold trigger.
    lrun idtac. destruct (media_change w pu); unfold when; lrun idtac.
    + eexists. split; [reflexivity|]. loader_simpl. repeat split; try done;
        simpl; by rewrite ?app_nil_r.
    + eexists. split; [reflexivity|]. loader_simpl. repeat split; try done;
        simpl; by rewrite ?app_nil_r.
  - change (truthy (VObj x)) with true. unfold when at 1. unfold trigger, abort.
    lrun ltac:(rewrite ?Ex). destruct (media_change w pu); unfold when; lrun idtac.
    + eexists. split; [reflexivity|]. loader_simpl. repeat split; try done.
      intros l k Hkey. autorewrite with store. by rewrite ?field_set_this_other, ?field_set_other.
    + eexists. split; [reflexivity|]. loader_simpl. repeat split; try done.
      intros l k Hkey. autorewrite with store. by rewrite ?field_set_this_other, ?field_set_other.
Qed.

End MediaSwitch.

Lemma media_by_uri_witness :
  media join_url (VStr "b.m3u8") switching_store = media join_url (VObj 3) switching_store ∧
  media join_url (VStr "c.m3u8") switching_store = (Throw TypeError, switching_store).
Proof.
  destruct (media_by_uri join_url switching_store "b.m3u8" 1 1) as [Hreg _];
    [reflexivity | reflexivity | reflexivity |].
  destruct (media_by_uri join_url switching_store "c.m3u8" 1 1) as [_ Hnot];
    [reflexivity | reflexivity | reflexivity |].
  split; [apply Hreg | apply Hnot]; reflexivity.
Defined.

Lemma media_switch_throws_witness :
  ∃ w',
    media join_url (VObj 3) settled_store = (Throw TypeError, w') ∧
    state (this w') = SWITCHING_MEDIA ∧ _media (this w') = VObj 2 ∧
    _xhr (this w') = VNull ∧ trace w' = [].
Proof.
  destruct (media_switch_throws join_url settled_store 3 "b.m3u8" 1 1 3)
    as (w' & Hrun & Hs & Hmedia & Hx & _ & _ & _ & Htr).
  - reflexivity.
  - reflexivity.
  - reflexivity.
  - reflexivity.
  - reflexivity.
  - reflexivity.
  - reflexivity.
  - reflexivity.
  - left. reflexivity.
  - exists w'. split; [exact Hrun|]. split; [exact Hs|]. split; [exact Hmedia|].
    split; [exact Hx | exact Htr].
Defined.

Lemma media_same_request_witness :
  media join_url (VObj 3) switching_store = (Ret VUndef, switching_store).
Proof.
  apply (media_same_request join_url switching_store 3 "b.m3u8" 1 1 3 4).
  - reflexivity.
  - discriminate.
  - reflexivity.
  - reflexivity.
  - reflexivity.
  - reflexivity.
  - reflexivity.
  - reflexivity.
  - reflexivity.
  - reflexivity.
Defined.

Lemma media_complete_witness :
  ∃ w',
    media join_url (VObj 2) live_store = (Throw TypeError, w') ∧
    state (this w') = HAVE_METADATA ∧ _media (this w') = VObj 2 ∧
    trace w' = [].
Proof.
  destruct (media_complete join_url live_store 2 "a.m3u8" 1 1 2)
    as (w' & Hrun & Hs & Hmedia & _ & _ & _ & _ & Htr).
  - reflexivity.
  - reflexivity.
  - reflexivity.
  - reflexivity.
  - reflexivity.
  - reflexivity.
  - reflexivity.
  - left. reflexivity.
  - exists w'. split; [exact Hrun|]. split; [exact Hs|]. split; [exact Hmedia | exact Htr].
Defined.

(** ** [stopRequest], [pause] and [destroy] *)

Lemma with_xhr_id L v : _xhr L = v → with_xhr v L = L.
Proof. destruct L; simpl. by intros ->. Qed.

Lemma stopRequest_run w :
  (_xhr (this w) = VNull ∨ ∃ x, _xhr (this w) = VObj x) →
  stopRequest w
  = (Ret tt,
     match _xhr (this w) with
     | VObj x =>
         emit (Abort (VObj x))
           (set_objs <[x := <["onreadystatechange" := VNull]> (obj_at w x)]>
              (set_this (with_xhr VNull) w))
     | _ => w
     end).
Proof.
  intros [Ex | (x & Ex)]; unfold stopRequest; rewrite (bind_read _xhr), Ex.
  - done.
  - change (truthy (VObj x)) with true. unfold when, abort.
    rewrite (bind_read _xhr), Ex. by lrun idtac.
Qed.

(** X11.  [stopRequest] aborts the outstanding request, if there is one,
    after it has cleared the handle and detached the handler of the request;
    a second call does nothing: a request is aborted once. *)
Theorem stopRequest_once w :
  (_xhr (this w) = VNull ∨ ∃ x, _xhr (this w) = VObj x) →
  ∃ w',
    stopRequest w = (Ret tt, w') ∧
    this w' = with_xhr VNull (this w) ∧
    (∀ x, _xhr (this w) = VObj x → field w' x "onreadystatechange" = VNull) ∧
    trace w' = trace w ++ (if truthy (_xhr (this w)) then [Abort (_xhr (this w))] else []) ∧
    stopRequest w' = (Ret tt, w').
Proof.
  intros Hx. rewrite (stopRequest_run w Hx).
  destruct Hx as [Ex | (x & Ex)]; rewrite Ex.
  - exists w. split; [done|]. split; [by rewrite with_xhr_id|].
    split; [done|]. split; [simpl; by rewrite app_nil_r|].
    rewrite stopRequest_run by (by left). by rewrite Ex.
  - eexists. split; [reflexivity|]. split; [done|]. split.
    { intros ? [= <-]. loader_simpl. by rewrite field_insert, decide_True, lookup_insert_eq. }
    split; [done|]. by rewrite stopRequest_run by (by left).
Qed.

Lemma stopRequest_once_witness :
  ∃ w', stopRequest switching_store = (Ret tt, w') ∧
        trace w' = [Abort (VObj 4)] ∧ stopRequest w' = (Ret tt, w').
Proof.
  destruct (stopRequest_once switching_store) as (w' & Hrun & _ & _ & Htr & Hagain).
  - right. by exists 4%positive.
  - exists w'. split; [exact Hrun|]. split; [exact Htr | exact Hagain].
Defined.

(** X12.  [pause] and [destroy] do the same: they stop the outstanding
    request and cancel the refresh timer whose handle the loader holds.
    Nothing else of the loader changes: the state, the active playlist, the
    master, the expired time and the timer handle itself are kept. *)
Theorem pause_cancels w :
  (_xhr (this w) = VNull ∨ ∃ x, _xhr (this w) = VObj x) →
  ∃ w',
    pause w = (Ret tt, w') ∧ destroy w = (Ret tt, w') ∧
    this w' = with_xhr VNull (this w) ∧
    timers w' = match mediaUpdateTimeout (this w) with
                | VNum id => delete id (timers w)
                | _ => timers w
                end ∧
    (∀ id, mediaUpdateTimeout (this w) = VNum id → timers w' !! id = None) ∧
    trace w' = trace w ++ (if truthy (_xhr (this w)) then [Abort (_xhr (this w))] else []).
Proof.
  intros Hx. pose proof (stopRequest_run w Hx) as Hrun.
  set (w1 := match _xhr (this w) with VObj _ => _ | _ => w end) in Hrun.
  assert (Hthis : this w1 = with_xhr VNull (this w)).
  { subst w1. destruct Hx as [Ex | (x & Ex)]; rewrite Ex; [by rewrite with_xhr_id | done]. }
  assert (Htm : timers w1 = timers w).
  { subst w1. by destruct (_xhr (this w)). }
  assert (Htr : trace w1
                = trace w ++ (if truthy (_xhr (this w)) then [Abort (_xhr (this w))] else [])).
  { subst w1. destruct Hx as [Ex | (x & Ex)]; rewrite Ex; [simpl; by rewrite app_nil_r | done]. }
  clearbody w1.
  unfold pause, destroy. erewrite bind_Ret by exact Hrun.
  unfold read. rewrite bind_gets, Hthis. loader_simpl.
  destruct (mediaUpdateTimeout (this w)) as [| | |id| | | |] eqn:Et; simpl clearTimeout;
    try (exists w1; repeat split; done).
  eexists. split; [reflexivity|]. split; [reflexivity|]. loader_simpl.
  split; [done|]. split; [simpl; by rewrite Htm|]. split; [|done].
  intros ? [= <-]. simpl. apply lookup_delete_eq.
Qed.

Lemma pause_cancels_witness :
  ∃ w', pause waiting_store = (Ret tt, w') ∧ destroy waiting_store = (Ret tt, w') ∧
        timers w' = ∅ ∧ state (this w') = SWITCHING_MEDIA ∧
        mediaUpdateTimeout (this w') = VNum 7.
Proof.
  destruct (pause_cancels waiting_store) as (w' & Hp & Hd & Hthis & Htm & _).
  - right. by exists 4%positive.
  - exists w'. split; [exact Hp|]. split; [exact Hd|]. rewrite Htm, Hthis.
    split; [reflexivity|]. split; reflexivity.
Defined.

(** ** Further properties of the live window tracker and of the error path *)





(** ** Lazy resolution of segment uris *)

Section ResolveValues.

Variable resolveURL : val → val → val.
Variable base : val.
Hypothesis Hbase : truthy base = true.

Lemma resolved_from_refl w : resolved_from resolveURL base w w.
Proof. split; [done|]. split; [done|]. intros l. by left. Qed.

Lemma resolved_from_only w w' : resolved_from resolveURL base w w' → resolved_only w w'.
Proof. intros (Ha & Ho & _). by split. Qed.

Lemma resolved_from_field w w' l k :
  resolved_from resolveURL base w w' → k ≠ "resolvedUri" → field w' l k = field w l k.
Proof. intros (_ & Ho & _) Hk. unfold field. by rewrite Ho. Qed.

(** What has been resolved once stays as it is. *)
Lemma resolved_against_stable w w' l :
  resolved_from resolveURL base w w' →
  resolved_against resolveURL base w' l = resolved_against resolveURL base w l.
Proof.
  intros Hf. pose proof Hf as (_ & _ & Hr). unfold resolved_against.
  rewrite (resolved_from_field _ _ _ "uri" Hf) by done.
  destruct (Hr l) as [-> | E]; [done|]. rewrite E. unfold resolved_against.
  destruct (truthy (field w l "resolvedUri")) eqn:Eold; [by rewrite Eold|].
  by destruct (truthy (resolveURL base (field w l "uri"))).
Qed.

Lemma resolved_from_trans w1 w2 w3 :
  resolved_from resolveURL base w1 w2 → resolved_from resolveURL base w2 w3 →
  resolved_from resolveURL base w1 w3.
Proof.
  intros H12 H23. pose proof H12 as (Ha & Ho & Hr). pose proof H23 as (Ha' & Ho' & Hr').
  split; [congruence|]. split; [intros l k Hk; by rewrite Ho', Ho|].
  intros l. destruct (Hr' l) as [-> | ->]; [apply Hr|].
  right. by apply resolved_against_stable.
Qed.

Lemma resolved_done_preserved w w1 w2 l :
  resolved_from resolveURL base w w1 → resolved_from resolveURL base w1 w2 →
  field w1 l "resolvedUri" = resolved_against resolveURL base w l →
  field w2 l "resolvedUri" = resolved_against resolveURL base w l.
Proof.
  intros H1 H2 E. destruct H2 as (_ & _ & Hr). destruct (Hr l) as [-> | ->]; [done|].
  by apply resolved_against_stable.
Qed.

Lemma resolved_from_base w w' p :
  resolved_from resolveURL base w w' → field w p "resolvedUri" = base →
  field w' p "resolvedUri" = base.
Proof.
  intros (_ & _ & Hr) E. destruct (Hr p) as [-> | ->]; [done|].
  unfold resolved_against. by rewrite E, Hbase.
Qed.

(** The one write of the loop: [o.resolvedUri = resolveURL(base, o.uri)],
    made when [o] has no [resolvedUri]. *)
Lemma resolved_from_set w o :
  truthy (field w o "resolvedUri") = false →
  resolved_from resolveURL base w
    (set_objs <[o := <["resolvedUri" := resolveURL base (field w o "uri")]> (obj_at w o)]>
       w).
Proof.
  intros Hmissing. split; [done|]. split.
  - intros l k Hk. rewrite obj_at_insert. case_decide; [|done].
    subst l. by rewrite lookup_insert_ne.
  - intros l. rewrite field_insert. case_decide as E; [|by left]. subst l.
    right. rewrite lookup_insert_eq. unfold resolved_against. by rewrite Hmissing.
Qed.

Lemma resolved_set_value w o :
  truthy (field w o "resolvedUri") = false →
  field (set_objs <[o := <["resolvedUri" := resolveURL base (field w o "uri")]>
                           (obj_at w o)]> w) o "resolvedUri" = resolved_against resolveURL base w o.
Proof.
  intros Hmissing. rewrite field_insert, decide_True, lookup_insert_eq by done.
  unfold resolved_against. by rewrite Hmissing.
Qed.

Lemma resolved_kept_value w o :
  truthy (field w o "resolvedUri") = true →
  field w o "resolvedUri" = resolved_against resolveURL base w o.
Proof. intros Hthere. unfold resolved_against. by rewrite Hthere. Qed.

Lemma resolve_part_values w p s part :
  part ≠ "resolvedUri" → key_okb (field w s part) = true →
  field w p "resolvedUri" = base →
  ∃ w', resolve_part resolveURL (VObj p) (VObj s) part w = (Ret tt, w') ∧
        resolved_from resolveURL base w w' ∧
        ∀ ko, field w s part = VObj ko →
              field w' ko "resolvedUri" = resolved_against resolveURL base w ko.
Proof.
  intros Hpart Hk Hp. unfold resolve_part. mrun.
  destruct (field w s part) as [| | | | | |ko|] eqn:E; try done.
  - change (truthy VUndef) with false. cbv iota. mrun. unfold when.
    eexists. split; [reflexivity|]. split; [apply resolved_from_refl | done].
  - change (truthy (VObj ko)) with true. cbv iota. mrun. unfold js_not.
    destruct (truthy (field w ko "resolvedUri")) eqn:Et; cbn [negb]; unfold when.
    + eexists. split; [reflexivity|]. split; [apply resolved_from_refl|].
      intros ? [= <-]. by apply resolved_kept_value.
    + mrun. rewrite E. mrun. rewrite Hp. unfold set, modify.
      eexists. split; [reflexivity|]. split; [by apply resolved_from_set|].
      intros ? [= <-]. by apply resolved_set_value.
Qed.

Lemma resolve_segment_values w lm lp i p r segs j s :
  resolve_ready w lm lp i p r segs → segs !! j = Some s → s ≠ p →
  field w p "resolvedUri" = base →
  ∃ w', resolve_segment resolveURL (VObj lm) (VObj p) (Z.of_nat i) (Z.of_nat j) w
          = (Ret tt, w') ∧
        resolved_from resolveURL base w w' ∧
        field w' s "resolvedUri" = resolved_against resolveURL base w s ∧
        (∀ ko, field w s "key" = VObj ko →
               field w' ko "resolvedUri" = resolved_against resolveURL base w ko) ∧
        (∀ ko, field w s "map" = VObj ko →
               field w' ko "resolvedUri" = resolved_against resolveURL base w ko).
Proof.
  intros (Hp & Hi & Hs & Hr & Hk) Hj Hsp Hb. unfold resolve_segment.
  mrun. rewrite Hp.
  erewrite bind_Ret by apply get_idx_arr. rewrite Hi. simpl default.
  mrun. rewrite Hs.
  erewrite bind_Ret by apply get_idx_arr. rewrite Hr, list_lookup_fmap, Hj. simpl default.
  mrun.
  assert (Hin : s ∈ segs) by (by eapply list_elem_of_lookup_2).
  destruct (Hk s Hin) as [Hkey Hmap].
  assert (H1 : ∃ w1,
    when (js_not (field w s "resolvedUri"))
      (do base <- get (VObj p) "resolvedUri";
       do u <- get (VObj s) "uri";
       set (VObj s) "resolvedUri" (resolveURL base u)) w = (Ret tt, w1) ∧
    resolved_from resolveURL base w w1 ∧
    field w1 s "resolvedUri" = resolved_against resolveURL base w s).
  { unfold js_not. destruct (truthy (field w s "resolvedUri")) eqn:Et; cbn [negb]; unfold when.
    - eexists. split; [reflexivity|]. split; [apply resolved_from_refl|].
      by apply resolved_kept_value.
    - mrun. rewrite Hb. unfold set, modify. eexists. split; [reflexivity|].
      split; [by apply resolved_from_set | by apply resolved_set_value]. }
  destruct H1 as (w1 & Hrun1 & Hf1 & Hs1).
  erewrite bind_Ret by exact Hrun1.
  destruct (resolve_part_values w1 p s "key") as (w2 & Hrun2 & Hf2 & Hk2); [done| | |].
  { by rewrite (resolved_from_field _ _ _ _ Hf1). }
  { by apply (resolved_from_base w). }
  erewrite bind_Ret by exact Hrun2.
  pose proof (resolved_from_trans _ _ _ Hf1 Hf2) as Hf12.
  destruct (resolve_part_values w2 p s "map") as (w3 & Hrun3 & Hf3 & Hk3); [done| | |].
  { by rewrite (resolved_from_field _ _ _ _ Hf12). }
  { by apply (resolved_from_base w). }
  exists w3. split; [exact Hrun3|].
  pose proof (resolved_from_trans _ _ _ Hf12 Hf3) as Hf123.
  split; [done|]. split; [|split].
  - apply (resolved_done_preserved w w2 w3); [done|done|].
    by apply (resolved_done_preserved w w1 w2).
  - intros ko Eko. apply (resolved_done_preserved w w2 w3); [done|done|].
    rewrite (Hk2 ko) by (by rewrite (resolved_from_field _ _ _ _ Hf1)).
    by apply resolved_against_stable.
  - intros ko Eko.
    rewrite (Hk3 ko) by (by rewrite (resolved_from_field _ _ _ _ Hf12)).
    by apply resolved_against_stable.
Qed.

Lemma resolve_loop_values lm lp i p r segs n : ∀ w,
  resolve_ready w lm lp i p r segs → (n ≤ length segs)%nat → p ∉ segs →
  field w p "resolvedUri" = base →
  ∃ w', while_down n (λ j _, resolve_segment resolveURL (VObj lm) (VObj p) (Z.of_nat i) j) tt w
          = (Ret tt, w') ∧
        resolved_from resolveURL base w w' ∧
        ∀ j s, (j < n)%nat → segs !! j = Some s →
          field w' s "resolvedUri" = resolved_against resolveURL base w s ∧
          (∀ ko, field w s "key" = VObj ko →
               field w' ko "resolvedUri" = resolved_against resolveURL base w ko) ∧
          (∀ ko, field w s "map" = VObj ko →
               field w' ko "resolvedUri" = resolved_against resolveURL base w ko).
Proof.
  induction n as [|n IH]; intros w Hready Hn Hp Hb.
  { exists w. split; [done|]. split; [apply resolved_from_refl | intros; lia]. }
  destruct (lookup_lt_is_Some_2 segs n) as [s Hs]; [lia|].
  assert (Hsp : s ≠ p) by (intros ->; apply Hp; by eapply list_elem_of_lookup_2).
  destruct (resolve_segment_values w lm lp i p r segs n s Hready Hs Hsp Hb)
    as (w1 & Hrun1 & Hf1 & Hs1 & Hk1 & Hm1).
  destruct (IH w1) as (w2 & Hrun2 & Hf2 & Hall);
    [by eapply resolve_ready_preserved, Hready; apply resolved_from_only
    | lia | done | by apply (resolved_from_base w) |].
  exists w2. simpl while_down. erewrite bind_Ret by exact Hrun1.
  split; [exact Hrun2|]. split; [by eapply resolved_from_trans|].
  intros j s' Hj Hs'. destruct (decide (j = n)) as [->|Hne].
  - rewrite Hs in Hs'. injection Hs' as <-. split; [|split].
    + by apply (resolved_done_preserved w w1 w2).
    + intros ko Eko. apply (resolved_done_preserved w w1 w2); auto.
    + intros ko Eko. apply (resolved_done_preserved w w1 w2); auto.
  - destruct (Hall j s') as (Hs2 & Hk2 & Hm2); [lia|done|]. split; [|split].
    + rewrite Hs2. by apply resolved_against_stable.
    + intros ko Eko. rewrite Hk2 by (by rewrite (resolved_from_field _ _ _ _ Hf1)).
      by apply resolved_against_stable.
    + intros ko Eko. rewrite Hm2 by (by rewrite (resolved_from_field _ _ _ _ Hf1)).
      by apply resolved_against_stable.
Qed.

End ResolveValues.

(** ** The reconciler acts on the store only *)

Lemma keeps_host_ret {A} (a : A) : keeps_host (ret a).
Proof. by intros w. Qed.

Lemma keeps_host_throw {A} e : keeps_host (@throw A e).
Proof. by intros w. Qed.

Lemma keeps_host_bind {A B} (m : M A) (k : A → M B) :
  keeps_host m → (∀ a, keeps_host (k a)) → keeps_host (bind m k).
Proof.
  intros Hm Hk w. unfold bind. specialize (Hm w).
  destruct (m w) as [[a|e] w1]; simpl in *; [|done].
  specialize (Hk a w1). destruct Hm as (E1 & E2 & E3 & E4).
  rewrite <- E1, <- E2, <- E3, <- E4. exact Hk.
Qed.

Lemma keeps_host_when b (m : M unit) : keeps_host m → keeps_host (when b m).
Proof. destruct b; [done|]. intros _. apply keeps_host_ret. Qed.

Lemma keeps_host_get v k : keeps_host (get v k).
Proof. by destruct v; intros w. Qed.

Lemma keeps_host_set v k x : keeps_host (set v k x).
Proof. destruct v; try (by intros w). simpl. by destruct (String.eqb k "length"); intros w. Qed.

Lemma keeps_host_get_idx v i : keeps_host (get_idx v i).
Proof. by destruct v; intros w. Qed.

Lemma keeps_host_set_idx v i x : keeps_host (set_idx v i x).
Proof. destruct v; try (by intros w). simpl. by destruct (0 <=? i)%Z; intros w. Qed.

Lemma keeps_host_get_by v k : keeps_host (get_by v k).
Proof.
  destruct k; simpl; auto using keeps_host_get, keeps_host_get_idx, keeps_host_throw.
Qed.

Lemma keeps_host_set_by v k x : keeps_host (set_by v k x).
Proof.
  destruct k; simpl; auto using keeps_host_set, keeps_host_set_idx, keeps_host_throw.
Qed.

Lemma keeps_host_slice v : keeps_host (slice v).
Proof. by destruct v; intros w. Qed.

Lemma keeps_host_assign t s : keeps_host (Object_assign t s).
Proof. by destruct t, s; intros w. Qed.

Lemma keeps_host_to_number v : keeps_host (to_number v).
Proof. by destruct v; intros w. Qed.

Lemma keeps_host_arith f a b : keeps_host (arith f a b).
Proof.
  unfold arith. apply keeps_host_bind; [apply keeps_host_to_number|]. intros x.
  apply keeps_host_bind; [apply keeps_host_to_number|]. intros y. apply keeps_host_ret.
Qed.

Lemma keeps_host_count_down v : keeps_host (count_down v).
Proof.
  unfold count_down. apply keeps_host_bind; [apply keeps_host_to_number|].
  intros [z|]; [|apply keeps_host_ret].
  destruct (0 <=? z)%Z; [apply keeps_host_ret | apply keeps_host_throw].
Qed.

Lemma keeps_host_new_object o : keeps_host (new_object o).
Proof. by intros w. Qed.

Lemma keeps_host_for_up body :
  (∀ i, keeps_host (body i)) → ∀ n i, keeps_host (for_up n i body).
Proof.
  intros Hbody. induction n as [|n IH]; intros i; simpl; [apply keeps_host_ret|].
  apply keeps_host_bind; [apply Hbody | intros _; apply IH].
Qed.

Lemma keeps_host_while_down {A} (body : Z → A → M A) :
  (∀ i a, keeps_host (body i a)) → ∀ n a, keeps_host (while_down n body a).
Proof.
  intros Hbody. induction n as [|n IH]; intros a; simpl; [apply keeps_host_ret|].
  apply keeps_host_bind; [apply Hbody | intros a'; apply IH].
Qed.

Create HintDb host.
#[export] Hint Resolve keeps_host_ret keeps_host_throw keeps_host_get keeps_host_set
  keeps_host_get_idx keeps_host_set_idx keeps_host_get_by keeps_host_set_by
  keeps_host_slice keeps_host_assign keeps_host_to_number keeps_host_arith
  keeps_host_count_down keeps_host_new_object keeps_host_when : host.

(** Splits a computation into its statements and closes each with the
    lemmas on the primitives. *)
Ltac keeps_host :=
  repeat first
    [ apply keeps_host_bind; [|intros ?]
    | apply keeps_host_when
    | apply keeps_host_for_up; intros ?
    | apply keeps_host_while_down; intros ? ?
    | match goal with |- keeps_host (if ?b then _ else _) => destruct b end
    | match goal with |- keeps_host (match ?x with Some _ => _ | None => _ end) =>
        destruct x end
    | solve [auto with host] ].

Section HostFrame.

Variable resolveURL : val → val → val.

Lemma keeps_host_updateMaster master media :
  keeps_host (updateMaster resolveURL master media).
Proof. unfold updateMaster, updateMaster_step, js_sub. keeps_host. Qed.

(** X15.  [updateMaster] and [updateSegments] act on the playlist objects
    only.  Whatever their arguments, and whether they return or throw, they
    leave the fields of the loader, the pending timers and the trace of
    effects as they were: they issue no request, trigger no event and arm no
    timer. *)
Theorem reconciler_keeps_host master media original update offset :
  keeps_host (updateMaster resolveURL master media) ∧
  keeps_host (updateSegments original update offset).
Proof.
  split;
    [unfold updateMaster, updateMaster_step, js_sub
    |unfold updateSegments, js_add, Math_min];
    keeps_host.
Qed.

End HostFrame.

(** ** A material update of the master *)

Lemma self_window_ok (es : list val) segs :
  es = VObj <$> segs → NoDup segs → window_ok es es 0.
Proof.
  intros -> Hnd.
  assert (Hn : overlap (VObj <$> segs) (VObj <$> segs) 0 = length segs).
  { unfold overlap. rewrite length_fmap. lia. }
  unfold window_ok. rewrite Hn. split; [|split; [|split]].
  - intros i Hi. destruct (lookup_lt_is_Some_2 segs i Hi) as [l Hl].
    exists l. change (0 + i)%nat with i. by rewrite list_lookup_fmap, Hl.
  - intros i Hi. destruct (lookup_lt_is_Some_2 segs i Hi) as [l Hl].
    exists l. by rewrite list_lookup_fmap, Hl.
  - intros i i' l _ _. change (0 + i)%nat with i. change (0 + i')%nat with i'.
    rewrite !list_lookup_fmap.
    destruct (segs !! i) as [x|] eqn:E; [|done].
    destruct (segs !! i') as [x'|] eqn:E'; [|done].
    intros [= ->] [= ->]. by eapply NoDup_lookup.
  - intros i j l _. change (0 + i)%nat with i. rewrite !list_lookup_fmap.
    destruct (segs !! i) as [x|] eqn:E; [|done].
    destruct (segs !! j) as [x'|] eqn:E'; [|done].
    intros [= ->] [= ->]. by eapply NoDup_lookup.
Qed.

(** The merge of a list with itself leaves the loader, the timers, the clock
    and the trace alone. *)
Lemma updateSegments_self_loader w ls a segs :
  arrs w !! ls = Some a → elems a = VObj <$> segs → NoDup segs →
  let w' := snd (updateSegments (VArr ls) (VArr ls) (VNum 0) w) in
  this w' = this w ∧ timers w' = timers w ∧ clock w' = clock w ∧ trace w' = trace w.
Proof.
  intros Hls Hel Hnd.
  destruct (updateSegments_run w ls ls a a 0 Hls Hls (self_window_ok _ _ Hel Hnd))
    as (w' & Hrun & _ & _ & _ & Hrest).
  change (VNum (Z.of_nat 0)) with (VNum 0) in Hrun. by rewrite Hrun.
Qed.

Section UpdateMasterMaterial.

Variable resolveURL : val → val → val.
Variables (w : world) (lm lp ld ls : loc) (pls segs : list loc) (u : string) (q : Z).
Variables (n : nat) (p : loc).

Hypothesis Hplaylists : field w lm "playlists" = VArr lp.
Hypothesis Hlp : is_Some (arrs w !! lp).
Hypothesis Hpls : elems (arr_at w lp) = VObj <$> pls.
Hypothesis Huri : field w ld "uri" = VStr u.
Hypothesis Hu : u ≠ "length".
Hypothesis Hsegments : field w ld "segments" = VArr ls.
Hypothesis Hls : is_Some (arrs w !! ls).
Hypothesis Hsegs : elems (arr_at w ls) = VObj <$> segs.
Hypothesis Hseq : field w ld "mediaSequence" = VNum q.
Hypothesis Hok : refresh_okb w lm ld pls segs = true.

(** The playlist [p], at index [n], is the one playlist of the master that
    has the uri of the update, and the update changes it. *)
Hypothesis Hn : pls !! n = Some p.
Hypothesis Hsame : same_uri w p ld = true.
Hypothesis Hmaterial : no_op w p ld = false.
Hypothesis Hunique : ∀ p', p' ∈ pls → same_uri w p' ld = true → p' = p.

(** The turn of the loop on [p], up to the loop that resolves the uris. *)
Lemma updateMaster_material_step c w1 :
  (∀ l, obj_at w1 l = obj_at w l) → arrs w1 = arrs w →
  ∃ r w6,
    updateMaster_step resolveURL (VObj lm) (VObj ld) (Z.of_nat n) c w1
    = (while_down (length segs)
         (λ j _, resolve_segment resolveURL (VObj lm) (VObj p) (Z.of_nat n) j) tt;;
       ret true) w6 ∧
    arrs w !! r = None ∧
    arrs w6 = <[r := Array (VObj <$> segs) ∅]>
                (<[lp := Array (VObj <$> pls) (<[u := VObj p]> (keyed (arr_at w lp)))]>
                   (arrs w)) ∧
    (∀ l, obj_at w6 l = if decide (l = p)
                        then <["segments" := VArr r]> (obj_at w ld ∪ obj_at w p)
                        else obj_at w l) ∧
    this w6 = this w1 ∧ timers w6 = timers w1 ∧ clock w6 = clock w1 ∧ trace w6 = trace w1.
Proof.
  intros Hobj Harr.
  destruct (refresh_ok_facts w lm ld pls segs Hok) as (Hnd & Hnds & Hm & Hd & Hrefs & Hsegok).
  assert (Hpin : p ∈ pls) by (by eapply list_elem_of_lookup_2).
  assert (F : ∀ l k, field w1 l k = field w l k)
    by (intros; by apply same_store_field).
  assert (A : ∀ l, arr_at w1 l = arr_at w l) by (intros; by apply same_store_arr).
  destruct Hlp as [ap Hap]. destruct Hls as [as_ Has].
  assert (Hne_m : p ≠ lm) by (by intros ->).
  assert (Hne_d : p ≠ ld) by (by intros ->).
  unfold updateMaster_step. mrun. rewrite F, Hplaylists.
  erewrite bind_Ret by apply get_idx_arr. rewrite A, Hpls, list_lookup_fmap, Hn.
  change (default VUndef (VObj <$> Some p)) with (VObj p).
  mrun. rewrite !F. unfold same_uri in Hsame. rewrite Hsame.
  erewrite bind_Ret.
  2:{ apply (unchanged_run _ _ _ ls); rewrite F; [|done].
      destruct (Hrefs p Hpin) as [-> | (b & -> & _)]; eauto. }
  rewrite (same_store_no_op w w1) by done. rewrite Hmaterial.
  assert (Hlen : (n < length (elems (arr_at w1 lp)))%nat).
  { rewrite A, Hpls, length_fmap. by eapply lookup_lt_Some. }
  assert (Hd_uri : obj_at w ld !! "uri" = Some (VStr u)) by (by apply field_Some).
  assert (Hd_segs : obj_at w ld !! "segments" = Some (VArr ls)) by (by apply field_Some).
  assert (Hd_seq : obj_at w ld !! "mediaSequence" = Some (VNum q)) by (by apply field_Some).
  (* result.playlists[i] = Object.assign(playlist, media) *)
  mrun. rewrite F, Hplaylists, bind_assign_obj. rewrite !Hobj.
  set (w2 := set_objs <[p := obj_at w ld ∪ obj_at w p]> w1).
  erewrite bind_Ret by (by apply set_idx_arr).
  change (arr_at w2 lp) with (arr_at w1 lp). rewrite A, Hpls.
  rewrite list_insert_id by (by rewrite list_lookup_fmap, Hn).
  set (w3 := set_arrs <[lp := Array (VObj <$> pls) (keyed (arr_at w lp))]> w2).
  assert (G3 : ∀ l k, l ≠ p → field w3 l k = field w l k).
  { intros l k Hl. subst w3 w2. autorewrite with store.
    by rewrite field_insert, decide_False, F. }
  assert (G3p : ∀ k v, obj_at w ld !! k = Some v → field w3 p k = v).
  { intros k v Hk. subst w3 w2. autorewrite with store.
    rewrite field_insert, decide_True by done.
    by rewrite (lookup_union_Some_l _ _ _ _ Hk). }
  (* result.playlists[media.uri] = result.playlists[i] *)
  mrun. rewrite !G3, Hplaylists, Huri by done.
  erewrite bind_Ret by apply get_idx_arr.
  replace (elems (arr_at w3 lp)) with (VObj <$> pls)
    by (subst w3; by rewrite arr_at_insert, decide_True).
  rewrite list_lookup_fmap, Hn. change (default VUndef (VObj <$> Some p)) with (VObj p).
  erewrite bind_Ret by (by apply set_by_arr_key).
  replace (arr_at w3 lp) with (Array (VObj <$> pls) (keyed (arr_at w lp)))
    by (subst w3; by rewrite arr_at_insert, decide_True).
  cbn [elems keyed].
  set (w4 := set_arrs <[lp := Array (VObj <$> pls) (<[u := VObj p]> (keyed (arr_at w lp)))]> w3).
  assert (G4 : ∀ l k, field w4 l k = field w3 l k) by done.
  assert (E4 : elems (arr_at w4 lp) = VObj <$> pls)
    by (subst w4; by rewrite arr_at_insert, decide_True).
  assert (A4 : arrs w4 = <[lp := Array (VObj <$> pls) (<[u := VObj p]> (keyed (arr_at w lp)))]>
                           (arrs w)).
  { subst w4 w3 w2. simpl. by rewrite insert_insert_eq, Harr. }
  (* result.playlists[i].segments = updateSegments(playlist.segments, ...) *)
  mrun. rewrite G4, (G3p "segments" (VArr ls)) by done.
  change (truthy (VArr ls)) with true. unfold when.
  mrun. rewrite G4, G3, Hplaylists by done.
  erewrite bind_Ret by apply get_idx_arr.
  rewrite E4, list_lookup_fmap, Hn. change (default VUndef (VObj <$> Some p)) with (VObj p).
  mrun. rewrite !G4, (G3p "segments" (VArr ls)), (G3p "mediaSequence" (VNum q)) by done.
  rewrite !G3, Hsegments, Hseq by done.
  unfold js_sub. mrun. rewrite Z.sub_diag.
  assert (Hne_ls : lp ≠ ls).
  { intros <-. rewrite Hsegs in Hpls.
    assert (Hin : VObj p ∈ VObj <$> segs).
    { rewrite Hpls. apply list_elem_of_fmap. eauto. }
    apply list_elem_of_fmap in Hin as (s & [= <-] & Hs).
    by destruct (Hsegok p Hs) as [Hnot _]. }
  assert (Has4 : arrs w4 !! ls = Some as_) by (by rewrite A4, lookup_insert_ne).
  destruct (updateSegments_self w4 ls as_ segs Has4) as (w5 & Hrun5 & Harr5 & Hobj5);
    [by rewrite <- Hsegs, (arr_at_Some _ _ _ Has) | done |].
  destruct (updateSegments_self_loader w4 ls as_ segs Has4) as (T5 & M5 & C5 & R5);
    [by rewrite <- Hsegs, (arr_at_Some _ _ _ Has) | done |].
  rewrite Hrun5 in T5, M5, C5, R5. simpl in T5, M5, C5, R5.
  erewrite bind_Ret by exact Hrun5.
  set (r := fresh (dom (arrs w4))) in *.
  rewrite bind_set_obj.
  set (w6 := set_objs <[p := <["segments" := VArr r]> (obj_at w5 p)]> w5).
  assert (Hr4 : arrs w4 !! r = None) by apply fresh_arr_None.
  assert (A6 : arrs w6 = <[r := Array (VObj <$> segs) ∅]>
                 (<[lp := Array (VObj <$> pls) (<[u := VObj p]> (keyed (arr_at w lp)))]>
                    (arrs w))).
  { subst w6. simpl. rewrite Harr5, A4. do 2 f_equal.
    by rewrite <- Hsegs, (arr_at_Some _ _ _ Has). }
  assert (O6 : ∀ l, obj_at w6 l = if decide (l = p)
                                  then <["segments" := VArr r]> (obj_at w ld ∪ obj_at w p)
                                  else obj_at w l).
  { intros l. subst w6. rewrite obj_at_insert. rewrite Hobj5.
    destruct (decide (p = l)) as [<-|Hne].
    - rewrite decide_True by done. subst w4 w3 w2. autorewrite with store.
      by rewrite obj_at_insert, decide_True.
    - rewrite decide_False by done. rewrite Hobj5. subst w4 w3 w2. autorewrite with store.
      by rewrite obj_at_insert, decide_False, Hobj. }
  assert (Hr_lp : r ≠ lp) by (intros E; by rewrite E, A4, lookup_insert_eq in Hr4).
  assert (F6m : field w6 lm "playlists" = VArr lp).
  { unfold field. rewrite O6, decide_False by done. exact Hplaylists. }
  assert (F6p : field w6 p "segments" = VArr r).
  { unfold field. by rewrite O6, decide_True, lookup_insert_eq. }
  mrun. rewrite F6m.
  erewrite bind_Ret by apply get_idx_arr.
  replace (elems (arr_at w6 lp)) with (VObj <$> pls)
    by (unfold arr_at; by rewrite A6, lookup_insert_ne, lookup_insert_eq).
  rewrite list_lookup_fmap, Hn. change (default VUndef (VObj <$> Some p)) with (VObj p).
  mrun. rewrite F6p.
  change (truthy (VArr r)) with true. cbv iota.
  erewrite bind_Ret by apply get_length_arr.
  replace (elems (arr_at w6 r)) with (VObj <$> segs)
    by (unfold arr_at; by rewrite A6, lookup_insert_eq).
  rewrite length_fmap.
  erewrite bind_Ret by apply count_down_nat.
  exists r, w6. split; [reflexivity|].
  split; [rewrite A4 in Hr4; apply lookup_insert_None in Hr4; tauto|].
  split; [done|]. split; [done|]. subst w6. simpl. by rewrite T5, M5, C5, R5.
Qed.

Lemma overlaid_field r w6 l k :
  overlaid w lp ld p pls segs u r w6 → l ≠ p → field w6 l k = field w l k.
Proof. intros (_ & _ & O6 & _) Hl. unfold field. by rewrite O6, decide_False. Qed.

Lemma overlaid_ready r w6 :
  overlaid w lp ld p pls segs u r w6 → resolve_ready w6 lm lp n p r segs.
Proof.
  intros Hov. pose proof Hov as (Hr & A6 & O6 & _).
  destruct (refresh_ok_facts w lm ld pls segs Hok) as (Hnd & Hnds & Hm & Hd & Hrefs & Hsegok).
  assert (Hpin : p ∈ pls) by (by eapply list_elem_of_lookup_2).
  assert (Hr_lp : r ≠ lp) by (intros ->; destruct Hlp as [? E]; congruence).
  split; [|split; [|split; [|split]]].
  - rewrite (overlaid_field r w6) by (done || by intros ->). exact Hplaylists.
  - unfold arr_at. rewrite A6, lookup_insert_ne, lookup_insert_eq by done. simpl.
    by rewrite list_lookup_fmap, Hn.
  - unfold field. by rewrite O6, decide_True, lookup_insert_eq.
  - unfold arr_at. by rewrite A6, lookup_insert_eq.
  - intros s Hs. destruct (Hsegok s Hs) as (Hnot & Hkey & Hmap).
    rewrite !(overlaid_field r w6) by (done || by intros ->). done.
Qed.

(** After the update [p] has the segment count and the media sequence of the
    update, and no other playlist has its uri. *)
Lemma overlaid_settled r w6 w7 :
  overlaid w lp ld p pls segs u r w6 → resolved_only w6 w7 →
  forallb (λ p', implb (same_uri w7 p' ld) (no_op w7 p' ld)) pls = true.
Proof.
  intros Hov Hro. pose proof Hov as (Hr & A6 & O6 & _).
  destruct (refresh_ok_facts w lm ld pls segs Hok) as (Hnd & Hnds & Hm & Hd & Hrefs & Hsegok).
  assert (Hpin : p ∈ pls) by (by eapply list_elem_of_lookup_2).
  assert (Hne_d : ld ≠ p) by (by intros ->).
  assert (F7 : ∀ l k, l ≠ p → k ≠ "resolvedUri" → field w7 l k = field w l k).
  { intros l k Hl Hk. by rewrite (resolved_only_field _ _ _ _ Hro), (overlaid_field r w6). }
  apply forallb_forall. intros p' Hin%list_elem_of_In.
  destruct (decide (p' = p)) as [->|Hne].
  - replace (no_op w7 p ld) with true; [by destruct (same_uri w7 p ld)|].
    symmetry. unfold no_op, segment_count.
    rewrite (resolved_only_field _ _ _ _ Hro) by done.
    replace (field w6 p "segments") with (VArr r)
      by (unfold field; by rewrite O6, decide_True, lookup_insert_eq).
    rewrite (F7 ld "segments"), Hsegments by done.
    rewrite !(resolved_only_arr _ _ _ Hro).
    destruct Hls as [as_ Has]. destruct Hlp as [ap Hap].
    assert (Hne_ls : ls ≠ lp).
    { intros ->. rewrite Hsegs in Hpls.
      assert (Hin' : VObj p ∈ VObj <$> segs).
      { rewrite Hpls. apply list_elem_of_fmap. eauto. }
      apply list_elem_of_fmap in Hin' as (s & [= <-] & Hs).
      by destruct (Hsegok p Hs) as [Hnot _]. }
    assert (Hne_r : ls ≠ r) by (intros ->; congruence).
    unfold arr_at. rewrite A6, lookup_insert_eq, lookup_insert_ne, lookup_insert_ne by done.
    fold (arr_at w ls). rewrite Hsegs. simpl. rewrite length_fmap, Nat.eqb_refl. simpl.
    rewrite (resolved_only_field _ _ _ _ Hro), (F7 ld "mediaSequence"), Hseq by done.
    unfold field. rewrite O6, decide_True by done.
    rewrite lookup_insert_ne by done.
    rewrite (lookup_union_Some_l _ _ _ (VNum q)) by (by apply field_Some).
    change (strict_eq (VNum q) (VNum q) = true). by rewrite strict_eq_num, Z.eqb_refl.
  - replace (same_uri w7 p' ld) with false; [done|].
    symmetry. unfold same_uri. rewrite !F7 by done.
    destruct (strict_eq (field w p' "uri") (field w ld "uri")) eqn:E; [|done].
    exfalso. apply Hne, Hunique; [done | exact E].
Qed.

(** The playlists of an index above [n] have another uri than the update. *)
Lemma updateMaster_loop_above c w0 :
  (∀ l, obj_at w0 l = obj_at w l) → arrs w0 = arrs w →
  ∀ d, (S n + d ≤ length pls)%nat →
    while_down (S n + d) (updateMaster_step resolveURL (VObj lm) (VObj ld)) c w0
    = while_down (S n) (updateMaster_step resolveURL (VObj lm) (VObj ld)) c w0.
Proof.
  intros Hobj Harr.
  destruct (refresh_ok_facts w lm ld pls segs Hok) as (Hnd & _).
  induction d as [|d IH]; intros Hd; [by rewrite Nat.add_0_r|].
  replace (S n + S d)%nat with (S (S n + d)) by lia.
  destruct (lookup_lt_is_Some_2 pls (S n + d)) as [p' Hp']; [lia|].
  cbn [while_down]. erewrite bind_Ret; [apply IH; lia|].
  apply (updateMaster_step_skip _ _ _ lp _ _ p').
  - by rewrite (same_store_field _ _ _ _ Hobj).
  - by rewrite (same_store_arr _ _ _ Harr), Hpls, list_lookup_fmap, Hp'.
  - rewrite (same_store_same_uri _ _ _ _ Hobj).
    destruct (same_uri w p' ld) eqn:E; [|done]. exfalso.
    assert (p' = p) as -> by (apply Hunique; [by eapply list_elem_of_lookup_2 | done]).
    pose proof (NoDup_lookup _ _ _ _ Hnd Hn Hp'). lia.
Qed.

(** The whole call, given a run of the loop that resolves the uris of the
    segments. *)
Lemma updateMaster_material_run (post : world → world → Prop) :
  (∀ r w6, overlaid w lp ld p pls segs u r w6 →
     ∃ w7, while_down (length segs)
             (λ j _, resolve_segment resolveURL (VObj lm) (VObj p) (Z.of_nat n) j) tt w6
           = (Ret tt, w7) ∧ resolved_only w6 w7 ∧ post w6 w7) →
  ∃ r w6 w7,
    updateMaster resolveURL (VObj lm) (VObj ld) w = (Ret (VObj lm), w7) ∧
    overlaid w lp ld p pls segs u r w6 ∧ resolved_only w6 w7 ∧ post w6 w7.
Proof.
  intros Hloop.
  destruct (updateMaster_prologue resolveURL w lm (VObj ld))
    as (w0 & Hobj & Harr & Hthis & Htm & Hck & Htr & ->).
  rewrite bind_get_obj, (same_store_field _ _ _ _ Hobj), Hplaylists.
  erewrite bind_Ret by apply get_length_arr.
  rewrite (same_store_arr _ _ _ Harr), Hpls, length_fmap.
  erewrite bind_Ret by apply count_down_nat.
  assert (Hlt : (n < length pls)%nat) by (by eapply lookup_lt_Some).
  destruct (updateMaster_material_step false w0 Hobj Harr)
    as (r & w6 & Hstep & Hr & A6 & O6 & T6 & M6 & C6 & R6).
  assert (Hov : overlaid w lp ld p pls segs u r w6).
  { split; [done|]. split; [done|]. split; [done|]. by rewrite T6, M6, C6, R6. }
  destruct (Hloop r w6 Hov) as (w7 & Hrun7 & Hro & Hpost).
  assert (Hturn :
    updateMaster_step resolveURL (VObj lm) (VObj ld) (Z.of_nat n) false w0 = (Ret true, w7)).
  { rewrite Hstep. by erewrite bind_Ret by exact Hrun7. }
  assert (Hr_lp : r ≠ lp) by (intros ->; destruct Hlp as [? E]; congruence).
  assert (Hwhole :
    while_down (length pls) (updateMaster_step resolveURL (VObj lm) (VObj ld)) false w0
    = (Ret true, w7)).
  { replace (length pls) with (S n + (length pls - S n))%nat by lia.
    rewrite (updateMaster_loop_above false w0 Hobj Harr) by lia.
    change (while_down (S n) ?f ?a)
      with (do a' <- f (Z.of_nat n) a; while_down n f a').
    erewrite bind_Ret by exact Hturn.
    apply (updateMaster_loop_skip resolveURL w7 lm lp ld pls true); [| | |lia].
    - rewrite (resolved_only_field _ _ _ _ Hro) by done.
      by destruct (overlaid_ready r w6 Hov) as (E & _).
    - rewrite (resolved_only_arr _ _ _ Hro). unfold arr_at.
      by rewrite A6, lookup_insert_ne, lookup_insert_eq.
    - by eapply overlaid_settled. }
  erewrite bind_Ret by exact Hwhole.
  exists r, w6, w7. split; [done|]. split; [exact Hov|]. split; [exact Hro | exact Hpost].
Qed.

(** X16.  A material update is installed on the playlist in place, when the
    uri of the update is a plain key (it spells no index of
    [master.playlists] and names no built-in member of arrays).  The
    call returns the master itself.  The playlist keeps its identity and its
    place in [master.playlists] and is registered there under its uri; it
    carries every property of the update (the media sequence among them) and
    keeps the properties that the update lacks; its [segments] is a new array
    that holds the segments of the update, the very objects that the parser
    produced, whatever the old list held.  Apart from [resolvedUri]
    properties no other object is changed, and no other array. *)
Theorem updateMaster_installs_update :
  plain_key u = true →
  ∃ r w',
    updateMaster resolveURL (VObj lm) (VObj ld) w = (Ret (VObj lm), w') ∧
    arrs w !! r = None ∧
    elems (arr_at w' lp) = VObj <$> pls ∧
    keyed (arr_at w' lp) !! u = Some (VObj p) ∧
    field w' p "segments" = VArr r ∧
    elems (arr_at w' r) = VObj <$> segs ∧
    (∀ k v, k ≠ "segments" → k ≠ "resolvedUri" →
            obj_at w ld !! k = Some v → obj_at w' p !! k = Some v) ∧
    (∀ k, k ≠ "segments" → k ≠ "resolvedUri" →
          obj_at w ld !! k = None → obj_at w' p !! k = obj_at w p !! k) ∧
    field w' p "mediaSequence" = VNum q ∧
    (∀ l k, l ≠ p → k ≠ "resolvedUri" → obj_at w' l !! k = obj_at w l !! k) ∧
    (∀ l a, l ≠ lp → arrs w !! l = Some a → arrs w' !! l = Some a).
Proof.
  intros _.
  destruct (updateMaster_material_run (λ _ _, True)) as (r & w6 & w7 & Hrun & Hov & Hro & _).
  { intros r w6 Hov.
    destruct (resolve_loop_run resolveURL lm lp n p r segs (length segs) w6)
      as (w7 & Hrun7 & Hro); [by apply overlaid_ready | done |].
    by exists w7. }
  pose proof Hov as (Hr & A6 & O6 & _). destruct Hro as [A7 O7].
  assert (Hr_lp : r ≠ lp) by (intros ->; destruct Hlp as [? E]; congruence).
  assert (P7 : ∀ k, k ≠ "segments" → k ≠ "resolvedUri" →
                    obj_at w7 p !! k = (obj_at w ld ∪ obj_at w p) !! k).
  { intros k Hk Hk'. by rewrite O7, O6, decide_True, lookup_insert_ne. }
  exists r, w7. split; [exact Hrun|]. split; [done|].
  split; [unfold arr_at; by rewrite A7, A6, lookup_insert_ne, lookup_insert_eq|].
  split.
  { unfold arr_at. rewrite A7, A6, lookup_insert_ne, lookup_insert_eq by done.
    simpl. by rewrite lookup_insert_eq. }
  split; [unfold field; by rewrite O7, O6, decide_True, lookup_insert_eq|].
  split; [unfold arr_at; by rewrite A7, A6, lookup_insert_eq|].
  split; [intros k v Hk Hk' E; rewrite P7 by done; by apply lookup_union_Some_l|].
  split; [intros k Hk Hk' E; rewrite P7 by done; by apply lookup_union_r|].
  split.
  { unfold field. rewrite P7 by done.
    by rewrite (lookup_union_Some_l _ _ _ (VNum q)) by (by apply field_Some). }
  split; [intros l k Hl Hk; by rewrite O7, O6, decide_False|].
  intros l a Hl Ha. rewrite A7, A6.
  rewrite lookup_insert_ne by (intros <-; congruence). by rewrite lookup_insert_ne.
Qed.

(** X17.  Uris are resolved lazily and never overwritten.  When the playlist
    has a resolved uri after the overlay, a material update leaves every
    segment of the playlist, and the [key] and [map] of every segment, with a
    [resolvedUri]: the one it had, when it had one, and else its [uri]
    resolved against the resolved uri of the playlist.  A [resolvedUri] that
    was present on any other object is kept. *)
Theorem updateMaster_resolves_lazily :
  let base := default VUndef ((obj_at w ld ∪ obj_at w p) !! "resolvedUri") in
  truthy base = true →
  ∃ w',
    updateMaster resolveURL (VObj lm) (VObj ld) w = (Ret (VObj lm), w') ∧
    field w' p "resolvedUri" = base ∧
    (∀ s, s ∈ segs → field w' s "resolvedUri" = resolved_against resolveURL base w s) ∧
    (∀ s ko, s ∈ segs → ko ≠ p →
       field w s "key" = VObj ko ∨ field w s "map" = VObj ko →
       field w' ko "resolvedUri" = resolved_against resolveURL base w ko) ∧
    (∀ o, o ≠ p → truthy (field w o "resolvedUri") = true →
          field w' o "resolvedUri" = field w o "resolvedUri").
Proof.
  intros base Hbase.
  destruct (refresh_ok_facts w lm ld pls segs Hok) as (Hnd & Hnds & Hm & Hd & Hrefs & Hsegok).
  assert (Hpin : p ∈ pls) by (by eapply list_elem_of_lookup_2).
  assert (Hp_segs : p ∉ segs) by (intros Hin; by destruct (Hsegok p Hin)).
  destruct (updateMaster_material_run (λ w6 w7,
              resolved_from resolveURL base w6 w7 ∧
              ∀ j s, (j < length segs)%nat → segs !! j = Some s →
                field w7 s "resolvedUri" = resolved_against resolveURL base w6 s ∧
                (∀ ko, field w6 s "key" = VObj ko →
                       field w7 ko "resolvedUri" = resolved_against resolveURL base w6 ko) ∧
                (∀ ko, field w6 s "map" = VObj ko →
                       field w7 ko "resolvedUri" = resolved_against resolveURL base w6 ko)))
    as (r & w6 & w7 & Hrun & Hov & _ & Hfrom & Hall).
  { intros r w6 Hov. pose proof Hov as (_ & _ & O6 & _).
    destruct (resolve_loop_values resolveURL base Hbase lm lp n p r segs (length segs) w6)
      as (w7 & Hrun7 & Hfrom & Hall); [by apply overlaid_ready | done | done | |].
    { unfold field. by rewrite O6, decide_True, lookup_insert_ne. }
    exists w7. split; [exact Hrun7|]. split; [by apply (resolved_from_only resolveURL base)|].
    by split. }
  pose proof Hov as (_ & _ & O6 & _).
  assert (F6 : ∀ l k, l ≠ p → field w6 l k = field w l k)
    by (intros; by apply (overlaid_field r)).
  assert (R6 : ∀ l, l ≠ p →
            resolved_against resolveURL base w6 l = resolved_against resolveURL base w l).
  { intros l Hl. unfold resolved_against. by rewrite !F6. }
  assert (B6 : field w6 p "resolvedUri" = base).
  { unfold field. by rewrite O6, decide_True, lookup_insert_ne. }
  exists w7. split; [exact Hrun|].
  split; [by apply (resolved_from_base resolveURL base Hbase w6 w7)|].
  split; [|split].
  - intros s [j Hj]%list_elem_of_lookup.
    destruct (Hall j s) as (Hs & _); [by eapply lookup_lt_Some | done |].
    rewrite Hs. apply R6. intros ->. apply Hp_segs. by eapply list_elem_of_lookup_2.
  - intros s ko Hin Hko Hpart. pose proof Hin as [j Hj]%list_elem_of_lookup.
    assert (Hsp : s ≠ p) by (by intros ->).
    destruct (Hall j s) as (_ & Hkey & Hmap); [by eapply lookup_lt_Some | done |].
    rewrite <- (R6 ko) by done.
    destruct Hpart as [E | E]; [apply Hkey | apply Hmap]; by rewrite F6.
  - intros o Ho Hthere. destruct Hfrom as (_ & _ & Hr).
    destruct (Hr o) as [-> | ->]; [by rewrite F6|].
    unfold resolved_against. by rewrite !F6, Hthere.
Qed.

(** X18.  A material update settles the playlist, when the uri of the
    update is a plain key (it spells no index of [master.playlists] and names
    no built-in member of arrays): once it has been merged, merging the same
    update again changes nothing and returns [null]. *)
Theorem updateMaster_settles :
  plain_key u = true →
  ∃ w' w'',
    updateMaster resolveURL (VObj lm) (VObj ld) w = (Ret (VObj lm), w') ∧
    updateMaster resolveURL (VObj lm) (VObj ld) w' = (Ret VNull, w'') ∧
    (∀ l, obj_at w'' l = obj_at w' l) ∧ arrs w'' = arrs w'.
Proof.
  intros _.
  destruct (updateMaster_material_run (λ _ _, True)) as (r & w6 & w7 & Hrun & Hov & Hro & _).
  { intros r w6 Hov.
    destruct (resolve_loop_run resolveURL lm lp n p r segs (length segs) w6)
      as (w7 & Hrun7 & Hro); [by apply overlaid_ready | done |].
    by exists w7. }
  pose proof Hov as (Hr & A6 & O6 & _).
  assert (Hr_lp : r ≠ lp) by (intros ->; destruct Hlp as [? E]; congruence).
  assert (Hp7 : field w7 lm "playlists" = VArr lp).
  { rewrite (resolved_only_field _ _ _ _ Hro) by done.
    by destruct (overlaid_ready r w6 Hov) as (E & _). }
  assert (Hel7 : elems (arr_at w7 lp) = VObj <$> pls).
  { rewrite (resolved_only_arr _ _ _ Hro). unfold arr_at.
    by rewrite A6, lookup_insert_ne, lookup_insert_eq. }
  pose proof (overlaid_settled r w6 w7 Hov Hro) as Hall.
  destruct (updateMaster_prologue resolveURL w7 lm (VObj ld))
    as (w0 & Hobj & Harr & _ & _ & _ & _ & Hagain).
  exists w7, w0. split; [exact Hrun|]. split; [|done].
  rewrite Hagain, bind_get_obj, (same_store_field _ _ _ _ Hobj), Hp7.
  erewrite bind_Ret by apply get_length_arr.
  rewrite (same_store_arr _ _ _ Harr), Hel7, length_fmap.
  erewrite bind_Ret by apply count_down_nat.
  assert (Hloop :
    while_down (length pls) (updateMaster_step resolveURL (VObj lm) (VObj ld)) false w0
    = (Ret false, w0)).
  { apply (updateMaster_loop_skip resolveURL w0 lm lp ld pls false); [| | |done].
    - by rewrite (same_store_field _ _ _ _ Hobj).
    - by rewrite (same_store_arr _ _ _ Harr).
    - rewrite forallb_forall in Hall |- *. intros p' Hin.
      rewrite (same_store_same_uri _ _ _ _ Hobj), (same_store_no_op _ _ _ _ Hobj Harr).
      by apply Hall. }
  by erewrite bind_Ret by exact Hloop.
Qed.

End UpdateMasterMaterial.

Lemma updateMaster_installs_update_witness :
  ∃ r w',
    updateMaster join_url (VObj 1) (VObj 6) refresh_store = (Ret (VObj 1), w') ∧
    field w' 2 "segments" = VArr r ∧
    elems (arr_at w' r) = [VObj 7; VObj 8; VObj 9] ∧
    field w' 2 "mediaSequence" = VNum 11.
Proof.
  destruct (updateMaster_installs_update join_url refresh_store 1 1 6 3 [2]%positive
              [7; 8; 9]%positive "a.m3u8" 11 0 2)
    as (r & w' & Hrun & _ & _ & _ & Hsegs & Hel & _ & _ & Hseq & _).
  - reflexivity.
  - by eexists.
  - reflexivity.
  - reflexivity.
  - discriminate.
  - reflexivity.
  - by eexists.
  - reflexivity.
  - reflexivity.
  - reflexivity.
  - reflexivity.
  - reflexivity.
  - reflexivity.
  - intros p' Hin _. by apply list_elem_of_singleton in Hin.
  - reflexivity.
  - exists r, w'. split; [exact Hrun|]. split; [exact Hsegs|]. split; [exact Hel | exact Hseq].
Defined.

Lemma updateMaster_resolves_lazily_witness :
  ∃ w',
    updateMaster join_url (VObj 1) (VObj 6) refresh_store = (Ret (VObj 1), w') ∧
    field w' 7 "resolvedUri" = VStr "http://h/a/s11.ts".
Proof.
  destruct (updateMaster_resolves_lazily join_url refresh_store 1 1 6 3 [2]%positive
              [7; 8; 9]%positive "a.m3u8" 11 0 2)
    as (w' & Hrun & _ & Hres & _).
  - reflexivity.
  - by eexists.
  - reflexivity.
  - reflexivity.
  - discriminate.
  - reflexivity.
  - by eexists.
  - reflexivity.
  - reflexivity.
  - reflexivity.
  - reflexivity.
  - reflexivity.
  - reflexivity.
  - intros p' Hin _. by apply list_elem_of_singleton in Hin.
  - reflexivity.
  - exists w'. split; [exact Hrun|]. rewrite (Hres 7%positive); [reflexivity|].
    apply list_elem_of_here.
Defined.

Lemma updateMaster_settles_witness :
  ∃ w' w'',
    updateMaster join_url (VObj 1) (VObj 6) refresh_store = (Ret (VObj 1), w') ∧
    updateMaster join_url (VObj 1) (VObj 6) w' = (Ret VNull, w'').
Proof.
  destruct (updateMaster_settles join_url refresh_store 1 1 6 3 [2]%positive
              [7; 8; 9]%positive "a.m3u8" 11 0 2)
    as (w' & w'' & Hrun & Hagain & _).
  - reflexivity.
  - by eexists.
  - reflexivity.
  - reflexivity.
  - discriminate.
  - reflexivity.
  - by eexists.
  - reflexivity.
  - reflexivity.
  - reflexivity.
  - reflexivity.
  - reflexivity.
  - reflexivity.
  - intros p' Hin _. by apply list_elem_of_singleton in Hin.
  - reflexivity.
  - exists w', w''. split; [exact Hrun | exact Hagain].
Defined.

(** ** The refresh timer *)

Lemma keeps_host_timers {A} (m : M A) : keeps_host m → keeps_timers m.
Proof. intros H w. destruct (H w) as (E & -> & _). by rewrite E. Qed.

Lemma keeps_timers_bind {A B} (m : M A) (k : A → M B) :
  keeps_timers m → (∀ a, keeps_timers (k a)) → keeps_timers (bind m k).
Proof.
  intros Hm Hk w. unfold bind. specialize (Hm w).
  destruct (m w) as [[a|e] w1]; simpl in *; [|done].
  specialize (Hk a w1). destruct Hm as (E1 & E2). rewrite <- E1, <- E2. exact Hk.
Qed.

Lemma keeps_timers_when b (m : M unit) : keeps_timers m → keeps_timers (when b m).
Proof. destruct b; [done|]. by intros _ w. Qed.

Lemma keeps_timers_read {A} (f : Loader → A) : keeps_timers (read f).
Proof. by intros w. Qed.

Lemma keeps_timers_emit e : keeps_timers (modify (emit e)).
Proof. by intros w. Qed.

Lemma keeps_timers_Date_now : keeps_timers Date_now.
Proof. by intros w. Qed.

Lemma keeps_timers_new_array es : keeps_timers (new_array es).
Proof. by intros w. Qed.

Lemma keeps_timers_js_concat s v : keeps_timers (js_concat s v).
Proof. by destruct v; intros w. Qed.

Lemma keeps_timers_compare f a b : keeps_timers (compare f a b).
Proof.
  unfold compare. apply keeps_timers_bind; [by destruct a; intros w|]. intros x.
  apply keeps_timers_bind; [by destruct b; intros w|]. by intros y w.
Qed.

Lemma keeps_timers_js_half v : keeps_timers (js_half v).
Proof.
  unfold js_half. apply keeps_timers_bind; [by destruct v; intros w|].
  intros [z|]; [|by intros w]. by destruct (z mod 2 =? 0)%Z; intros w.
Qed.

Lemma keeps_timers_filter_elems (f : val → M bool) l :
  (∀ x, keeps_timers (f x)) → keeps_timers (filter_elems f l).
Proof.
  intros Hf. induction l as [|x l IH]; simpl; [by intros w|].
  apply keeps_timers_bind; [apply Hf|]. intros b.
  apply keeps_timers_bind; [apply IH|]. by intros r w.
Qed.

Create HintDb timers.
#[export] Hint Resolve keeps_timers_read keeps_timers_emit keeps_timers_Date_now
  keeps_timers_new_array keeps_timers_js_concat keeps_timers_compare keeps_timers_js_half
  keeps_timers_when : timers.
#[export] Hint Extern 2 (keeps_timers _) =>
  apply keeps_host_timers; solve [auto with host] : timers.
#[export] Hint Extern 1 (keeps_timers (write _)) => (by intros ?) : timers.
#[export] Hint Extern 1 (keeps_timers (trigger _)) => (by intros ?) : timers.
#[export] Hint Extern 1 (keeps_timers (abort _)) => (by intros ?) : timers.

(** Splits a method into its statements and closes each with the lemmas on
    the primitives. *)
Ltac keeps_timers :=
  repeat first
    [ solve [auto with timers]
    | apply keeps_timers_bind; [|intros ?]
    | apply keeps_timers_when
    | apply keeps_timers_filter_elems; intros ?
    | match goal with |- keeps_timers (match ?x with _ => _ end) => destruct x end ].

Lemma one_timer_of_timers {A} (m : M A) : keeps_timers m → keeps_one_timer m.
Proof. intros H w Hinv id d. destruct (H w) as (-> & ->). apply Hinv. Qed.

Lemma keeps_one_timer_bind {A B} (m : M A) (k : A → M B) :
  keeps_timers m → (∀ a, keeps_one_timer (k a)) → keeps_one_timer (bind m k).
Proof.
  intros Hm Hk w Hinv. unfold bind. specialize (Hm w).
  destruct (m w) as [[a|e] w1]; simpl in *.
  - apply Hk. intros id d. destruct Hm as (-> & ->). apply Hinv.
  - intros id d. destruct Hm as (-> & ->). apply Hinv.
Qed.

(** Cancelling the timer of the loader keeps the invariant: no timer is left. *)
Lemma clear_keeps_one_timer :
  keeps_one_timer (do t <- read mediaUpdateTimeout; clearTimeout t).
Proof.
  intros w Hinv id d. unfold read. rewrite bind_gets.
  destruct (mediaUpdateTimeout (this w)) as [| | |id0| | | |] eqn:E; simpl; intros Hd.
  all: try (pose proof (Hinv id d Hd) as H; rewrite E in H; discriminate H).
  apply lookup_delete_Some in Hd as [Hne Hd].
  pose proof (Hinv id d Hd) as H. rewrite E in H. by injection H as ->.
Qed.

(** Arming the timer anew, as [haveMetadata] does, keeps the invariant: the
    old timer is cancelled before the new one is set. *)
Lemma rearm_keeps_one_timer :
  keeps_one_timer
    (do old <- read mediaUpdateTimeout;
     clearTimeout old;;
     do delay <- read refreshDelay;
     do id <- setTimeout delay;
     write (with_mediaUpdateTimeout id)).
Proof.
  intros w Hinv. unfold read, write. rewrite bind_gets.
  assert (Hclear : ∃ w1, clearTimeout (mediaUpdateTimeout (this w)) w = (Ret tt, w1) ∧
                         ∀ i x, timers w1 !! i = Some x → False).
  { destruct (mediaUpdateTimeout (this w)) as [| | |id0| | | |] eqn:E;
      (eexists; split; [reflexivity|]); simpl; intros i x Hx.
    all: try (pose proof (Hinv i x Hx) as H; rewrite E in H; discriminate H).
    apply lookup_delete_Some in Hx as [Hne Hx].
    pose proof (Hinv i x Hx) as H. rewrite E in H. by injection H as ->. }
  destruct Hclear as (w1 & Hrun & Hnone).
  erewrite bind_Ret by exact Hrun. rewrite bind_gets.
  unfold setTimeout, bind, modify. simpl. intros id d Hd.
  cbn [timers set_this set_timers] in Hd.
  apply lookup_insert_Some in Hd as [[<- _] | [Hne Hd]]; [done|].
  destruct (Hnone _ _ Hd).
Qed.

Lemma keeps_timers_stopRequest : keeps_timers stopRequest.
Proof. unfold stopRequest. keeps_timers. Qed.

Lemma keeps_timers_setBandwidth xhr : keeps_timers (setBandwidth xhr).
Proof. unfold setBandwidth. keeps_timers. Qed.

Lemma keeps_timers_walk_outdated outdated : ∀ n, keeps_timers (walk_outdated n outdated).
Proof.
  induction n as [|n IH]; [by intros w|].
  cbn [walk_outdated]. unfold js_add. keeps_timers; apply IH.
Qed.

Lemma keeps_timers_updateMediaPlaylist update : keeps_timers (updateMediaPlaylist_ update).
Proof.
  unfold updateMediaPlaylist_, js_sub. keeps_timers. apply keeps_timers_walk_outdated.
Qed.

Lemma keeps_timers_enabledPlaylists : keeps_timers enabledPlaylists.
Proof. unfold enabledPlaylists, Array_filter, js_le. keeps_timers. Qed.

#[export] Hint Resolve keeps_timers_stopRequest keeps_timers_setBandwidth
  keeps_timers_walk_outdated keeps_timers_updateMediaPlaylist
  keeps_timers_enabledPlaylists : timers.

Section TimerInvariant.

Variable resolveURL : val → val → val.
Variable m3u8_Parser : val → M val.

(** The parser sets no timer. *)
Hypothesis Hparser : ∀ text, keeps_timers (m3u8_Parser text).

Lemma keeps_timers_media playlist : keeps_timers (media resolveURL playlist).
Proof. unfold media, hls_xhr. keeps_timers. Qed.

Lemma keeps_timers_isLowest : keeps_timers (isLowestEnabledRendition_ resolveURL).
Proof.
  unfold isLowestEnabledRendition_, Array_filter, lower_or_equal, js_le, js_lt.
  keeps_timers; apply keeps_timers_media.
Qed.

Lemma keeps_timers_onPlaylistRequestError xhr url startingState :
  keeps_timers (onPlaylistRequestError xhr url startingState).
Proof. unfold onPlaylistRequestError, js_ge. keeps_timers. Qed.

Lemma keeps_one_timer_haveMetadata xhr url :
  keeps_one_timer (haveMetadata resolveURL m3u8_Parser xhr url).
Proof.
  unfold haveMetadata, js_mul.
  repeat (apply keeps_one_timer_bind; [|intros ?]).
  all: try (by keeps_timers).
  all: try (apply keeps_host_timers, keeps_host_updateMaster).
  destruct (js_not _); [apply rearm_keeps_one_timer | by intros w].
Qed.

(** X19.  At most one refresh timer is ever pending, and the loader holds
    its handle.  Every method keeps this, whatever its arguments and whether
    it returns or throws: [haveMetadata] cancels the timer it holds before it
    arms a new one, [pause] and [destroy] cancel it, and no other method
    touches a timer.  The parser is taken to set no timer. *)
Theorem one_timer_kept xhr url playlist update startingState :
  keeps_one_timer (haveMetadata resolveURL m3u8_Parser xhr url) ∧
  keeps_one_timer (media resolveURL playlist) ∧
  keeps_one_timer pause ∧
  keeps_one_timer destroy ∧
  keeps_one_timer stopRequest ∧
  keeps_one_timer (updateMediaPlaylist_ update) ∧
  keeps_one_timer (onPlaylistRequestError xhr url startingState) ∧
  keeps_one_timer enabledPlaylists ∧
  keeps_one_timer (isLowestEnabledRendition_ resolveURL).
Proof.
  split; [apply keeps_one_timer_haveMetadata|].
  split; [apply one_timer_of_timers, keeps_timers_media|].
  split; [apply keeps_one_timer_bind;
            [apply keeps_timers_stopRequest | intros _; apply clear_keeps_one_timer]|].
  split; [apply keeps_one_timer_bind;
            [apply keeps_timers_stopRequest | intros _; apply clear_keeps_one_timer]|].
  split; [apply one_timer_of_timers, keeps_timers_stopRequest|].
  split; [apply one_timer_of_timers, keeps_timers_updateMediaPlaylist|].
  split; [apply one_timer_of_timers, keeps_timers_onPlaylistRequestError|].
  split; [apply one_timer_of_timers, keeps_timers_enabledPlaylists|].
  apply one_timer_of_timers, keeps_timers_isLowest.
Qed.

End TimerInvariant.

Lemma one_timer_kept_witness :
  one_timer (snd (haveMetadata join_url (parsed_under_both_names 6) (VObj 10)
                    (VStr "a.m3u8") response_store)) ∧
  one_timer (snd (pause waiting_store)).
Proof.
  assert (Hparser : ∀ text, keeps_timers (parsed_under_both_names 6 text))
    by (by intros text w).
  destruct (one_timer_kept join_url (parsed_under_both_names 6) Hparser (VObj 10)
              (VStr "a.m3u8") VUndef VUndef None) as (Hhave & _ & Hpause & _).
  split.
  - apply Hhave. intros id d Hd. discriminate Hd.
  - apply Hpause. intros id d Hd.
    change (timers waiting_store) with (<[7%Z := VNum 6000]> (∅ : gmap Z val)) in Hd.
    apply lookup_insert_Some in Hd as [[<- _] | [_ Hd]]; [reflexivity | discriminate Hd].
Defined.

(** ** The states of the loader *)

Lemma keeps_host_moves {A} S (m : M A) : keeps_host m → moves_to S m.
Proof. intros H w. destruct (H w) as (-> & _). by left. Qed.

Lemma moves_to_bind {A B} S (m : M A) (k : A → M B) :
  moves_to S m → (∀ a, moves_to S (k a)) → moves_to S (bind m k).
Proof.
  intros Hm Hk w. unfold bind. specialize (Hm w).
  destruct (m w) as [[a|e] w1]; simpl in *; [|done].
  destruct (Hk a w1) as [E | E]; [rewrite E; exact Hm | by right].
Qed.

Lemma moves_to_when S b (m : M unit) : moves_to S m → moves_to S (when b m).
Proof. destruct b; [done|]. intros _ w. by left. Qed.

Lemma moves_to_read {A} S (f : Loader → A) : moves_to S (read f).
Proof. intros w. by left. Qed.

Lemma moves_to_emit S e : moves_to S (modify (emit e)).
Proof. intros w. by left. Qed.

Lemma moves_to_state S s : s ∈ S → moves_to S (write (with_state s)).
Proof. intros Hs w. by right. Qed.

Lemma moves_to_timers S (f : gmap Z val → gmap Z val) : moves_to S (modify (set_timers f)).
Proof. intros w. by left. Qed.

Lemma moves_to_clearTimeout S h : moves_to S (clearTimeout h).
Proof. destruct h; intros w; by left. Qed.

Lemma moves_to_setTimeout S d : moves_to S (setTimeout d).
Proof. intros w. by left. Qed.

Lemma moves_to_filter_elems S (f : val → M bool) l :
  (∀ x, moves_to S (f x)) → moves_to S (filter_elems f l).
Proof.
  intros Hf. induction l as [|x l IH]; simpl; [intros w; by left|].
  apply moves_to_bind; [apply Hf|]. intros b.
  apply moves_to_bind; [apply IH|]. intros r w. by left.
Qed.

Create HintDb states.
#[export] Hint Resolve moves_to_read moves_to_emit moves_to_timers moves_to_clearTimeout
  moves_to_setTimeout moves_to_when : states.
#[export] Hint Extern 2 (moves_to _ _) =>
  apply keeps_host_moves; solve [auto with host] : states.
#[export] Hint Extern 1 (moves_to _ (write (with_state _))) =>
  (apply moves_to_state; set_solver) : states.
#[export] Hint Extern 3 (moves_to _ _) => (intros ?; by left) : states.

(** Splits a method into its statements and closes each with the lemmas on
    the primitives. *)
Ltac moves_to :=
  repeat first
    [ solve [auto with states]
    | match goal with
      | |- moves_to _ (updateMaster _ _ _) => apply keeps_host_moves, keeps_host_updateMaster
      end
    | apply moves_to_bind; [|intros ?]
    | apply moves_to_when
    | apply moves_to_filter_elems; intros ?
    | match goal with |- moves_to _ (match ?x with _ => _ end) => destruct x end ].

Lemma moves_to_walk_outdated S outdated : ∀ n, moves_to S (walk_outdated n outdated).
Proof.
  induction n as [|n IH]; [intros w; by left|].
  cbn [walk_outdated]. unfold js_add. moves_to; apply IH.
Qed.

#[export] Hint Resolve moves_to_walk_outdated : states.

Section States.

Variable resolveURL : val → val → val.
Variable m3u8_Parser : val → M val.

(** The parser does not touch the loader. *)
Hypothesis Hparser : ∀ text, keeps_host (m3u8_Parser text).

(** X20.  The states that each method can leave the loader in.  Whatever
    the arguments, and whether the method returns or throws: [media] leaves
    the state as it is or sets it to HAVE_METADATA or SWITCHING_MEDIA;
    [haveMetadata] leaves it or sets it to HAVE_METADATA;
    [onPlaylistRequestError] leaves it or sets it to the starting state it is
    given, whichever that is; every other method leaves it as it is. *)
Theorem state_transitions xhr url playlist update startingState :
  moves_to [HAVE_METADATA; SWITCHING_MEDIA] (media resolveURL playlist) ∧
  moves_to [HAVE_METADATA] (haveMetadata resolveURL m3u8_Parser xhr url) ∧
  moves_to (option_list startingState) (onPlaylistRequestError xhr url startingState) ∧
  moves_to [] pause ∧ moves_to [] destroy ∧ moves_to [] stopRequest ∧
  moves_to [] (updateMediaPlaylist_ update) ∧
  moves_to [] enabledPlaylists ∧
  moves_to [] (isLowestEnabledRendition_ resolveURL).
Proof.
  split; [unfold media, hls_xhr; moves_to|].
  split.
  { unfold haveMetadata, setBandwidth, js_mul, js_half, updateMediaPlaylist_, js_sub,
      media.
    moves_to. }
  split.
  { unfold onPlaylistRequestError, setBandwidth, js_concat, js_ge, compare.
    destruct startingState; simpl option_list; moves_to. }
  split; [unfold pause, stopRequest; moves_to|].
  split; [unfold destroy, stopRequest; moves_to|].
  split; [unfold stopRequest; moves_to|].
  split; [unfold updateMediaPlaylist_, js_sub; moves_to|].
  split; [unfold enabledPlaylists, Array_filter, js_le, compare; moves_to|].
  unfold isLowestEnabledRendition_, Array_filter, lower_or_equal, js_le, js_lt, compare,
    media.
  moves_to.
Qed.

End States.

Lemma state_transitions_witness :
  state (this (snd (haveMetadata join_url (parsed_under_both_names 6) (VObj 10)
                      (VStr "a.m3u8") response_store)))
    = state (this response_store) ∨
  state (this (snd (haveMetadata join_url (parsed_under_both_names 6) (VObj 10)
                      (VStr "a.m3u8") response_store)))
    ∈ [HAVE_METADATA].
Proof.
  assert (Hparser : ∀ text, keeps_host (parsed_under_both_names 6 text))
    by (by intros text w).
  exact (proj1 (proj2 (state_transitions join_url (parsed_under_both_names 6) Hparser
                         (VObj 10) (VStr "a.m3u8") VUndef VUndef None)) response_store).
Defined.

(** ** Exclusions expire *)

Lemma enabled_later w t p :
  (clock w ≤ t)%Z → enabled w p = true → enabled (at_time t w) p = true.
Proof.
  unfold enabled. change (field (at_time t w) p "excludeUntil") with (field w p "excludeUntil").
  change (clock (at_time t w)) with t.
  intros Ht. destruct (field w p "excludeUntil"); try done.
  intros [H | H]%orb_true_iff; apply orb_true_iff; [by left | right].
  apply Z.leb_le in H. apply Z.leb_le. lia.
Qed.

(** X21.  Exclusions only expire: at a later time, with the playlists as
    they are, [enabledPlaylists] counts at least as many renditions as it
    does now. *)
Theorem enabledPlaylists_later w lm lp pls t :
  master (this w) = VObj lm → field w lm "playlists" = VArr lp →
  elems (arr_at w lp) = VObj <$> pls →
  forallb (exclusion_okb w) pls = true →
  (clock w ≤ t)%Z →
  ∃ n n' : nat,
    fst (enabledPlaylists w) = Ret (VNum (Z.of_nat n)) ∧
    fst (enabledPlaylists (at_time t w)) = Ret (VNum (Z.of_nat n')) ∧
    (n ≤ n')%nat.
Proof.
  intros Hm Hp Hel Hok Ht.
  exists (length (List.filter (enabled w) pls)),
         (length (List.filter (enabled (at_time t w)) pls)).
  split; [by erewrite enabledPlaylists_run|].
  split; [by erewrite (enabledPlaylists_run (at_time t w))|].
  apply filter_length_mono. intros p _. by apply enabled_later.
Qed.

Lemma enabledPlaylists_later_witness :
  ∃ n n' : nat,
    fst (enabledPlaylists renditions_store) = Ret (VNum (Z.of_nat n)) ∧
    fst (enabledPlaylists (at_time 10000 renditions_store)) = Ret (VNum (Z.of_nat n')) ∧
    (n ≤ n')%nat.
Proof.
  apply (enabledPlaylists_later renditions_store 1 1 [2; 3; 4; 5]%positive 10000).
  - reflexivity.
  - reflexivity.
  - reflexivity.
  - reflexivity.
  - vm_compute. discriminate.
Defined.

(** * The Exp-Golomb bit reader *)

Module ExpGolombSpec.

Import ExpGolomb.
Local Open Scope Z_scope.
Local Open Scope reader_scope.

(** ** The 32-bit operators as arithmetic *)

Lemma ToUint32_range x : 0 ≤ ToUint32 x < 2 ^ 32.
Proof. unfold ToUint32. apply Z.mod_pos_bound. lia. Qed.

Lemma ToUint32_small x : 0 ≤ x < 2 ^ 32 → ToUint32 x = x.
Proof. intros H. unfold ToUint32. by apply Z.mod_small. Qed.

Lemma ToUint32_ToInt32 x : ToUint32 (ToInt32 x) = ToUint32 x.
Proof.
  unfold ToInt32, ToUint32. pose proof (Z.mod_pos_bound x (2 ^ 32) ltac:(lia)).
  destruct (Z.ltb_spec (x mod 2 ^ 32) (2 ^ 31)).
  - by rewrite Z.mod_mod.
  - rewrite <- (Z.mod_add _ 1) by lia.
    replace (x mod 2 ^ 32 - 2 ^ 32 + 1 * 2 ^ 32) with (x mod 2 ^ 32) by lia.
    by rewrite Z.mod_mod.
Qed.

Lemma ToInt32_small x : 0 ≤ x < 2 ^ 31 → ToInt32 x = x.
Proof.
  intros H. unfold ToInt32. rewrite Z.mod_small by lia.
  destruct (Z.ltb_spec x (2 ^ 31)); lia.
Qed.

Lemma ToInt32_zero x : ToInt32 x = 0 ↔ ToUint32 x = 0.
Proof.
  unfold ToInt32, ToUint32. pose proof (Z.mod_pos_bound x (2 ^ 32) ltac:(lia)).
  destruct (Z.ltb_spec (x mod 2 ^ 32) (2 ^ 31)); lia.
Qed.

Lemma shift_count n : 0 ≤ n < 32 → ToUint32 n mod 32 = n.
Proof. intros H. rewrite ToUint32_small by lia. apply Z.mod_small. lia. Qed.

Lemma shr_div x n : 0 ≤ n < 32 → shr x n = ToUint32 x / 2 ^ n.
Proof. intros H. unfold shr. rewrite shift_count by done. apply Z.shiftr_div_pow2. lia. Qed.

Lemma ToUint32_shl x n :
  0 ≤ n < 32 → ToUint32 (shl x n) = (ToUint32 x * 2 ^ n) mod 2 ^ 32.
Proof.
  intros H. unfold shl. rewrite shift_count, ToUint32_ToInt32 by done.
  rewrite Z.shiftl_mul_pow2 by lia. unfold ToUint32.
  rewrite <- Z.mul_mod_idemp_l by lia. fold (ToUint32 (ToInt32 x)).
  by rewrite ToUint32_ToInt32.
Qed.

Lemma shl_32 x : shl x 32 = ToInt32 x.
Proof.
  unfold shl. change (ToUint32 32 mod 32) with 0.
  rewrite Z.shiftl_0_r. unfold ToInt32 at 1. fold (ToUint32 (ToInt32 x)).
  rewrite ToUint32_ToInt32. reflexivity.
Qed.

Lemma ToUint32_land x y : ToUint32 (Z.land x y) = Z.land (ToUint32 x) (ToUint32 y).
Proof.
  unfold ToUint32. rewrite <- !Z.land_ones by lia.
  apply Z.bits_inj'. intros n Hn. rewrite !Z.land_spec.
  destruct (Z.testbit x n), (Z.testbit y n), (Z.testbit (Z.ones 32) n); done.
Qed.

Lemma ToUint32_lor x y : ToUint32 (Z.lor x y) = Z.lor (ToUint32 x) (ToUint32 y).
Proof. unfold ToUint32. rewrite <- !Z.land_ones by lia. apply Z.land_lor_distr_l. Qed.

Lemma ToUint32_and32 x y : ToUint32 (and32 x y) = Z.land (ToUint32 x) (ToUint32 y).
Proof. unfold and32. by rewrite ToUint32_ToInt32, ToUint32_land, !ToUint32_ToInt32. Qed.

Lemma ToUint32_or32 x y : ToUint32 (or32 x y) = Z.lor (ToUint32 x) (ToUint32 y).
Proof. unfold or32. by rewrite ToUint32_ToInt32, ToUint32_lor, !ToUint32_ToInt32. Qed.

(** Bits that do not overlap add up. *)
Lemma lor_high_low a b n :
  0 ≤ n → 0 ≤ b < 2 ^ n → Z.lor (a * 2 ^ n) b = a * 2 ^ n + b.
Proof.
  intros Hn Hb. symmetry. apply Z.add_nocarry_lor.
  apply Z.bits_inj'. intros m Hm. rewrite Z.land_spec, Z.bits_0.
  destruct (Z.lt_ge_cases m n) as [Hlt | Hge].
  - by rewrite Z.mul_pow2_bits_low.
  - destruct (Z.eq_dec b 0) as [-> | Hb0]; [by rewrite Z.bits_0, andb_false_r|].
    rewrite (Z.bits_above_log2 b m), andb_false_r; [done | lia |].
    apply Z.lt_le_trans with n; [|done]. apply Z.log2_lt_pow2; lia.
Qed.

(** The test of [_skipLeadingZero]: bit [31 - k] of the word. *)
Lemma and32_mask x k :
  0 ≤ k < 32 →
  (and32 x (shr 2147483648 k) =? 0) = negb (Z.testbit (ToUint32 x) (31 - k)).
Proof.
  intros Hk. rewrite shr_div by done. change (ToUint32 2147483648) with (2 ^ 31).
  replace (2 ^ 31 / 2 ^ k) with (2 ^ (31 - k)).
  2:{ rewrite <- Z.pow_sub_r by lia. done. }
  assert (Hm : ToUint32 (2 ^ (31 - k)) = 2 ^ (31 - k)).
  { apply ToUint32_small. split; [lia|]. apply Z.pow_lt_mono_r; lia. }
  assert (Hland : ToUint32 (and32 x (2 ^ (31 - k)))
                  = if Z.testbit (ToUint32 x) (31 - k) then 2 ^ (31 - k) else 0).
  { rewrite ToUint32_and32, Hm. apply Z.bits_inj'. intros m Hm'.
    rewrite Z.land_spec, Z.pow2_bits_eqb by lia.
    destruct (Z.eqb_spec (31 - k) m) as [<- | Hne].
    - rewrite andb_true_r. destruct (Z.testbit (ToUint32 x) (31 - k)) eqn:E.
      + by rewrite Z.pow2_bits_true by lia.
      + by rewrite Z.bits_0.
    - rewrite andb_false_r. destruct (Z.testbit (ToUint32 x) (31 - k)).
      + by rewrite Z.pow2_bits_false.
      + by rewrite Z.bits_0. }
  destruct (Z.testbit (ToUint32 x) (31 - k)); simpl.
  - apply Z.eqb_neq. intros H0. unfold and32 in H0, Hland.
    apply ToInt32_zero in H0. unfold and32 in Hland.
    rewrite ToUint32_ToInt32 in Hland. rewrite H0 in Hland.
    pose proof (Z.pow_pos_nonneg 2 (31 - k)). lia.
  - apply Z.eqb_eq. unfold and32 in *. apply ToInt32_zero.
    by rewrite ToUint32_ToInt32 in Hland.
Qed.

(** ** Bytes and bits of the buffer *)

Lemma byte_value_range b : 0 ≤ byte_value b < 256.
Proof. unfold byte_value. pose proof (Byte.to_N_bounded b). lia. Qed.

Lemma big_endian_snoc l b : big_endian (l ++ [b]) = big_endian l * 256 + byte_value b.
Proof. unfold big_endian. by rewrite fold_left_app. Qed.

Lemma big_endian_app l1 l2 :
  big_endian (l1 ++ l2) = big_endian l1 * 2 ^ (8 * Z.of_nat (length l2)) + big_endian l2.
Proof.
  induction l2 as [|b l2 IH] using rev_ind.
  - rewrite app_nil_r. change (big_endian []) with 0. simpl. lia.
  - rewrite app_assoc, !big_endian_snoc, IH, length_app. simpl length.
    replace (8 * Z.of_nat (length l2 + 1)) with (8 * Z.of_nat (length l2) + 8) by lia.
    rewrite Z.pow_add_r by lia. lia.
Qed.

Lemma big_endian_range l : 0 ≤ big_endian l < 2 ^ (8 * Z.of_nat (length l)).
Proof.
  induction l as [|b l IH] using rev_ind; [done|].
  rewrite big_endian_snoc, length_app. simpl length.
  replace (8 * Z.of_nat (length l + 1)) with (8 * Z.of_nat (length l) + 8) by lia.
  rewrite Z.pow_add_r by lia. pose proof (byte_value_range b). lia.
Qed.

Lemma big_endian_zeros n : big_endian (replicate n Byte.x00) = 0.
Proof.
  induction n as [|n IH]; [done|].
  change (replicate (S n) Byte.x00) with ([Byte.x00] ++ replicate n Byte.x00).
  rewrite big_endian_app, IH. done.
Qed.

Lemma bits_at_range buf pos n : 0 ≤ n → 0 ≤ bits_at buf pos n < 2 ^ n.
Proof. intros Hn. unfold bits_at. apply Z.mod_pos_bound. lia. Qed.

Lemma bits_at_0 buf pos : bits_at buf pos 0 = 0.
Proof. unfold bits_at. apply Z.mod_1_r. Qed.

(** Reading [a + b] bits is reading [a] bits and then [b] bits. *)
Lemma bits_at_split buf pos a b :
  0 ≤ a → 0 ≤ b → pos + a + b ≤ 8 * Z.of_nat (length buf) →
  bits_at buf pos (a + b) = bits_at buf pos a * 2 ^ b + bits_at buf (pos + a) b.
Proof.
  intros Ha Hb Hend. unfold bits_at.
  set (e := 8 * Z.of_nat (length buf) - pos - (a + b)).
  replace (8 * Z.of_nat (length buf) - pos - a) with (e + b) by lia.
  replace (8 * Z.of_nat (length buf) - (pos + a) - b) with e by lia.
  rewrite (Z.pow_add_r 2 e b), <- Z.div_div by lia.
  rewrite (Z.pow_add_r 2 a b), (Z.mul_comm (2 ^ a)), Z.rem_mul_r by lia.
  lia.
Qed.

Lemma bits_at_high buf pos a b :
  0 ≤ a → 0 ≤ b → pos + a + b ≤ 8 * Z.of_nat (length buf) →
  bits_at buf pos (a + b) / 2 ^ b = bits_at buf pos a.
Proof.
  intros Ha Hb Hend. rewrite bits_at_split by done.
  pose proof (bits_at_range buf (pos + a) b Hb).
  rewrite Z.div_add_l by lia. rewrite Z.div_small by done. lia.
Qed.

Lemma bits_at_low buf pos a b :
  0 ≤ a → 0 ≤ b → pos + a + b ≤ 8 * Z.of_nat (length buf) →
  bits_at buf pos (a + b) mod 2 ^ b = bits_at buf (pos + a) b.
Proof.
  intros Ha Hb Hend. rewrite bits_at_split by done.
  pose proof (bits_at_range buf (pos + a) b Hb).
  rewrite Z.add_comm, Z.mod_add by lia. by apply Z.mod_small.
Qed.

(** Whole bytes of the buffer. *)
Lemma bits_at_bytes buf i k :
  (i + k ≤ length buf)%nat →
  bits_at buf (8 * Z.of_nat i) (8 * Z.of_nat k) = big_endian (take k (drop i buf)).
Proof.
  intros Hik. unfold bits_at.
  rewrite <- (take_drop i buf) at 1. rewrite <- (take_drop k (drop i buf)) at 1.
  rewrite !big_endian_app.
  set (pre := big_endian (take i buf)). set (mid := big_endian (take k (drop i buf))).
  set (suf := drop k (drop i buf)).
  assert (Hmid : 0 ≤ mid < 2 ^ (8 * Z.of_nat k)).
  { subst mid. pose proof (big_endian_range (take k (drop i buf))) as H.
    rewrite length_take, length_drop in H. by rewrite Nat.min_l in H by lia. }
  assert (Hsuf : length suf = (length buf - i - k)%nat).
  { subst suf. rewrite !length_drop. lia. }
  pose proof (big_endian_range suf) as Hs. rewrite Hsuf in *.
  replace (8 * Z.of_nat (length buf) - 8 * Z.of_nat i - 8 * Z.of_nat k)
    with (8 * Z.of_nat (length buf - i - k)) by lia.
  rewrite length_app, length_take, length_drop, Hsuf, Nat.min_l by lia.
  replace (8 * Z.of_nat (k + (length buf - i - k))) with
    (8 * Z.of_nat k + 8 * Z.of_nat (length buf - i - k)) by lia.
  rewrite Z.pow_add_r by lia.
  replace (pre * (2 ^ (8 * Z.of_nat k) * 2 ^ (8 * Z.of_nat (length buf - i - k)))
           + (mid * 2 ^ (8 * Z.of_nat (length buf - i - k)) + big_endian suf))
    with (big_endian suf
          + (pre * 2 ^ (8 * Z.of_nat k) + mid) * 2 ^ (8 * Z.of_nat (length buf - i - k)))
    by lia.
  rewrite Z.div_add by lia. rewrite (Z.div_small (big_endian suf)) by done.
  rewrite Z.add_0_l, Z.add_comm, Z.mod_add by lia. by apply Z.mod_small.
Qed.

(** ** The word of the reader *)

(** A new reader is in step with its buffer. *)
Lemma constructor_synced buf : synced buf (constructor buf).
Proof. unfold synced, position. simpl. repeat split; try done; lia. Qed.

(** The top [n] bits of the word are the next [n] bits of the buffer. *)
Lemma shr_top buf this n :
  synced buf this → 1 ≤ n ≤ _current_word_bits_left this →
  shr (_current_word this) (32 - n) = bits_at buf (position this) n.
Proof.
  intros (Hb & Ht & Hi & Hl & Hp & Hw) Hn.
  rewrite shr_div, Hw by lia.
  set (l := _current_word_bits_left this) in *.
  replace (32 - n) with ((32 - l) + (l - n)) by lia.
  rewrite Z.pow_add_r, (Z.mul_comm (2 ^ (32 - l))) by lia.
  rewrite Z.div_mul_cancel_r by lia.
  replace l with (n + (l - n)) at 1 by lia.
  apply bits_at_high; unfold position in *; fold l in Hp |- *; lia.
Qed.

(** Shifting [n] bits out of the word moves the reader [n] bits on. *)
Lemma advance_synced buf this n :
  synced buf this → 0 ≤ n ≤ _current_word_bits_left this →
  synced buf (set_bits_left (_current_word_bits_left this - n)
                (set_current_word (shl (_current_word this) n) this)).
Proof.
  intros (Hb & Ht & Hi & Hl & Hp & Hw) Hn.
  unfold synced, position in *. cbn [set_bits_left set_current_word _buffer _total_bytes
    _buffer_index _current_word_bits_left _current_word].
  set (l := _current_word_bits_left this) in *.
  repeat (split; [done || lia|]).
  intros Hpos. rewrite ToUint32_shl, Hw by lia.
  set (B := bits_at buf (8 * _buffer_index this - l) l).
  assert (HB : B mod 2 ^ (l - n)
               = bits_at buf (8 * _buffer_index this - (l - n)) (l - n)).
  { subst B. replace l with (n + (l - n)) at 2 by lia.
    replace (8 * _buffer_index this - (l - n)) with (8 * _buffer_index this - l + n) by lia.
    apply bits_at_low; lia. }
  rewrite <- HB.
  replace (B * 2 ^ (32 - l) * 2 ^ n) with (B * 2 ^ (32 - (l - n))).
  2:{ rewrite <- Z.mul_assoc, <- Z.pow_add_r by lia. do 2 f_equal. lia. }
  replace (2 ^ 32) with (2 ^ (l - n) * 2 ^ (32 - (l - n))).
  2:{ rewrite <- Z.pow_add_r by lia. f_equal. lia. }
  apply Z.mul_mod_distr_r; lia.
Qed.

Lemma advance_position this n w :
  position (set_bits_left (_current_word_bits_left this - n) (set_current_word w this))
  = position this + n.
Proof. unfold position. simpl. lia. Qed.

(** The word after a refill. *)
Lemma fillCurrentWord_run buf this :
  _buffer this = Some buf → _total_bytes this = Z.of_nat (length buf) →
  0 ≤ _buffer_index this < _total_bytes this →
  let bytes_read := Z.min 4 (_total_bytes this - _buffer_index this) in
  _fillCurrentWord this
  = (Ret tt,
     set_bits_left (bytes_read * 8)
       (set_buffer_index (_buffer_index this + bytes_read)
          (set_current_word
             (bits_at buf (8 * _buffer_index this) (8 * bytes_read)
              * 2 ^ (32 - 8 * bytes_read)) this))).
Proof.
  intros Hb Ht Hi bytes_read. unfold _fillCurrentWord, bind, gets, modify.
  destruct (Z.leb_spec (_total_bytes this - _buffer_index this) 0); [lia|].
  rewrite Hb. fold bytes_read.
  assert (Hsub : subarray buf (_buffer_index this) (_buffer_index this + bytes_read)
                 = take (Z.to_nat bytes_read) (drop (Z.to_nat (_buffer_index this)) buf)).
  { unfold subarray.
    destruct (Z.ltb_spec (_buffer_index this) 0); [lia|].
    destruct (Z.ltb_spec (_buffer_index this + bytes_read) 0); [lia|].
    rewrite !Z.min_l by lia. f_equal. lia. }
  rewrite Hsub.
  set (sub := take (Z.to_nat bytes_read) (drop (Z.to_nat (_buffer_index this)) buf)).
  assert (Hlen : length sub = Z.to_nat bytes_read).
  { subst sub. rewrite length_take, length_drop. lia. }
  unfold typed_set. rewrite Hlen, length_replicate.
  destruct (Nat.ltb_spec 4 (Z.to_nat bytes_read)); [lia|].
  unfold ret. cbn [_buffer_index set_current_word].
  do 3 f_equal. unfold getUint32.
  rewrite take_ge by (rewrite length_app, length_drop, length_replicate; lia).
  rewrite drop_replicate, big_endian_app, big_endian_zeros, length_replicate, Z.add_0_r.
  f_equal. f_equal; [|f_equal; lia].
  subst sub. rewrite <- bits_at_bytes by lia. f_equal; lia.
Qed.

Lemma fillCurrentWord_synced buf this :
  _buffer this = Some buf → _total_bytes this = Z.of_nat (length buf) →
  0 ≤ _buffer_index this < _total_bytes this →
  ∃ this',
    _fillCurrentWord this = (Ret tt, this') ∧ synced buf this' ∧
    position this' = 8 * _buffer_index this ∧
    _current_word_bits_left this'
    = 8 * Z.min 4 (_total_bytes this - _buffer_index this).
Proof.
  intros Hb Ht Hi. eexists. split; [by apply fillCurrentWord_run|].
  unfold synced, position. simpl. repeat split; try done; try lia.
  intros _. rewrite ToUint32_small.
  - f_equal; [f_equal; lia | f_equal; lia].
  - set (k := Z.min 4 (_total_bytes this - _buffer_index this)).
    pose proof (bits_at_range buf (8 * _buffer_index this) (8 * k) ltac:(lia)).
    split; [apply Z.mul_nonneg_nonneg; lia|].
    replace (2 ^ 32) with (2 ^ (8 * k) * 2 ^ (32 - 8 * k)).
    2:{ rewrite <- Z.pow_add_r by lia. f_equal. lia. }
    apply Z.mul_lt_mono_pos_r; lia.
Qed.

Lemma fillCurrentWord_exhausted this :
  _total_bytes this ≤ _buffer_index this →
  _fillCurrentWord this
  = (Throw (IllegalStateException "ExpGolomb: _fillCurrentWord() but no bytes available"),
     this).
Proof.
  intros H. unfold _fillCurrentWord, bind, gets.
  by destruct (Z.leb_spec (_total_bytes this - _buffer_index this) 0); [|lia].
Qed.

Lemma ToInt32_ToUint32 x : ToInt32 (ToUint32 x) = ToInt32 x.
Proof. unfold ToInt32, ToUint32. by rewrite Z.mod_mod. Qed.

Lemma or32_unsigned x y : or32 x y = ToInt32 (Z.lor (ToUint32 x) (ToUint32 y)).
Proof.
  unfold or32. rewrite <- ToInt32_ToUint32, ToUint32_lor, !ToUint32_ToInt32. done.
Qed.

(** ** readBits *)

Lemma readBits_in_word buf this bits :
  synced buf this → 1 ≤ bits ≤ _current_word_bits_left this →
  readBits bits this
  = (Ret (bits_at buf (position this) bits),
     set_bits_left (_current_word_bits_left this - bits)
       (set_current_word (shl (_current_word this) bits) this)).
Proof.
  intros Hs Hb. pose proof Hs as (_ & _ & _ & Hl & _).
  unfold readBits. destruct (Z.gtb_spec bits 32); [lia|].
  unfold bind, gets, modify, ret.
  destruct (Z.leb_spec bits (_current_word_bits_left this)); [|lia].
  cbn [_current_word_bits_left set_current_word]. by erewrite shr_top.
Qed.

Lemma readBits_across buf this bits :
  synced buf this → _current_word_bits_left this < bits ≤ 32 →
  position this + bits ≤ 8 * Z.of_nat (length buf) →
  ∃ this1,
    _fillCurrentWord this = (Ret tt, this1) ∧ synced buf this1 ∧
    position this1 = position this + _current_word_bits_left this ∧
    bits - _current_word_bits_left this ≤ _current_word_bits_left this1 ∧
    readBits bits this
    = (Ret (ToInt32 (bits_at buf (position this) bits)),
       set_bits_left
         (_current_word_bits_left this1 - (bits - _current_word_bits_left this))
         (set_current_word
            (shl (_current_word this1) (bits - _current_word_bits_left this)) this1)).
Proof.
  intros Hs Hb Hend. pose proof Hs as (Hbuf & Ht & Hi & Hl & Hp & Hw).
  unfold position in Hend, Hp.
  destruct (fillCurrentWord_synced buf this) as (this1 & Hfill & Hs1 & Hp1 & Hl1);
    [done | done | lia |].
  exists this1. split; [done|]. split; [done|].
  split; [rewrite Hp1; unfold position; lia|].
  assert (Hneed : bits - _current_word_bits_left this ≤ _current_word_bits_left this1)
    by lia.
  split; [done|].
  set (l := _current_word_bits_left this) in *.
  set (need := bits - l) in *.
  unfold readBits. destruct (Z.gtb_spec bits 32); [lia|].
  unfold bind at 1. unfold gets at 1.
  destruct (Z.leb_spec bits (_current_word_bits_left this)); [lia|].
  unfold bind at 1. unfold gets at 1. unfold bind at 1. unfold gets at 1.
  unfold bind at 1. rewrite Hfill. unfold bind, gets, modify, ret.
  cbn [_current_word_bits_left set_current_word _current_word].
  fold l need. rewrite (Z.min_l need) by done.
  do 2 f_equal.
  assert (Hr1 : shr (if l =? 0 then 0 else _current_word this) (32 - l)
                = bits_at buf (position this) l).
  { destruct (Z.eqb_spec l 0) as [E | E].
    - rewrite E, bits_at_0. reflexivity.
    - apply shr_top; [done | lia]. }
  rewrite Hr1. erewrite (shr_top buf this1) by (done || lia). rewrite Hp1.
  rewrite or32_unsigned. f_equal.
  pose proof (bits_at_range buf (position this) l ltac:(lia)) as Hr.
  pose proof (bits_at_range buf (8 * _buffer_index this) need ltac:(lia)) as Hr2.
  assert (Hpow : 2 ^ l * 2 ^ need = 2 ^ bits).
  { rewrite <- Z.pow_add_r by lia. f_equal. lia. }
  assert (Hle : 2 ^ bits ≤ 2 ^ 32) by (apply Z.pow_le_mono_r; lia).
  assert (Hlt : 2 ^ need ≤ 2 ^ 32) by (apply Z.pow_le_mono_r; lia).
  rewrite (ToUint32_small (bits_at buf (8 * _buffer_index this) need)) by lia.
  replace (bits_at buf (position this) bits)
    with (bits_at buf (position this) (l + need)) by (f_equal; unfold need; lia).
  rewrite bits_at_split by (unfold position; lia).
  replace (position this + l) with (8 * _buffer_index this) by (unfold position; lia).
  destruct (Z.eq_dec need 32) as [E32 | Hne].
  - assert (l = 0) as -> by lia. rewrite bits_at_0, E32, shl_32. reflexivity.
  - assert (Hll : 2 ^ l ≤ 2 ^ 32) by (apply Z.pow_le_mono_r; lia).
    assert (Hprod : bits_at buf (position this) l * 2 ^ need < 2 ^ l * 2 ^ need)
      by (apply Z.mul_lt_mono_pos_r; lia).
    rewrite ToUint32_shl by lia.
    rewrite (ToUint32_small (bits_at buf (position this) l)) by lia.
    rewrite Z.mod_small by lia.
    apply lor_high_low; lia.
Qed.

(** A read of fewer than 32 bits, which both branches of [readBits] serve
    alike. *)
Lemma readBits_run buf this bits :
  synced buf this → 1 ≤ bits ≤ 31 →
  position this + bits ≤ 8 * Z.of_nat (length buf) →
  ∃ this',
    readBits bits this = (Ret (bits_at buf (position this) bits), this') ∧
    synced buf this' ∧ position this' = position this + bits ∧
    (bits < _current_word_bits_left this → 0 < _current_word_bits_left this') ∧
    _current_word_bits_left this' ≤ 32 - bits + _current_word_bits_left this.
Proof.
  intros Hs Hb Hend.
  pose proof (bits_at_range buf (position this) bits ltac:(lia)) as Hr.
  pose proof Hs as (_ & _ & _ & Hl & _).
  destruct (Z.leb_spec bits (_current_word_bits_left this)) as [Hin | Hout].
  - eexists. split; [by apply readBits_in_word; [|lia]|].
    split; [apply advance_synced; [done | lia]|].
    split; [apply advance_position|]. simpl. lia.
  - destruct (readBits_across buf this bits) as (this1 & _ & Hs1 & Hp1 & Hneed & Hrun);
      [done | lia | done |].
    pose proof Hs1 as (_ & _ & _ & Hl1 & _).
    eexists. split.
    { rewrite Hrun. do 2 f_equal. apply ToInt32_small. split; [lia|].
      apply Z.lt_le_trans with (2 ^ bits); [lia|]. apply Z.pow_le_mono_r; lia. }
    split; [apply advance_synced; [done | lia]|].
    split; [rewrite advance_position, Hp1; lia|]. simpl. lia.
Qed.

(** X22.  [readBits(bits)], for 1 to 32 bits that the buffer still holds,
    returns the next [bits] bits of the buffer, most significant first, and
    moves the reader [bits] bits on, in step with the buffer.  The result is
    the unsigned number, except that a read of 32 bits which starts in the
    middle of a word has gone through [|] and is the signed 32-bit number. *)
Theorem readBits_next_bits buf this bits :
  synced buf this → 1 ≤ bits ≤ 32 →
  position this + bits ≤ 8 * Z.of_nat (length buf) →
  ∃ result this',
    readBits bits this = (Ret result, this') ∧
    synced buf this' ∧ position this' = position this + bits ∧
    result = (if bits <=? _current_word_bits_left this
              then bits_at buf (position this) bits
              else ToInt32 (bits_at buf (position this) bits)) ∧
    ToUint32 result = bits_at buf (position this) bits ∧
    (bits < 32 → result = bits_at buf (position this) bits).
Proof.
  intros Hs Hb Hend.
  pose proof (bits_at_range buf (position this) bits ltac:(lia)) as Hr.
  assert (Hle : 2 ^ bits ≤ 2 ^ 32) by (apply Z.pow_le_mono_r; lia).
  destruct (Z.leb_spec bits (_current_word_bits_left this)) as [Hin | Hout].
  - eexists _, _. split; [by apply readBits_in_word; [|lia]|].
    split; [apply advance_synced; [done | lia]|].
    split; [apply advance_position|]. split; [done|].
    split; [apply ToUint32_small; lia|done].
  - destruct (readBits_across buf this bits) as (this1 & _ & Hs1 & Hp1 & Hneed & Hrun);
      [done | lia | done |].
    pose proof Hs as (_ & _ & _ & Hl & _).
    eexists _, _. split; [exact Hrun|].
    split; [apply advance_synced; [done | lia]|].
    split; [rewrite advance_position, Hp1; lia|]. split; [done|].
    split.
    + rewrite ToUint32_ToInt32. apply ToUint32_small. lia.
    + intros H32. apply ToInt32_small. split; [lia|].
      apply Z.lt_le_trans with (2 ^ bits); [lia|]. apply Z.pow_le_mono_r; lia.
Qed.

(** X23.  What [readBits] does with a request it cannot serve.  More than
    32 bits: InvalidArgumentException, the reader untouched.  At most 32 bits
    but more than the buffer still holds: while a byte is left to take, the
    read does not fail, it returns the bits that remain, as a read of just
    these bits would, and leaves the reader at the end of the buffer; once
    every byte has been taken, it fails with IllegalStateException, the
    reader untouched. *)
Theorem readBits_out_of_range buf this bits :
  synced buf this →
  (32 < bits →
   readBits bits this
   = (Throw (InvalidArgumentException "ExpGolomb: readBits() bits exceeded max 32bits!"),
      this)) ∧
  (bits ≤ 32 → 8 * Z.of_nat (length buf) < position this + bits →
   (_buffer_index this < _total_bytes this →
    ∃ this',
      readBits bits this
      = (Ret (bits_at buf (position this) (8 * Z.of_nat (length buf) - position this)),
         this') ∧
      synced buf this' ∧ position this' = 8 * Z.of_nat (length buf) ∧
      _current_word_bits_left this' = 0) ∧
   (_buffer_index this = _total_bytes this →
    readBits bits this
    = (Throw (IllegalStateException
                "ExpGolomb: _fillCurrentWord() but no bytes available"),
       this))).
Proof.
  intros Hs. split.
  { intros H. unfold readBits. by destruct (Z.gtb_spec bits 32); [|lia]. }
  intros Hb Hend. split.
  2:{ intros Hi. pose proof Hs as (_ & Ht & _ & Hl & _).
      unfold position in Hend. unfold readBits. destruct (Z.gtb_spec bits 32); [lia|].
      unfold bind at 1. unfold gets at 1.
      destruct (Z.leb_spec bits (_current_word_bits_left this)); [lia|].
      unfold bind at 1. unfold gets at 1. unfold bind at 1. unfold gets at 1.
      unfold bind at 1. by rewrite fillCurrentWord_exhausted by lia. }
  intros Hi. pose proof Hs as (Hbuf & Ht & Hi' & Hl & Hp & Hw).
  unfold position in Hend, Hp.
  destruct (fillCurrentWord_synced buf this) as (this1 & Hfill & Hs1 & Hp1 & Hl1);
    [done | done | lia |].
  assert (Hk : _current_word_bits_left this1
               = 8 * (_total_bytes this - _buffer_index this)) by lia.
  assert (Hi1 : _buffer_index this1 = _total_bytes this).
  { unfold position in Hp1. lia. }
  set (l := _current_word_bits_left this) in *.
  set (l1 := _current_word_bits_left this1) in *.
  exists (set_bits_left (l1 - l1) (set_current_word (shl (_current_word this1) l1) this1)).
  split.
  2:{ split; [apply advance_synced; [done | lia]|].
      split; [unfold position; simpl; lia|].
      simpl. lia. }
  unfold readBits. destruct (Z.gtb_spec bits 32); [lia|].
  unfold bind at 1. unfold gets at 1. fold l.
  destruct (Z.leb_spec bits l); [lia|].
  unfold bind at 1. unfold gets at 1. unfold bind at 1. unfold gets at 1.
  unfold bind at 1. rewrite Hfill. unfold bind, gets, modify, ret.
  cbn [_current_word_bits_left set_current_word _current_word].
  fold l l1. rewrite (Z.min_r (bits - l)) by lia.
  do 2 f_equal.
  assert (Hr1 : shr (if l =? 0 then 0 else _current_word this) (32 - l)
                = bits_at buf (position this) l).
  { destruct (Z.eqb_spec l 0) as [E | E].
    - rewrite E, bits_at_0. reflexivity.
    - apply shr_top; [done | lia]. }
  rewrite Hr1. erewrite (shr_top buf this1) by (done || lia). rewrite Hp1.
  pose proof (bits_at_range buf (position this) l ltac:(lia)) as Hr.
  pose proof (bits_at_range buf (8 * _buffer_index this) l1 ltac:(lia)) as Hr2.
  assert (Hsum : l + l1 ≤ 31) by lia.
  assert (Hpow : 2 ^ l * 2 ^ l1 = 2 ^ (l + l1)) by (rewrite <- Z.pow_add_r by lia; done).
  assert (Hle : 2 ^ (l + l1) ≤ 2 ^ 31) by (apply Z.pow_le_mono_r; lia).
  assert (Hll : 2 ^ l ≤ 2 ^ 31) by (apply Z.pow_le_mono_r; lia).
  assert (Hl1' : 2 ^ l1 ≤ 2 ^ 31) by (apply Z.pow_le_mono_r; lia).
  assert (Hprod : bits_at buf (position this) l * 2 ^ l1 < 2 ^ l * 2 ^ l1)
    by (apply Z.mul_lt_mono_pos_r; lia).
  replace (8 * Z.of_nat (length buf) - position this) with (l + l1)
    by (unfold position; fold l; lia).
  rewrite bits_at_split by (unfold position; fold l; lia).
  replace (position this + l) with (8 * _buffer_index this) by (unfold position; lia).
  rewrite or32_unsigned, ToUint32_shl by lia.
  rewrite (ToUint32_small (bits_at buf (position this) l)) by lia.
  rewrite (ToUint32_small (bits_at buf (8 * _buffer_index this) l1)) by lia.
  rewrite Z.mod_small by lia.
  rewrite lor_high_low by lia. apply ToInt32_small.
  assert (bits_at buf (position this) l * 2 ^ l1 ≤ (2 ^ l - 1) * 2 ^ l1)
    by (apply Z.mul_le_mono_nonneg_r; lia).
  assert (0 ≤ bits_at buf (position this) l * 2 ^ l1)
    by (apply Z.mul_nonneg_nonneg; lia).
  lia.
Qed.

(** X24.  Reads compose: reading [a] bits and then [b] bits gives the two
    halves of what one read of [a + b] bits gives, and leaves the reader at
    the same bit. *)
Theorem readBits_composes buf this a b :
  synced buf this → 1 ≤ a → 1 ≤ b → a + b ≤ 31 →
  position this + a + b ≤ 8 * Z.of_nat (length buf) →
  ∃ ra rb this2 r this',
    (do x <- readBits a; do y <- readBits b; ret (x, y)) this = (Ret (ra, rb), this2) ∧
    readBits (a + b) this = (Ret r, this') ∧
    r = ra * 2 ^ b + rb ∧ 0 ≤ rb < 2 ^ b ∧
    position this2 = position this' ∧ synced buf this2 ∧ synced buf this'.
Proof.
  intros Hs Ha Hb Hab Hend.
  destruct (readBits_run buf this a) as (this1 & Hra & Hs1 & Hp1 & _); [done | lia | lia |].
  destruct (readBits_run buf this1 b) as (this2 & Hrb & Hs2 & Hp2 & _);
    [done | lia | lia |].
  destruct (readBits_run buf this (a + b)) as (this' & Hr & Hs' & Hp' & _);
    [done | lia | lia |].
  eexists _, _, this2, _, this'.
  split; [unfold bind; by rewrite Hra, Hrb|].
  split; [done|]. rewrite Hp1.
  split; [apply bits_at_split; lia|].
  split; [apply bits_at_range; lia|].
  split; [lia | done].
Qed.

(** ** skipBits *)

Lemma sar_3 c : 0 ≤ c < 2 ^ 31 → sar c 3 = c / 8.
Proof.
  intros H. unfold sar. rewrite ToInt32_small by done.
  change (ToUint32 3 mod 32) with 3. by rewrite Z.shiftr_div_pow2.
Qed.

Lemma skipBits_in_word this count :
  count < _current_word_bits_left this →
  skipBits count this
  = (Ret tt, set_bits_left (_current_word_bits_left this - count)
               (set_current_word (shl (_current_word this) count) this)).
Proof.
  intros H. unfold skipBits, bind, gets, modify.
  by destruct (Z.gtb_spec (_current_word_bits_left this) count); [|lia].
Qed.

(** The other branch: [skipBytes] bytes are passed over, the word is
    refilled, and [count'] bits are shifted out of it. *)
Lemma skipBits_refill buf this count :
  synced buf this →
  _current_word_bits_left this ≤ count < _current_word_bits_left this + 64 →
  let count' := count - _current_word_bits_left this in
  _buffer_index this + count' / 8 < _total_bytes this →
  ∃ this1,
    synced buf this1 ∧
    position this1 = 8 * (_buffer_index this + count' / 8) ∧
    _current_word_bits_left this1
    = 8 * Z.min 4 (_total_bytes this - (_buffer_index this + count' / 8)) ∧
    skipBits count this
    = (Ret tt, set_bits_left (_current_word_bits_left this1 - count')
                 (set_current_word (shl (_current_word this1) count') this1)).
Proof.
  intros Hs Hc count' Hi. pose proof Hs as (Hbuf & Ht & Hi' & Hl & Hp & Hw).
  assert (Hdiv : 0 ≤ count' / 8 < 8).
  { split; [apply Z.div_pos; lia | apply Z.div_lt_upper_bound; lia]. }
  destruct (fillCurrentWord_synced buf
              (set_buffer_index (_buffer_index this + count' / 8) this))
    as (this1 & Hfill & Hs1 & Hp1 & Hl1); [done | done | simpl; lia |].
  exists this1. split; [done|]. split; [done|]. split; [done|].
  unfold skipBits. unfold bind at 1. unfold gets at 1.
  destruct (Z.gtb_spec (_current_word_bits_left this) count); [lia|].
  unfold bind at 1. unfold gets at 1. fold count'.
  rewrite (sar_3 count') by lia. rewrite (sar_3 (count' / 8)) by lia.
  rewrite (Z.div_small (count' / 8)), Z.sub_0_r by lia.
  unfold bind at 1. unfold gets at 1. unfold bind at 1. unfold modify at 1.
  unfold bind at 1. rewrite Hfill. reflexivity.
Qed.

(** X25.  [skipBits(count)] moves the reader [count] bits on, in step with
    the buffer, when the skip ends in the current word or less than 8 bits
    into the next one (with a byte left to refill from). *)
Theorem skipBits_advances buf this count :
  synced buf this → 0 ≤ count → count - _current_word_bits_left this < 8 →
  (_current_word_bits_left this ≤ count → _buffer_index this < _total_bytes this) →
  ∃ this',
    skipBits count this = (Ret tt, this') ∧
    synced buf this' ∧ position this' = position this + count.
Proof.
  intros Hs H0 H8 Hi. pose proof Hs as (Hbuf & Ht & Hi' & Hl & Hp & Hw).
  destruct (Z.lt_ge_cases count (_current_word_bits_left this)) as [Hin | Hout].
  - eexists. split; [by apply skipBits_in_word|].
    split; [apply advance_synced; [done | lia] | apply advance_position].
  - assert (Hdiv : (count - _current_word_bits_left this) / 8 = 0)
      by (apply Z.div_small; lia).
    destruct (skipBits_refill buf this count) as (this1 & Hs1 & Hp1 & Hl1 & Hrun);
      [done | lia | rewrite Hdiv; lia |].
    rewrite Hdiv in *.
    eexists. split; [exact Hrun|].
    split; [apply advance_synced; [done | lia]|].
    rewrite advance_position, Hp1. unfold position. lia.
Qed.

(** X26.  A skip that ends 8 bits or more past the current word goes too far:
    the whole bytes of the distance are passed over in the buffer and then
    shifted out of the refilled word once more, so the reader ends
    [8 * ((count - left) / 8)] bits beyond [count]. *)
Theorem skipBits_overshoots buf this count :
  synced buf this →
  8 ≤ count - _current_word_bits_left this ≤ 32 →
  _buffer_index this + (count - _current_word_bits_left this) / 8 + 4
    ≤ _total_bytes this →
  ∃ this',
    skipBits count this = (Ret tt, this') ∧ synced buf this' ∧
    position this'
    = position this + count + 8 * ((count - _current_word_bits_left this) / 8).
Proof.
  intros Hs Hc Hi. set (count' := count - _current_word_bits_left this) in *.
  pose proof Hs as (Hbuf & Ht & Hi' & Hl & Hp & Hw).
  assert (Hdiv : 1 ≤ count' / 8 ≤ 4).
  { split; [apply Z.div_le_lower_bound; lia | apply Z.div_le_upper_bound; lia]. }
  destruct (skipBits_refill buf this count) as (this1 & Hs1 & Hp1 & Hl1 & Hrun);
    [done | lia | fold count'; lia |].
  fold count' in Hp1, Hl1, Hrun.
  eexists. split; [exact Hrun|].
  split; [apply advance_synced; [done | lia]|].
  rewrite advance_position, Hp1. unfold position. lia.
Qed.

(** ** _skipLeadingZero *)

(** The loop stops at the first set bit of the word. *)
Lemma leading_zero_loop_found word k : ∀ n zero_count,
  ToUint32 word / 2 ^ (31 - k) = 1 →
  0 ≤ zero_count ≤ k → k ≤ 31 → k < zero_count + Z.of_nat n →
  leading_zero_loop n zero_count word = inl k.
Proof.
  induction n as [|n IH]; intros zc Hu Hzc Hk Hn; [lia|].
  cbn [leading_zero_loop]. rewrite and32_mask by lia.
  rewrite negb_involutive, Z.testbit_eqb by lia.
  destruct (Z.eq_dec zc k) as [-> | Hne].
  - by rewrite Hu.
  - replace (31 - zc) with ((31 - k) + (k - zc)) by lia.
    rewrite Z.pow_add_r, <- Z.div_div, Hu by lia.
    rewrite Z.div_small.
    2:{ split; [lia|]. apply (Z.pow_lt_mono_r 2 0); lia. }
    change (0 mod 2 =? 1) with false. cbv iota. apply IH; lia.
Qed.

Lemma leading_zero_loop_none word : ∀ n zero_count,
  ToUint32 word = 0 → 0 ≤ zero_count → zero_count + Z.of_nat n ≤ 32 →
  leading_zero_loop n zero_count word = inr (zero_count + Z.of_nat n).
Proof.
  induction n as [|n IH]; intros zc Hu Hzc Hn; [simpl; f_equal; lia|].
  cbn [leading_zero_loop]. rewrite and32_mask, Hu, Z.bits_0 by lia.
  simpl negb. cbv iota. rewrite IH by lia. f_equal. lia.
Qed.

(** A refill either throws or takes at least one byte. *)
Lemma fillCurrentWord_progress this :
  match _fillCurrentWord this with
  | (Ret _, this') =>
    _total_bytes this' = _total_bytes this ∧ _buffer_index this < _buffer_index this' ∧
    _buffer_index this < _total_bytes this
  | (Throw _, _) => True
  | (OutOfFuel, _) => False
  end.
Proof.
  unfold _fillCurrentWord, bind, gets, modify, throw.
  destruct (Z.leb_spec (_total_bytes this - _buffer_index this) 0); [done|].
  destruct (_buffer this) as [buf|]; [|done].
  unfold typed_set. destruct (_ <? _)%nat; [done|]. unfold ret. simpl. lia.
Qed.

Lemma skipLeadingZero_rec_total : ∀ fuel this,
  (Z.to_nat (_total_bytes this - _buffer_index this) < fuel)%nat →
  fst (skipLeadingZero_rec fuel this) ≠ OutOfFuel.
Proof.
  induction fuel as [|fuel IH]; intros this Hf; [lia|].
  cbn [skipLeadingZero_rec]. unfold bind at 1. unfold gets at 1.
  unfold bind at 1. unfold gets at 1.
  destruct (leading_zero_loop _ _ _) as [zc | zc]; [done|].
  unfold bind at 1. pose proof (fillCurrentWord_progress this) as Hp.
  destruct (_fillCurrentWord this) as [[[]|e|] this1]; [|done|done].
  destruct Hp as (Ht & Hi & Hlt).
  unfold bind, ret. specialize (IH this1 ltac:(lia)).
  by destruct (skipLeadingZero_rec fuel this1) as [[r|e|] this2].
Qed.

(** The count when the next set bit of the buffer is [k] bits ahead. *)
Lemma skipLeadingZero_rec_counts buf : ∀ fuel this k,
  synced buf this →
  (Z.to_nat (_total_bytes this - _buffer_index this) < fuel)%nat →
  0 ≤ k → position this + k + 1 ≤ 8 * Z.of_nat (length buf) →
  bits_at buf (position this) (k + 1) = 1 →
  ∃ this',
    skipLeadingZero_rec fuel this = (Ret k, this') ∧ synced buf this' ∧
    position this' = position this + k ∧ 0 < _current_word_bits_left this'.
Proof.
  induction fuel as [|fuel IH]; intros this k Hs Hf Hk Hend Hone; [lia|].
  pose proof Hs as (Hbuf & Ht & Hi & Hl & Hp & Hw).
  cbn [skipLeadingZero_rec]. unfold bind at 1. unfold gets at 1.
  unfold bind at 1. unfold gets at 1.
  set (l := _current_word_bits_left this) in *.
  destruct (Z.lt_ge_cases k l) as [Hin | Hout].
  - rewrite (leading_zero_loop_found _ k).
    + unfold bind, gets, modify, ret. cbn [_current_word_bits_left set_current_word].
      eexists. split; [reflexivity|].
      split; [apply advance_synced; [done | lia]|].
      split; [apply advance_position|]. simpl. fold l. lia.
    + rewrite <- shr_div by lia. replace (31 - k) with (32 - (k + 1)) by lia.
      rewrite (shr_top buf) by (done || lia). done.
    + lia.
    + lia.
    + lia.
  - assert (Hzero : bits_at buf (position this) l = 0).
    { rewrite <- (bits_at_high buf (position this) l (k + 1 - l)) by lia.
      replace (l + (k + 1 - l)) with (k + 1) by lia. rewrite Hone.
      apply Z.div_small. split; [lia|]. apply (Z.pow_lt_mono_r 2 0); lia. }
    assert (Hloop : leading_zero_loop (Z.to_nat l) 0 (_current_word this) = inr l).
    { destruct (Z.eq_dec l 0) as [E | E]; [by rewrite E|].
      rewrite leading_zero_loop_none; [f_equal; lia | | lia | lia].
      rewrite Hw, Hzero by lia. done. }
    rewrite Hloop. unfold position in Hend, Hp. fold l in Hend, Hp.
    destruct (fillCurrentWord_synced buf this) as (this1 & Hfill & Hs1 & Hp1 & Hl1);
      [done | done | lia |].
    pose proof (fillCurrentWord_progress this) as Hprog. rewrite Hfill in Hprog.
    destruct Hprog as (Ht1 & Hi1 & _).
    destruct (IH this1 (k - l)) as (this' & Hrec & Hs' & Hp' & Hl'); [done | lia | lia | | |].
    { rewrite Hp1. lia. }
    { rewrite Hp1. replace (8 * _buffer_index this) with (position this + l)
        by (unfold position; fold l; lia).
      replace (k - l + 1) with (k + 1 - l) by lia.
      rewrite <- bits_at_low by (unfold position; fold l; lia).
      replace (l + (k + 1 - l)) with (k + 1) by lia. rewrite Hone.
      apply Z.mod_small. split; [lia|]. apply (Z.pow_lt_mono_r 2 0); lia. }
    exists this'. unfold bind. rewrite Hfill, Hrec. unfold ret.
    split; [do 2 f_equal; lia|]. split; [done|].
    split; [rewrite Hp', Hp1; unfold position; fold l; lia | done].
Qed.

(** Nothing but zeros up to the end of the buffer. *)
Lemma skipLeadingZero_rec_zeros buf : ∀ fuel this,
  synced buf this →
  (Z.to_nat (_total_bytes this - _buffer_index this) < fuel)%nat →
  bits_at buf (position this) (8 * Z.of_nat (length buf) - position this) = 0 →
  ∃ this',
    skipLeadingZero_rec fuel this
    = (Throw (IllegalStateException "ExpGolomb: _fillCurrentWord() but no bytes available"),
       this') ∧
    _buffer_index this' = _total_bytes this'.
Proof.
  induction fuel as [|fuel IH]; intros this Hs Hf Hz; [lia|].
  pose proof Hs as (Hbuf & Ht & Hi & Hl & Hp & Hw).
  cbn [skipLeadingZero_rec]. unfold bind at 1. unfold gets at 1.
  unfold bind at 1. unfold gets at 1.
  unfold position in Hz, Hp.
  set (l := _current_word_bits_left this) in *.
  set (rest := 8 * Z.of_nat (length buf) - 8 * _buffer_index this).
  replace (8 * Z.of_nat (length buf) - (8 * _buffer_index this - l)) with (l + rest) in Hz
    by (unfold rest; lia).
  assert (Hrest : 0 ≤ rest) by (unfold rest; lia).
  assert (Hzero : bits_at buf (8 * _buffer_index this - l) l = 0).
  { rewrite <- (bits_at_high buf _ l rest) by (unfold rest; lia). by rewrite Hz. }
  assert (Hloop : leading_zero_loop (Z.to_nat l) 0 (_current_word this) = inr l).
  { destruct (Z.eq_dec l 0) as [E | E]; [by rewrite E|].
    rewrite leading_zero_loop_none; [f_equal; lia | | lia | lia].
    rewrite Hw by lia. unfold position. fold l. by rewrite Hzero. }
  rewrite Hloop. unfold bind at 1.
  destruct (Z.eq_dec (_buffer_index this) (_total_bytes this)) as [Eend | Hmore].
  - rewrite fillCurrentWord_exhausted by lia. by exists this.
  - destruct (fillCurrentWord_synced buf this) as (this1 & Hfill & Hs1 & Hp1 & Hl1);
      [done | done | lia |].
    pose proof (fillCurrentWord_progress this) as Hprog. rewrite Hfill in Hprog.
    destruct Hprog as (Ht1 & Hi1 & _).
    destruct (IH this1) as (this' & Hrec & Hend'); [done | lia | |].
    { rewrite Hp1. fold rest.
      replace (8 * _buffer_index this) with (8 * _buffer_index this - l + l) by lia.
      rewrite <- (bits_at_low buf (8 * _buffer_index this - l) l rest)
        by (unfold rest; lia).
      rewrite Hz. apply Z.mod_0_l, Z.pow_nonzero; lia. }
    exists this'. rewrite Hfill. unfold bind. by rewrite Hrec.
Qed.

(** X27.  [_skipLeadingZero] counts the zero bits up to the next set bit of
    the buffer, however many words they span, and leaves the reader on that
    bit, in step with the buffer. *)
Theorem skipLeadingZero_counts buf this k :
  synced buf this → 0 ≤ k →
  position this + k + 1 ≤ 8 * Z.of_nat (length buf) →
  bits_at buf (position this) (k + 1) = 1 →
  ∃ this',
    _skipLeadingZero this = (Ret k, this') ∧ synced buf this' ∧
    position this' = position this + k ∧ 0 < _current_word_bits_left this'.
Proof.
  intros Hs Hk Hend Hone. unfold _skipLeadingZero, bind, gets.
  apply skipLeadingZero_rec_counts; try done. lia.
Qed.

(** X28.  [_skipLeadingZero] always ends: the calls it makes to itself are
    bounded by the bytes left in the buffer.  When only zero bits remain, it
    ends with the IllegalStateException of the refill, with every byte of
    the buffer taken. *)
Theorem skipLeadingZero_ends buf this :
  fst (_skipLeadingZero this) ≠ OutOfFuel ∧
  (synced buf this →
   bits_at buf (position this) (8 * Z.of_nat (length buf) - position this) = 0 →
   ∃ this',
     _skipLeadingZero this
     = (Throw (IllegalStateException "ExpGolomb: _fillCurrentWord() but no bytes available"),
        this') ∧
     _buffer_index this' = _total_bytes this').
Proof.
  unfold _skipLeadingZero, bind, gets. split.
  - apply skipLeadingZero_rec_total. lia.
  - intros Hs Hz. apply (skipLeadingZero_rec_zeros buf); try done. lia.
Qed.

(** ** Exp-Golomb codes *)

(** The bit after [k] zeros that end in a set bit. *)
Lemma bits_at_marker buf pos k :
  0 ≤ pos → 0 ≤ k → pos + k + 1 ≤ 8 * Z.of_nat (length buf) →
  bits_at buf pos (k + 1) = 1 → bits_at buf (pos + k) 1 = 1.
Proof.
  intros Hp Hk Hend Hone. rewrite <- bits_at_low by lia. by rewrite Hone.
Qed.

(** X29.  [readUEG] decodes an unsigned Exp-Golomb code: on [k] zero bits, a
    set bit and [k] more bits that read as the number [x], for [k] up to 30,
    it returns [2^k - 1 + x] and leaves the reader after the code. *)
Theorem readUEG_decodes buf this k :
  synced buf this → 0 ≤ k ≤ 30 →
  position this + 2 * k + 1 ≤ 8 * Z.of_nat (length buf) →
  bits_at buf (position this) (k + 1) = 1 →
  ∃ this',
    readUEG this = (Ret (2 ^ k - 1 + bits_at buf (position this + k + 1) k), this') ∧
    synced buf this' ∧ position this' = position this + 2 * k + 1.
Proof.
  intros Hs Hk Hend Hone. pose proof Hs as (_ & _ & _ & _ & Hp & _).
  unfold readUEG, _skipLeadingZero. unfold bind at 1. unfold bind at 1. unfold gets at 1.
  unfold bind at 1. unfold gets at 1.
  destruct (skipLeadingZero_rec_counts buf
              (S (Z.to_nat (_total_bytes this - _buffer_index this))) this k)
    as (this1 & Hzeros & Hs1 & Hp1 & Hl1); [done | lia | lia | lia | done |].
  rewrite Hzeros.
  destruct (readBits_run buf this1 (k + 1)) as (this2 & Hbits & Hs2 & Hp2 & _);
    [done | lia | lia |].
  unfold bind. rewrite Hbits. unfold ret.
  exists this2. split; [|split; [done | lia]].
  do 2 f_equal. rewrite Hp1.
  replace (k + 1) with (1 + k) at 1 by lia.
  rewrite bits_at_split, bits_at_marker by lia.
  lia.
Qed.

(** X30.  [skipUEG] passes over an unsigned Exp-Golomb code with at most 7
    leading zeros and leaves the reader where [readUEG] does, provided the
    buffer does not end with the code. *)
Theorem skipUEG_passes buf this k :
  synced buf this → 0 ≤ k ≤ 7 →
  position this + 2 * k + 1 < 8 * Z.of_nat (length buf) →
  bits_at buf (position this) (k + 1) = 1 →
  ∃ this',
    skipUEG this = (Ret tt, this') ∧ synced buf this' ∧
    position this' = position this + 2 * k + 1 ∧
    position (snd (readUEG this)) = position this'.
Proof.
  intros Hs Hk Hend Hone. pose proof Hs as (_ & _ & _ & _ & Hp & _).
  destruct (skipLeadingZero_rec_counts buf
              (S (Z.to_nat (_total_bytes this - _buffer_index this))) this k)
    as (this1 & Hzeros & Hs1 & Hp1 & Hl1); [done | lia | lia | lia | done |].
  pose proof Hs1 as (_ & Ht1 & Hi1 & Hl1' & _).
  assert (Hskip : ∃ this', skipBits (1 + k) this1 = (Ret tt, this') ∧ synced buf this' ∧
                           position this' = position this1 + (1 + k)).
  { destruct (Z.lt_ge_cases (1 + k) (_current_word_bits_left this1)) as [Hin | Hout].
    - eexists. split; [by apply skipBits_in_word|].
      split; [apply advance_synced; [done | lia] | apply advance_position].
    - assert (Hdiv : (1 + k - _current_word_bits_left this1) / 8 = 0)
        by (apply Z.div_small; lia).
      assert (Hmore : _buffer_index this1 < _total_bytes this1)
        by (unfold position in *; lia).
      destruct (skipBits_refill buf this1 (1 + k)) as (this2 & Hs2 & Hp2 & Hl2 & Hrun);
        [done | lia | rewrite Hdiv; lia |].
      rewrite Hdiv in *.
      eexists. split; [exact Hrun|].
      split; [apply advance_synced; [done | lia]|].
      rewrite advance_position, Hp2. unfold position. lia. }
  destruct Hskip as (this' & Hskip & Hs' & Hp').
  destruct (readBits_run buf this1 (k + 1)) as (this2 & Hbits & Hs2 & Hp2 & _);
    [done | lia | lia |].
  exists this'.
  split; [unfold skipUEG, _skipLeadingZero, bind, gets; by rewrite Hzeros|].
  split; [done|]. split; [lia|].
  unfold readUEG, _skipLeadingZero, bind, gets. rewrite Hzeros, Hbits. simpl. lia.
Qed.

(** ** Examples *)

(** Checks that a given reader is in step with a given buffer. *)
Ltac synced_here :=
  unfold synced; repeat split; try (intros H; vm_compute in H; discriminate H);
  vm_compute; (reflexivity || discriminate).

Lemma readBits_next_bits_witness :
  ∃ this', readBits 3 (constructor sample) = (Ret 2, this') ∧ position this' = 3.
Proof.
  destruct (readBits_next_bits sample (constructor sample) 3)
    as (result & this' & Hrun & _ & Hp & Hr & _).
  - synced_here.
  - lia.
  - vm_compute. discriminate.
  - exists this'. split; [|exact Hp]. rewrite Hrun, Hr. reflexivity.
Defined.

Lemma readBits_out_of_range_witness :
  ∃ this', readBits 32 second_word = (Ret 32769, this') ∧ position this' = 48.
Proof.
  destruct (readBits_out_of_range sample second_word 32) as (_ & Hpast).
  { synced_here. }
  destruct Hpast as ((this' & Hrun & _ & Hp & _) & _).
  - lia.
  - vm_compute. reflexivity.
  - vm_compute. reflexivity.
  - exists this'. split; [|exact Hp]. rewrite Hrun. reflexivity.
Defined.

Lemma readBits_composes_witness :
  ∃ ra rb r,
    fst ((do x <- readBits 3; do y <- readBits 5; ret (x, y)) (constructor sample))
    = Ret (ra, rb) ∧
    fst (readBits 8 (constructor sample)) = Ret r ∧ r = ra * 2 ^ 5 + rb.
Proof.
  destruct (readBits_composes sample (constructor sample) 3 5)
    as (ra & rb & this2 & r & this' & Hab & Hr & Heq & _).
  - synced_here.
  - lia.
  - lia.
  - lia.
  - vm_compute. discriminate.
  - exists ra, rb, r. rewrite Hab. change (3 + 5) with 8 in Hr. rewrite Hr. done.
Defined.

Lemma skipBits_advances_witness :
  ∃ this', skipBits 3 (constructor sample) = (Ret tt, this') ∧ position this' = 3.
Proof.
  destruct (skipBits_advances sample (constructor sample) 3) as (this' & Hrun & _ & Hp).
  - synced_here.
  - lia.
  - simpl. lia.
  - intros _. simpl. lia.
  - exists this'. split; [exact Hrun | exact Hp].
Defined.

Lemma skipBits_overshoots_witness :
  ∃ this', skipBits 16 (constructor sample) = (Ret tt, this') ∧ position this' = 32.
Proof.
  destruct (skipBits_overshoots sample (constructor sample) 16) as (this' & Hrun & _ & Hp).
  - synced_here.
  - simpl. lia.
  - vm_compute. discriminate.
  - exists this'. split; [exact Hrun | exact Hp].
Defined.

Lemma skipLeadingZero_counts_witness :
  ∃ this', _skipLeadingZero (constructor late_one) = (Ret 39, this') ∧ position this' = 39.
Proof.
  destruct (skipLeadingZero_counts late_one (constructor late_one) 39)
    as (this' & Hrun & _ & Hp & _).
  - synced_here.
  - lia.
  - vm_compute. discriminate.
  - vm_compute. reflexivity.
  - exists this'. split; [exact Hrun | exact Hp].
Defined.

Lemma skipLeadingZero_ends_witness :
  ∃ this',
    _skipLeadingZero (constructor all_zero)
    = (Throw (IllegalStateException "ExpGolomb: _fillCurrentWord() but no bytes available"),
       this') ∧
    _buffer_index this' = _total_bytes this'.
Proof.
  destruct (skipLeadingZero_ends all_zero (constructor all_zero)) as (_ & Hzeros).
  apply Hzeros.
  - synced_here.
  - vm_compute. reflexivity.
Defined.

Lemma readUEG_decodes_witness :
  ∃ this', readUEG (constructor sample) = (Ret 1, this') ∧ position this' = 3.
Proof.
  destruct (readUEG_decodes sample (constructor sample) 1) as (this' & Hrun & _ & Hp).
  - synced_here.
  - lia.
  - vm_compute. discriminate.
  - vm_compute. reflexivity.
  - exists this'. split; [exact Hrun | exact Hp].
Defined.

Lemma skipUEG_passes_witness :
  ∃ this', skipUEG (constructor sample) = (Ret tt, this') ∧ position this' = 3.
Proof.
  destruct (skipUEG_passes sample (constructor sample) 1) as (this' & Hrun & _ & Hp & _).
  - synced_here.
  - lia.
  - vm_compute. reflexivity.
  - vm_compute. reflexivity.
  - exists this'. split; [exact Hrun | exact Hp].
Defined.

End ExpGolombSpec.
